(** * The sienna-locomotive tracer: taint propagation, input hooks and
      exception triage of [tracer/tracer.cpp], embedded in Rocq.

    The tracer is a DynamoRIO client.  Its file-scope globals become one
    record, [tracer]; the C++ [std::set]s of tainted registers and tainted
    byte addresses become [gset]s; the two trace arrays become lists updated
    by index.  Everything DynamoRIO, Windows or the fuzzing server provides
    (the decoder, the machine context, the file API, the target selection
    policy) is collected in the record [host] and stays abstract. *)

From Stdlib Require Import ZArith String.
From stdpp Require Import base decidable countable gmap sets list strings sorting.

Local Open Scope Z_scope.

(** ** Registers *)

(** [reg_id_t]: the register identifiers that the source names, plus every
    other identifier of the DynamoRIO enumeration ([DR_REG_OTHER]).
    [DR_REG_NULL] is the enumeration's zero, which the source also writes
    [NULL]; the tracer uses it as the token of the program counter. *)
Inductive reg_id_t : Set :=
| DR_REG_NULL
| DR_REG_RAX | DR_REG_RBX | DR_REG_RCX | DR_REG_RDX
| DR_REG_RSP | DR_REG_RBP | DR_REG_RSI | DR_REG_RDI
| DR_REG_R8 | DR_REG_R9 | DR_REG_R10 | DR_REG_R11
| DR_REG_R12 | DR_REG_R13 | DR_REG_R14 | DR_REG_R15
| DR_REG_EAX | DR_REG_EBX | DR_REG_ECX | DR_REG_EDX
| DR_REG_ESP | DR_REG_EBP | DR_REG_ESI | DR_REG_EDI
| DR_REG_R8D | DR_REG_R9D | DR_REG_R10D | DR_REG_R11D
| DR_REG_R12D | DR_REG_R13D | DR_REG_R14D | DR_REG_R15D
| DR_REG_AX | DR_REG_BX | DR_REG_CX | DR_REG_DX
| DR_REG_SP | DR_REG_BP | DR_REG_SI | DR_REG_DI
| DR_REG_R8W | DR_REG_R9W | DR_REG_R10W | DR_REG_R11W
| DR_REG_R12W | DR_REG_R13W | DR_REG_R14W | DR_REG_R15W
| DR_REG_AH | DR_REG_AL | DR_REG_BH | DR_REG_BL
| DR_REG_CH | DR_REG_CL | DR_REG_DH | DR_REG_DL
| DR_REG_R8L | DR_REG_R9L | DR_REG_R10L | DR_REG_R11L
| DR_REG_R12L | DR_REG_R13L | DR_REG_R14L | DR_REG_R15L
| DR_REG_OTHER (n : N).

#[global] Instance reg_id_eq_dec : EqDecision reg_id_t.
Proof. solve_decision. Defined.

Definition reg_id_encode (r : reg_id_t) : N + N :=
  match r with
  | DR_REG_NULL => inl 0
  | DR_REG_RAX => inl 1 | DR_REG_RBX => inl 2 | DR_REG_RCX => inl 3 | DR_REG_RDX => inl 4
  | DR_REG_RSP => inl 5 | DR_REG_RBP => inl 6 | DR_REG_RSI => inl 7 | DR_REG_RDI => inl 8
  | DR_REG_R8 => inl 9 | DR_REG_R9 => inl 10 | DR_REG_R10 => inl 11 | DR_REG_R11 => inl 12
  | DR_REG_R12 => inl 13 | DR_REG_R13 => inl 14 | DR_REG_R14 => inl 15 | DR_REG_R15 => inl 16
  | DR_REG_EAX => inl 17 | DR_REG_EBX => inl 18 | DR_REG_ECX => inl 19 | DR_REG_EDX => inl 20
  | DR_REG_ESP => inl 21 | DR_REG_EBP => inl 22 | DR_REG_ESI => inl 23 | DR_REG_EDI => inl 24
  | DR_REG_R8D => inl 25 | DR_REG_R9D => inl 26 | DR_REG_R10D => inl 27 | DR_REG_R11D => inl 28
  | DR_REG_R12D => inl 29 | DR_REG_R13D => inl 30 | DR_REG_R14D => inl 31 | DR_REG_R15D => inl 32
  | DR_REG_AX => inl 33 | DR_REG_BX => inl 34 | DR_REG_CX => inl 35 | DR_REG_DX => inl 36
  | DR_REG_SP => inl 37 | DR_REG_BP => inl 38 | DR_REG_SI => inl 39 | DR_REG_DI => inl 40
  | DR_REG_R8W => inl 41 | DR_REG_R9W => inl 42 | DR_REG_R10W => inl 43 | DR_REG_R11W => inl 44
  | DR_REG_R12W => inl 45 | DR_REG_R13W => inl 46 | DR_REG_R14W => inl 47 | DR_REG_R15W => inl 48
  | DR_REG_AH => inl 49 | DR_REG_AL => inl 50 | DR_REG_BH => inl 51 | DR_REG_BL => inl 52
  | DR_REG_CH => inl 53 | DR_REG_CL => inl 54 | DR_REG_DH => inl 55 | DR_REG_DL => inl 56
  | DR_REG_R8L => inl 57 | DR_REG_R9L => inl 58 | DR_REG_R10L => inl 59 | DR_REG_R11L => inl 60
  | DR_REG_R12L => inl 61 | DR_REG_R13L => inl 62 | DR_REG_R14L => inl 63 | DR_REG_R15L => inl 64
  | DR_REG_OTHER n => inr n
  end%N.

Definition reg_id_decode (c : N + N) : reg_id_t :=
  match c with
  | inr n => DR_REG_OTHER n
  | inl k =>
    match k with
    | 1 => DR_REG_RAX | 2 => DR_REG_RBX | 3 => DR_REG_RCX | 4 => DR_REG_RDX
    | 5 => DR_REG_RSP | 6 => DR_REG_RBP | 7 => DR_REG_RSI | 8 => DR_REG_RDI
    | 9 => DR_REG_R8 | 10 => DR_REG_R9 | 11 => DR_REG_R10 | 12 => DR_REG_R11
    | 13 => DR_REG_R12 | 14 => DR_REG_R13 | 15 => DR_REG_R14 | 16 => DR_REG_R15
    | 17 => DR_REG_EAX | 18 => DR_REG_EBX | 19 => DR_REG_ECX | 20 => DR_REG_EDX
    | 21 => DR_REG_ESP | 22 => DR_REG_EBP | 23 => DR_REG_ESI | 24 => DR_REG_EDI
    | 25 => DR_REG_R8D | 26 => DR_REG_R9D | 27 => DR_REG_R10D | 28 => DR_REG_R11D
    | 29 => DR_REG_R12D | 30 => DR_REG_R13D | 31 => DR_REG_R14D | 32 => DR_REG_R15D
    | 33 => DR_REG_AX | 34 => DR_REG_BX | 35 => DR_REG_CX | 36 => DR_REG_DX
    | 37 => DR_REG_SP | 38 => DR_REG_BP | 39 => DR_REG_SI | 40 => DR_REG_DI
    | 41 => DR_REG_R8W | 42 => DR_REG_R9W | 43 => DR_REG_R10W | 44 => DR_REG_R11W
    | 45 => DR_REG_R12W | 46 => DR_REG_R13W | 47 => DR_REG_R14W | 48 => DR_REG_R15W
    | 49 => DR_REG_AH | 50 => DR_REG_AL | 51 => DR_REG_BH | 52 => DR_REG_BL
    | 53 => DR_REG_CH | 54 => DR_REG_CL | 55 => DR_REG_DH | 56 => DR_REG_DL
    | 57 => DR_REG_R8L | 58 => DR_REG_R9L | 59 => DR_REG_R10L | 60 => DR_REG_R11L
    | 61 => DR_REG_R12L | 62 => DR_REG_R13L | 63 => DR_REG_R14L | 64 => DR_REG_R15L
    | _ => DR_REG_NULL
    end%N
  end.

#[global] Instance reg_id_countable : Countable reg_id_t.
Proof.
  refine (inj_countable' reg_id_encode reg_id_decode _).
  intros r; destruct r; reflexivity.
Defined.

(** [reg_to_full_width64]: converts a register to full width for taint
    tracking. *)
Definition reg_to_full_width64 (reg : reg_id_t) : reg_id_t :=
  match reg with
  | DR_REG_EAX | DR_REG_AX | DR_REG_AH | DR_REG_AL => DR_REG_RAX
  | DR_REG_EBX | DR_REG_BX | DR_REG_BH | DR_REG_BL => DR_REG_RBX
  | DR_REG_ECX | DR_REG_CX | DR_REG_CH | DR_REG_CL => DR_REG_RCX
  | DR_REG_EDX | DR_REG_DX | DR_REG_DH | DR_REG_DL => DR_REG_RDX
  | DR_REG_R8D | DR_REG_R8W | DR_REG_R8L => DR_REG_R8
  | DR_REG_R9D | DR_REG_R9W | DR_REG_R9L => DR_REG_R9
  | DR_REG_R10D | DR_REG_R10W | DR_REG_R10L => DR_REG_R10
  | DR_REG_R11D | DR_REG_R11W | DR_REG_R11L => DR_REG_R11
  | DR_REG_R12D | DR_REG_R12W | DR_REG_R12L => DR_REG_R12
  | DR_REG_R13D | DR_REG_R13W | DR_REG_R13L => DR_REG_R13
  | DR_REG_R14D | DR_REG_R14W | DR_REG_R14L => DR_REG_R14
  | DR_REG_R15D | DR_REG_R15W | DR_REG_R15L => DR_REG_R15
  | DR_REG_ESP | DR_REG_SP => DR_REG_RSP
  | DR_REG_EBP | DR_REG_BP => DR_REG_RBP
  | DR_REG_ESI | DR_REG_SI => DR_REG_RSI
  | DR_REG_EDI | DR_REG_DI => DR_REG_RDI
  | _ => reg
  end.

(** ** Addresses, operands and decoded instructions *)

(** [app_pc] is a 64-bit pointer: a [Z] in [0, 2^64), with the wrap-around
    of pointer and [uint64_t] arithmetic written out. *)
Definition app_pc : Type := Z.

Definition ptr_modulus : Z := 2 ^ 64.

Definition ptr_add (addr : app_pc) (i : Z) : app_pc := (addr + i) mod ptr_modulus.

(** [opnd_t]: the operand kinds the tracer tells apart.  A memory reference
    is either a base+index+displacement operand or an absolute or
    pc-relative address; both carry their size in bytes (what
    [opnd_size_in_bytes (opnd_get_size opnd)] returns). *)
Inductive opnd_t : Type :=
| OPND_REG (reg : reg_id_t)
| OPND_BASE_DISP (base index : reg_id_t) (scale disp : Z) (size : Z)
| OPND_ABS_ADDR (addr : app_pc) (size : Z)
| OPND_IMMED (value : Z)
| OPND_PC (pc : app_pc)
| OPND_NULL.

Definition opnd_is_memory_reference (opnd : opnd_t) : bool :=
  match opnd with
  | OPND_BASE_DISP _ _ _ _ _ | OPND_ABS_ADDR _ _ => true
  | _ => false
  end.

Definition opnd_size_in_bytes (opnd : opnd_t) : Z :=
  match opnd with
  | OPND_BASE_DISP _ _ _ _ size | OPND_ABS_ADDR _ size => size
  | _ => 0
  end.

(** The opcodes the dispatcher of [handle_specific] names. *)
Inductive opcode_t : Set :=
| OP_push | OP_pop | OP_xor | OP_xchg
| OP_other (n : N).

(** [instr_t]: a decoded instruction, as far as the tracer looks at it: its
    opcode, its source and destination operands, its branch target, and the
    answers of DynamoRIO's classification predicates. *)
Record instr_t : Type := {
  instr_get_opcode : opcode_t;
  instr_srcs : list opnd_t;
  instr_dsts : list opnd_t;
  instr_get_target : opnd_t;
  instr_is_return : bool;
  instr_is_ubr : bool;
  instr_is_cbr : bool;
  instr_is_call_direct : bool;
  instr_is_mbr : bool;
  instr_is_call : bool;
  instr_writes_memory : bool;
  instr_reads_memory : bool
}.

(** The machine context of the thread: the values of its registers. *)
Record dr_mcontext_t : Type := { mc_reg : reg_id_t → Z }.

(** ** The host: DynamoRIO, Windows and the fuzzing server *)

(** What the tracer calls but does not define.  One [host] value fixes the
    answers of the collaborators at one callback: the decoder, the machine
    context of the current thread, the effective-address computation, the
    implicit conversion of an [int] to a [reg_id_t], the probe of
    [IsBadReadPtr], the results of the file API during triage, and the
    policy of [SL2Client]. *)
Record client_read_info : Type := {
  lpBuffer : app_pc;
  nNumberOfBytesToRead : Z;
  argHash : bool;              (* whether the [argHash] pointer is non-null *)
  function : Z
}.

Record host : Type := {
  decode : app_pc → instr_t;
  instr_disassemble_to_buffer : instr_t → string;
  dr_get_mcontext : dr_mcontext_t;
  opnd_compute_address : opnd_t → dr_mcontext_t → app_pc;
  reg_id_of_int : Z → reg_id_t;
  IsBadReadPtr : app_pc → bool;
  exception_to_string : Z → string;
  get_register_name : reg_id_t → string;
  reg_get_value : reg_id_t → dr_mcontext_t → Z;
  CreateFile_crash_path : bool;       (* the crash file could be opened *)
  WriteFile_crash_json : bool;        (* the crash file could be written *)
  CreateFile_mem_dump_path : bool;    (* the dump file could be opened *)
  MiniDumpWriteDump_result : bool;    (* the dump could be written to an open file *)
  is_sane_post_hook : client_read_info → bool;
  is_function_targeted : client_read_info → bool
}.

(** ** The tracer's globals *)

Definition LAST_COUNT : Z := 5.

Record tracer : Type := {
  replay : bool;
  no_mutate : bool;
  crashed : bool;
  mutate_count : Z;                    (* uint32_t *)
  tainted_regs : gset reg_id_t;
  tainted_mems : gset app_pc;
  last_call_idx : Z;
  last_insn_idx : Z;
  last_calls : list app_pc;
  last_insns : list app_pc;
  module_start : app_pc;
  module_end : app_pc
}.

Definition set_tainted_regs (f : gset reg_id_t → gset reg_id_t) (st : tracer) : tracer :=
  {| replay := replay st; no_mutate := no_mutate st; crashed := crashed st;
     mutate_count := mutate_count st;
     tainted_regs := f (tainted_regs st); tainted_mems := tainted_mems st;
     last_call_idx := last_call_idx st; last_insn_idx := last_insn_idx st;
     last_calls := last_calls st; last_insns := last_insns st;
     module_start := module_start st; module_end := module_end st |}.

Definition set_tainted_mems (f : gset app_pc → gset app_pc) (st : tracer) : tracer :=
  {| replay := replay st; no_mutate := no_mutate st; crashed := crashed st;
     mutate_count := mutate_count st;
     tainted_regs := tainted_regs st; tainted_mems := f (tainted_mems st);
     last_call_idx := last_call_idx st; last_insn_idx := last_insn_idx st;
     last_calls := last_calls st; last_insns := last_insns st;
     module_start := module_start st; module_end := module_end st |}.

Definition set_last_insns (idx : Z) (ring : list app_pc) (st : tracer) : tracer :=
  {| replay := replay st; no_mutate := no_mutate st; crashed := crashed st;
     mutate_count := mutate_count st;
     tainted_regs := tainted_regs st; tainted_mems := tainted_mems st;
     last_call_idx := last_call_idx st; last_insn_idx := idx;
     last_calls := last_calls st; last_insns := ring;
     module_start := module_start st; module_end := module_end st |}.

Definition set_last_calls (idx : Z) (ring : list app_pc) (st : tracer) : tracer :=
  {| replay := replay st; no_mutate := no_mutate st; crashed := crashed st;
     mutate_count := mutate_count st;
     tainted_regs := tainted_regs st; tainted_mems := tainted_mems st;
     last_call_idx := idx; last_insn_idx := last_insn_idx st;
     last_calls := ring; last_insns := last_insns st;
     module_start := module_start st; module_end := module_end st |}.

Definition set_crashed (b : bool) (st : tracer) : tracer :=
  {| replay := replay st; no_mutate := no_mutate st; crashed := b;
     mutate_count := mutate_count st;
     tainted_regs := tainted_regs st; tainted_mems := tainted_mems st;
     last_call_idx := last_call_idx st; last_insn_idx := last_insn_idx st;
     last_calls := last_calls st; last_insns := last_insns st;
     module_start := module_start st; module_end := module_end st |}.

Definition set_mutate_count (n : Z) (st : tracer) : tracer :=
  {| replay := replay st; no_mutate := no_mutate st; crashed := crashed st;
     mutate_count := n;
     tainted_regs := tainted_regs st; tainted_mems := tainted_mems st;
     last_call_idx := last_call_idx st; last_insn_idx := last_insn_idx st;
     last_calls := last_calls st; last_insns := last_insns st;
     module_start := module_start st; module_end := module_end st |}.

(** The globals as the file initialises them, before [dr_client_main] reads
    the options and [on_module_load] finds the module. *)
Definition initial_tracer : tracer :=
  {| replay := false; no_mutate := false; crashed := false; mutate_count := 0;
     tainted_regs := ∅; tainted_mems := ∅;
     last_call_idx := 0; last_insn_idx := 0;
     last_calls := replicate (Z.to_nat LAST_COUNT) 0;
     last_insns := replicate (Z.to_nat LAST_COUNT) 0;
     module_start := 0; module_end := 0 |}.

(** ** The shadow state and the operand inspector *)

Section taint.
Variable h : host.

(** [is_tainted]: check whether an operand is tainted. *)
Definition is_tainted (st : tracer) (opnd : opnd_t) : bool :=
  match opnd with
  | OPND_REG reg =>
    let reg := reg_to_full_width64 reg in
    bool_decide (reg ∈ tainted_regs st)
  | OPND_BASE_DISP _ _ _ _ _ | OPND_ABS_ADDR _ _ =>
    let mc := dr_get_mcontext h in
    let addr := opnd_compute_address h opnd mc in
    let size := opnd_size_in_bytes opnd in
    (* a memory region that overlaps a tainted address *)
    if existsb (λ i, bool_decide (ptr_add addr i ∈ tainted_mems st)) (seqZ 0 size)
    then true
    else
      (* a register used in calculating the address *)
      match opnd with
      | OPND_BASE_DISP reg_base reg_indx _ disp _ =>
        let reg_disp := reg_id_of_int h disp in
        if bool_decide (reg_base ≠ DR_REG_NULL)
           && bool_decide (reg_to_full_width64 reg_base ∈ tainted_regs st)
        then true
        else if bool_decide (reg_disp ≠ DR_REG_NULL)
                && bool_decide (reg_to_full_width64 reg_disp ∈ tainted_regs st)
        then true
        else if bool_decide (reg_indx ≠ DR_REG_NULL)
                && bool_decide (reg_to_full_width64 reg_indx ∈ tainted_regs st)
        then true
        else false
      | _ => false
      end
  | _ => false
  end.

(** [taint_mem]: mark [size] bytes from [addr] as tainted. *)
Definition taint_mem (addr : app_pc) (size : Z) (st : tracer) : tracer :=
  foldl (λ st i, set_tainted_mems (λ s, {[ptr_add addr i]} ∪ s) st) st (seqZ 0 size).

(** [untaint_mem]: unmark them; the result tells whether any was marked. *)
Definition untaint_mem (addr : app_pc) (size : Z) (st : tracer) : bool * tracer :=
  foldl (λ '(untainted, st) i,
           let n := bool_decide (ptr_add addr i ∈ tainted_mems st) in
           (if n then true else untainted,
            set_tainted_mems (λ s, s ∖ {[ptr_add addr i]}) st))
        (false, st) (seqZ 0 size).

(** [taint]: mark an operand as tainted, a register or a memory reference. *)
Definition taint (opnd : opnd_t) (st : tracer) : tracer :=
  match opnd with
  | OPND_REG reg =>
    let reg := reg_to_full_width64 reg in
    set_tainted_regs (λ s, {[reg]} ∪ s) st
  | OPND_BASE_DISP _ _ _ _ _ | OPND_ABS_ADDR _ _ =>
    let mc := dr_get_mcontext h in
    let addr := opnd_compute_address h opnd mc in
    let size := opnd_size_in_bytes opnd in
    taint_mem addr size st
  | _ => st
  end.

(** [untaint]: untaint an operand. *)
Definition untaint (opnd : opnd_t) (st : tracer) : bool * tracer :=
  match opnd with
  | OPND_REG reg =>
    let reg := reg_to_full_width64 reg in
    let n := bool_decide (reg ∈ tainted_regs st) in
    (n, set_tainted_regs (λ s, s ∖ {[reg]}) st)
  | OPND_BASE_DISP _ _ _ _ _ | OPND_ABS_ADDR _ _ =>
    let mc := dr_get_mcontext h in
    let addr := opnd_compute_address h opnd mc in
    let size := opnd_size_in_bytes opnd in
    untaint_mem addr size st
  | _ => (false, st)
  end.

(** ** The propagation rules *)

(** [handle_xor]: the special case of [xor regA, regA]; the destination is
    untainted since it is inevitably 0. *)
Definition handle_xor (instr : instr_t) (st : tracer) : bool * tracer :=
  match instr_srcs instr with
  | [opnd_0; opnd_1] =>
    match opnd_0, opnd_1 with
    | OPND_REG r0, OPND_REG r1 =>
      let reg_0 := reg_to_full_width64 r0 in
      let reg_1 := reg_to_full_width64 r1 in
      if bool_decide (reg_0 = reg_1)
      then (true, set_tainted_regs (λ s, s ∖ {[reg_0]}) st)
      else (false, st)
    | _, _ => (false, st)
    end
  | _ => (false, st)
  end.

(** The test both destination loops of [handle_push_pop] make before they
    [continue]: the operand is a register whose full width is [rsp]. *)
Definition is_rsp_opnd (opnd : opnd_t) : bool :=
  match opnd with
  | OPND_REG reg => bool_decide (reg_to_full_width64 reg = DR_REG_RSP)
  | _ => false
  end.

(** [handle_push_pop]: push and pop do not taint [rsp], which is among
    their operands. *)
Definition handle_push_pop (instr : instr_t) (st : tracer) : tracer :=
  let tainted := existsb (is_tainted st) (instr_srcs instr) in
  if tainted
  then foldl (λ st opnd, if is_rsp_opnd opnd then st else taint opnd st)
             st (instr_dsts instr)
  else foldl (λ st opnd, if is_rsp_opnd opnd then st else snd (untaint opnd st))
             st (instr_dsts instr).

(** [handle_xchg]: an xchg of a tainted and an untainted register swaps
    the taint. *)
Definition handle_xchg (instr : instr_t) (st : tracer) : bool * tracer :=
  match instr_srcs instr with
  | [opnd_0; opnd_1] =>
    match opnd_0, opnd_1 with
    | OPND_REG r0, OPND_REG r1 =>
      let reg_0 := reg_to_full_width64 r0 in
      let reg_1 := reg_to_full_width64 r1 in
      let reg_0_tainted := bool_decide (reg_0 ∈ tainted_regs st) in
      let reg_1_tainted := bool_decide (reg_1 ∈ tainted_regs st) in
      if reg_0_tainted && negb reg_1_tainted
      then (true, set_tainted_regs (λ s, {[reg_1]} ∪ (s ∖ {[reg_0]})) st)
      else if reg_1_tainted && negb reg_0_tainted
      then (true, set_tainted_regs (λ s, {[reg_0]} ∪ (s ∖ {[reg_1]})) st)
      else (false, st)
    | _, _ => (false, st)
    end
  | _ => (false, st)
  end.

(** [handle_branches]: the special cases for tainting and untainting the
    program counter. *)
Definition handle_branches (instr : instr_t) (st : tracer) : bool * tracer :=
  let is_ret := instr_is_return instr in
  let is_direct :=
    instr_is_ubr instr || instr_is_cbr instr || instr_is_call_direct instr in
  let is_indirect := instr_is_mbr instr in
  let is_call := instr_is_call instr in
  if negb is_ret && negb is_direct && negb is_indirect && negb is_call
  then (false, st)
  else
    let reg_pc := reg_to_full_width64 DR_REG_NULL in
    let reg_stack := reg_to_full_width64 DR_REG_ESP in
    let pc_tainted := bool_decide (reg_pc ∈ tainted_regs st) in
    (* call: make the saved return address tainted *)
    let st :=
      if is_call && pc_tainted
      then match List.find opnd_is_memory_reference (instr_dsts instr) with
           | Some opnd => taint opnd st
           | None => st
           end
      else st in
    (* direct branch or call: untaint pc *)
    let st :=
      if is_direct && pc_tainted
      then set_tainted_regs (λ s, s ∖ {[reg_pc]}) st
      else st in
    (* indirect branch or call *)
    let st :=
      if is_indirect
      then foldl (λ st opnd,
                    match opnd with
                    | OPND_REG r =>
                      let reg := reg_to_full_width64 r in
                      if bool_decide (reg ≠ reg_stack)
                         && bool_decide (reg ∈ tainted_regs st)
                      then set_tainted_regs (λ s, {[reg_pc]} ∪ s) st
                      else st
                    | _ => st
                    end)
                 st (instr_srcs instr)
      else st in
    (* ret *)
    let st :=
      if is_ret
      then
        let tainted := existsb (is_tainted st) (instr_srcs instr) in
        if tainted
        then set_tainted_regs (λ s, {[reg_pc]} ∪ s) st
        else set_tainted_regs (λ s, s ∖ {[reg_pc]}) st
      else st in
    (true, st).

(** [handle_specific]: dispatch to the instruction-specific handling. *)
Definition handle_specific (instr : instr_t) (st : tracer) : bool * tracer :=
  let opcode := instr_get_opcode instr in
  let '(branched, st') := handle_branches instr st in
  if branched then (true, st')
  else
    match opcode with
    | OP_push | OP_pop => (true, handle_push_pop instr st')
    | OP_xor => handle_xor instr st'
    | OP_xchg => handle_xchg instr st'
    | OP_other _ => (false, st')
    end.

(** The test [pc > module_start && pc < module_end] that guards both
    trace rings. *)
Definition in_module (st : tracer) (pc : app_pc) : bool :=
  bool_decide (pc > module_start st) && bool_decide (pc < module_end st).

(** [ring[idx] = value; idx++; idx %= LAST_COUNT;] on one of the rings.
    An index outside the array is undefined in the source; here the store
    then leaves the list as it is. *)
Definition ring_store (idx : Z) (ring : list app_pc) (value : app_pc) : Z * list app_pc :=
  (Z.rem (idx + 1) LAST_COUNT, <[Z.to_nat idx := value]> ring).

(** [propagate_taint]: called on each instruction; spreads taint from the
    sources to the destinations and wipes tainted destinations whose
    sources are not tainted. *)
Definition propagate_taint (pc : app_pc) (st : tracer) : tracer :=
  (* store the instruction trace *)
  let st :=
    if in_module st pc
    then let '(idx, ring) := ring_store (last_insn_idx st) (last_insns st) pc in
         set_last_insns idx ring st
    else st in
  if bool_decide (size (tainted_mems st) = 0%nat)
     && bool_decide (size (tainted_regs st) = 0%nat)
  then st
  else
    let instr := decode h pc in
    let st :=
      if instr_is_call instr
      then
        let target := instr_get_target instr in
        if opnd_is_memory_reference target
        then
          let mc := dr_get_mcontext h in
          let addr := opnd_compute_address h target mc in
          if in_module st pc
          then let '(idx, ring) := ring_store (last_call_idx st) (last_calls st) addr in
               set_last_calls idx ring st
          else st
        else st
      else st in
    (* the specific instructions *)
    let '(handled, st) := handle_specific instr st in
    if handled then st
    else
      let tainted := existsb (is_tainted st) (instr_srcs instr) in
      if tainted
      then foldl (λ st opnd, taint opnd st) st (instr_dsts instr)
      else foldl (λ st opnd, snd (untaint opnd st)) st (instr_dsts instr).

End taint.

(** ** Processes: globals, a trace of the calls made, and termination *)

(** The exception record and the machine context DynamoRIO hands to
    [on_exception]. *)
Record dr_exception_t : Type := {
  ExceptionCode : Z;
  ExceptionAddress : app_pc;
  mcontext : dr_mcontext_t
}.

Definition EXCEPTION_ILLEGAL_INSTRUCTION : Z := 0xC000001D.
Definition EXCEPTION_INT_DIVIDE_BY_ZERO : Z := 0xC0000094.
Definition EXCEPTION_BREAKPOINT : Z := 0x80000003.

(** The JSON object [dump_json] builds. *)
Record crash_json : Type := {
  j_score : Z;
  j_reason : string;
  j_exception : string;
  j_location : Z;
  j_instruction : string;
  j_pc_tainted : bool;
  j_stack_tainted : bool;
  j_is_ret : bool;
  j_is_indirect : bool;
  j_is_direct : bool;
  j_is_call : bool;
  j_mem_write : bool;
  j_mem_read : bool;
  j_tainted_src : bool;
  j_tainted_dst : bool;
  j_regs : list (string * Z * bool);
  j_last_calls : list Z;
  j_last_insns : list Z;
  j_tainted_addrs : list (Z * Z)        (* start, size *)
}.

Inductive file_t : Set := crash_path | mem_dump_path.

(** The calls the tracer makes to its collaborators, in the order it makes
    them.  [EvDumpCrash j] marks the entry into [dump_crash], with the
    report [dump_json] returned to it; the file and dump events carry the
    result the host gave. *)
Inductive event : Type :=
| EvIncrementCallCount (fn : Z)
| EvMutexLock
| EvMutexUnlock
| EvRequestReplay (index len : Z) (buf : app_pc)
| EvThreadFreeArgHash
| EvThreadFreeInfo (info : client_read_info)
| EvDumpCrash (j : crash_json)
| EvRequestCrashPaths
| EvCreateFile (f : file_t) (ok : bool)
| EvWriteFile (j : crash_json) (ok : bool)
| EvCloseHandle (f : file_t)
| EvMiniDumpWriteDump (file_open ok : bool).

(** How a piece of tracer code ends when it does not return: the process
    exits, it aborts, or the code reads a variable that was never
    initialised, after which C++ does not say what happens. *)
Inductive termination : Set :=
| ExitProcess (code : Z)
| Aborted
| Undefined.

Record world : Type := { globals : tracer; trace : list event }.

Inductive outcome (A : Type) : Type :=
| Returns (a : A) (w : world)
| Terminates (t : termination) (w : world).
Arguments Returns {A} a w.
Arguments Terminates {A} t w.

(** A piece of tracer code: it runs on a world and either returns, or ends
    the process and never returns to its caller. *)
Definition proc (A : Type) : Type := world → outcome A.

#[global] Instance proc_ret : MRet proc := λ A a w, Returns a w.
#[global] Instance proc_bind : MBind proc := λ A B f m w,
  match m w with
  | Returns a w' => f a w'
  | Terminates t w' => Terminates t w'
  end.

Definition get_globals : proc tracer := λ w, Returns (globals w) w.
Definition modify_globals (f : tracer → tracer) : proc unit :=
  λ w, Returns () {| globals := f (globals w); trace := trace w |}.
Definition emit (e : event) : proc unit :=
  λ w, Returns () {| globals := globals w; trace := trace w ++ [e] |}.
Definition dr_exit_process (code : Z) : proc unit := λ w, Terminates (ExitProcess code) w.
Definition dr_abort : proc unit := λ w, Terminates Aborted w.
Definition undefined_behaviour : proc unit := λ w, Terminates Undefined w.
Definition when (b : bool) (m : proc unit) : proc unit := if b then m else mret ().

(** ** The crash report *)

Section triage.
Variable h : host.

(** The in-order iteration of a [std::set] of addresses. *)
Definition set_iter (s : gset app_pc) : list app_pc := merge_sort Z.le (elements s).

Definition uint64 (n : Z) : Z := n mod 2 ^ 64.

(** The body of the loop that coalesces the tainted addresses: [out] is
    the array built so far, [start] and [size] the extent being grown. *)
Definition coalesce_step (acc : list (Z * Z) * Z * Z) (curr : Z) : list (Z * Z) * Z * Z :=
  let '(out, start, size) := acc in
  let '(out, start, size) :=
    if bool_decide (curr > uint64 (start + size))
    then (out ++ [(start, size)], curr, 0)
    else (out, start, size) in
  (out, start, uint64 (size + 1)).

(** The [tainted_addrs] array of the report. *)
Definition tainted_addrs (mems : gset app_pc) : list (Z * Z) :=
  match set_iter mems with
  | [] => []
  | first :: rest =>
    let '(out, start, size) := foldl coalesce_step ([], first, 1) rest in
    out ++ [(start, size)]
  end.

(** A ring, read from its write index on. *)
Definition ring_read (idx : Z) (ring : list app_pc) : list Z :=
  (λ i, default 0 (ring !! Z.to_nat (Z.rem (idx + i) LAST_COUNT))) <$> seqZ 0 LAST_COUNT.

Definition regs : list reg_id_t :=
  [DR_REG_RAX; DR_REG_RBX; DR_REG_RCX; DR_REG_RDX; DR_REG_RSP; DR_REG_RBP;
   DR_REG_RSI; DR_REG_RDI; DR_REG_R8; DR_REG_R9; DR_REG_R10; DR_REG_R11;
   DR_REG_R12; DR_REG_R13; DR_REG_R14; DR_REG_R15].

(** [dump_json]: the crash information as JSON. *)
Definition dump_json (st : tracer) (score : Z) (reason : string) (excpt : dr_exception_t)
    (disassembly : string)
    (pc_tainted stack_tainted is_ret is_indirect is_direct is_call
     mem_write mem_read tainted_src tainted_dst : bool) : crash_json :=
  let exception_code := ExceptionCode excpt in
  let exception_address := ExceptionAddress excpt in
  {| j_score := score;
     j_reason := reason;
     j_exception := exception_to_string h exception_code;
     j_location := exception_address;
     j_instruction := disassembly;
     j_pc_tainted := pc_tainted;
     j_stack_tainted := stack_tainted;
     j_is_ret := is_ret;
     j_is_indirect := is_indirect;
     j_is_direct := is_direct;
     j_is_call := is_call;
     j_mem_write := mem_write;
     j_mem_read := mem_read;
     j_tainted_src := tainted_src;
     j_tainted_dst := tainted_dst;
     j_regs :=
       ((λ r, (get_register_name h r, reg_get_value h r (mcontext excpt),
               bool_decide (r ∈ tainted_regs st))) <$> regs)
       ++ [("rip"%string, exception_address,
            bool_decide (DR_REG_NULL ∈ tainted_regs st))];
     j_last_calls := ring_read (last_call_idx st) (last_calls st);
     j_last_insns := ring_read (last_insn_idx st) (last_insns st);
     j_tainted_addrs := tainted_addrs (tainted_mems st) |}.

(** [dump_crash]: dump the crash information into the run folder, and the
    memory of the process next to it; then leave the process.  (The copy
    of the exception record and of the context that the source keeps in
    [trace_exception_ctx] only feeds [MiniDumpWriteDump] and is left out,
    as are the switches between application and DynamoRIO state.) *)
Definition dump_crash (excpt : dr_exception_t) (reason : string) (score : Z)
    (disassembly : string)
    (pc_tainted stack_tainted is_ret is_indirect is_direct is_call
     mem_write mem_read tainted_src tainted_dst : bool) : proc unit :=
  st ← get_globals;
  let crash_json :=
    dump_json st score reason excpt disassembly pc_tainted stack_tainted is_ret
              is_indirect is_direct is_call mem_write mem_read tainted_src tainted_dst in
  emit (EvDumpCrash crash_json);;
  when (replay st) (
    emit EvRequestCrashPaths;;
    let dump_file := CreateFile_crash_path h in
    emit (EvCreateFile crash_path dump_file);;
    when (negb dump_file) dr_abort;;
    let written := WriteFile_crash_json h in
    emit (EvWriteFile crash_json written);;
    when (negb written) dr_abort;;
    emit (EvCloseHandle crash_path);;
    let hDumpFile := CreateFile_mem_dump_path h in
    emit (EvCreateFile mem_dump_path hDumpFile);;
    when (negb hDumpFile) (mret ());;      (* only a debug message *)
    emit (EvMiniDumpWriteDump hDumpFile (hDumpFile && MiniDumpWriteDump_result h));;
    emit (EvCloseHandle mem_dump_path));;
  dr_exit_process 1.

(** [on_exception]: the scoring function.  It checks the exception code,
    then the taint state, to calculate the severity score. *)
Definition on_exception (excpt : dr_exception_t) : proc bool :=
  modify_globals (set_crashed true);;
  let exception_code := ExceptionCode excpt in
  st ← get_globals;
  let reg_pc := reg_to_full_width64 DR_REG_NULL in
  let reg_stack := reg_to_full_width64 DR_REG_ESP in
  let pc_tainted := bool_decide (reg_pc ∈ tainted_regs st) in
  let stack_tainted := bool_decide (reg_stack ∈ tainted_regs st) in
  (* catch-all result *)
  let exception_address := ExceptionAddress excpt in
  let reason := "unknown"%string in
  let score := 50 in
  let disassembly := ""%string in
  '(reason, score) ←
    (if IsBadReadPtr h exception_address
     then
       let '(reason, score) :=
         if pc_tainted then ("oob execution tainted pc"%string, 100)
         else ("oob execution"%string, 50) in
       dump_crash excpt reason score disassembly pc_tainted stack_tainted
                  false false false false false false false false;;
       mret (reason, score)
     else mret (reason, score));
  let instr := decode h exception_address in
  let disassembly := instr_disassemble_to_buffer h instr in
  (* the crashing instruction *)
  let is_ret := instr_is_return instr in
  let is_direct :=
    instr_is_ubr instr || instr_is_cbr instr || instr_is_call_direct instr in
  let is_indirect := instr_is_mbr instr in
  let is_call := instr_is_call instr in
  let mem_write := instr_writes_memory instr in
  let mem_read := instr_reads_memory instr in
  let tainted_src := false in
  let tainted_dst := false in
  (* illegal instructions are bad *)
  '(reason, score) ←
    (if bool_decide (exception_code = EXCEPTION_ILLEGAL_INSTRUCTION)
     then
       let '(reason, score) :=
         if pc_tainted then ("illegal instruction tainted pc"%string, 100)
         else ("illegal instruction"%string, 50) in
       dump_crash excpt reason score disassembly pc_tainted stack_tainted
                  false false false false false false false false;;
       mret (reason, score)
     else mret (reason, score));
  (* divide by zero is probably not too bad *)
  '(reason, score) ←
    (if bool_decide (exception_code = EXCEPTION_INT_DIVIDE_BY_ZERO)
     then
       let '(reason, score) := ("divide by zero"%string, 50) in
       dump_crash excpt reason score disassembly pc_tainted stack_tainted is_ret
                  is_indirect is_direct is_call mem_write mem_read tainted_src tainted_dst;;
       mret (reason, score)
     else mret (reason, score));
  (* breakpoints *)
  '(reason, score) ←
    (if bool_decide (exception_code = EXCEPTION_BREAKPOINT)
     then
       let '(reason, score) := ("breakpoint"%string, 25) in
       dump_crash excpt reason score disassembly pc_tainted stack_tainted is_ret
                  is_indirect is_direct is_call mem_write mem_read tainted_src tainted_dst;;
       mret (reason, score)
     else mret (reason, score));
  (* check branch *)
  '(reason, score) ←
    (if is_direct || is_indirect || is_call
     then
       let '(reason, score) :=
         if pc_tainted then ("branching tainted pc"%string, 75)
         else ("branching"%string, 25) in
       dump_crash excpt reason score disassembly pc_tainted stack_tainted is_ret
                  is_indirect is_direct is_call mem_write mem_read tainted_src tainted_dst;;
       mret (reason, score)
     else mret (reason, score));
  (* check ret *)
  '(reason, score) ←
    (if is_ret
     then
       let '(reason, score) :=
         if pc_tainted || stack_tainted then ("return with taint"%string, 100)
         else ("return"%string, 75) in
       dump_crash excpt reason score disassembly pc_tainted stack_tainted is_ret
                  is_indirect is_direct is_call mem_write mem_read tainted_src tainted_dst;;
       mret (reason, score)
     else mret (reason, score));
  st ← get_globals;
  let tainted_src :=
    foldl (λ acc opnd, acc || is_tainted h st opnd) tainted_src (instr_srcs instr) in
  let tainted_dst :=
    foldl (λ acc opnd, acc || is_tainted h st opnd) tainted_dst (instr_dsts instr) in
  (* an invalid memory write *)
  '(reason, score) ←
    (if mem_write
     then
       let '(reason, score) :=
         if tainted_src || tainted_dst then ("tainted write"%string, 75)
         else ("write"%string, 50) in
       dump_crash excpt reason score disassembly pc_tainted stack_tainted is_ret
                  is_indirect is_direct is_call mem_write mem_read tainted_src tainted_dst;;
       mret (reason, score)
     else mret (reason, score));
  (* ditto, but for invalid reads *)
  '(reason, score) ←
    (if mem_read
     then
       let '(reason, score) :=
         if tainted_src then ("tainted read"%string, 75)
         else ("read"%string, 25) in
       dump_crash excpt reason score disassembly pc_tainted stack_tainted is_ret
                  is_indirect is_direct is_call mem_write mem_read tainted_src tainted_dst;;
       mret (reason, score)
     else mret (reason, score));
  dump_crash excpt reason score disassembly pc_tainted stack_tainted is_ret
             is_indirect is_direct is_call mem_write mem_read tainted_src tainted_dst;;
  mret true.

End triage.

(** ** The input hooks *)

Section hooks.
Variable h : host.

Definition uint32 (n : Z) : Z := n mod 2 ^ 32.

(** The [cleanup:] label of [wrap_post_Generic], reached with [info]
    initialised. *)
Definition cleanup_Generic (info : client_read_info) : proc unit :=
  when (argHash info) (emit EvThreadFreeArgHash);;
  emit (EvThreadFreeInfo info).

(** The [cleanup:] label reached by the [goto] of a hook that is not sane.
    The jump passes over [client_read_info *info = user_data], so that the
    label reads [info->argHash] and frees [info] with [info] never
    initialised: the record behind [user_data] is not what is freed, and
    what is done instead is not defined. *)
Definition cleanup_uninitialized : proc unit := undefined_behaviour.

(** [wrap_post_Generic]: called after each targeted function, to replay
    the mutation and to mark the bytes as tainted.  [info] is the record
    behind [user_data], which the hook reads once it has found the call
    sane. *)
Definition wrap_post_Generic (info : client_read_info) : proc unit :=
  if negb (is_sane_post_hook h info)
  then cleanup_uninitialized
  else
    (* is this the function we want to target *)
    let targeted := is_function_targeted h info in
    emit (EvIncrementCallCount (function info));;
    (* mark the targeted memory as tainted *)
    when targeted
      (modify_globals (taint_mem (lpBuffer info) (nNumberOfBytesToRead info)));;
    (* talk to the server, get the stored mutation, write it into memory *)
    st ← get_globals;
    when (replay st && targeted) (
      emit EvMutexLock;;
      (if no_mutate st
       then mret ()
       else emit (EvRequestReplay (mutate_count st) (nNumberOfBytesToRead info)
                                  (lpBuffer info)));;
      modify_globals (λ st, set_mutate_count (uint32 (mutate_count st + 1)) st);;
      emit EvMutexUnlock);;
    cleanup_Generic info.

End hooks.

(** ** What the statements below talk about *)

(** The globals that the shadow-state operations never touch. *)
Definition frame (st : tracer) : bool * bool * bool * Z * Z * Z * list app_pc * list app_pc * Z * Z :=
  (replay st, no_mutate st, crashed st, mutate_count st, last_call_idx st,
   last_insn_idx st, last_calls st, last_insns st, module_start st, module_end st).

Definition insn_view (st : tracer) : Z * list app_pc * Z * Z :=
  (last_insn_idx st, last_insns st, module_start st, module_end st).

Definition call_view (st : tracer) : Z * list app_pc :=
  (last_call_idx st, last_calls st).

(** One more entry in the instruction ring, or none. *)
Definition insn_ring_appended (pc : app_pc) (st st' : tracer) : Prop :=
  last_insns st' = <[Z.to_nat (last_insn_idx st) := pc]> (last_insns st)
  ∧ last_insn_idx st' = Z.rem (last_insn_idx st + 1) LAST_COUNT.

Definition insn_ring_unchanged (st st' : tracer) : Prop :=
  last_insns st' = last_insns st ∧ last_insn_idx st' = last_insn_idx st.

(** The same for the call ring. *)
Definition call_ring_appended (addr : app_pc) (st st' : tracer) : Prop :=
  last_calls st' = <[Z.to_nat (last_call_idx st) := addr]> (last_calls st)
  ∧ last_call_idx st' = Z.rem (last_call_idx st + 1) LAST_COUNT.

Definition call_ring_unchanged (st st' : tracer) : Prop :=
  last_calls st' = last_calls st ∧ last_call_idx st' = last_call_idx st.

(** A ring whose slots hold the null default or an address strictly between
    the two bounds. *)
Definition ring_within (lo hi : app_pc) (ring : list app_pc) : Prop :=
  Forall (λ a, a = 0 ∨ lo < a < hi) ring.

(** A run of the instrumented program, seen from the tracer: one call of
    [propagate_taint] per executed instruction, each with the host as it is
    at that instruction. *)
Definition propagate_run (calls : list (host * app_pc)) (st : tracer) : tracer :=
  foldl (λ st c, propagate_taint c.1 c.2 st) st calls.

(** *** Extents *)

(** The extent after [e1] starts beyond the end of [e1], with a gap. *)
Definition extent_before (e1 e2 : Z * Z) : Prop := e1.1 + e1.2 < e2.1.

Definition in_extent (a : Z) (e : Z * Z) : Prop := e.1 ≤ a < e.1 + e.2.

(** [extents] is the run-length coalescing of [mems] in ascending address
    order: no extent is empty, the extents ascend with a gap between any two
    (so they are disjoint and none continues another), their union is
    [mems], and an extent starts exactly at the addresses of [mems] whose
    predecessor is not in [mems]. *)
Definition run_length_coalescing (mems : gset app_pc) (extents : list (Z * Z)) : Prop :=
  Forall (λ e, 0 < e.2) extents
  ∧ StronglySorted extent_before extents
  ∧ (∀ a, a ∈ mems ↔ ∃ e, e ∈ extents ∧ in_extent a e)
  ∧ (∀ a, (∃ n, (a, n) ∈ extents) ↔ a ∈ mems ∧ a - 1 ∉ mems).

(** The coalescing loop as a recursion over the addresses still to come:
    [start] and [size] are the extent being grown. *)
Fixpoint runs (start size : Z) (rest : list Z) : list (Z * Z) :=
  match rest with
  | [] => [(start, size)]
  | curr :: rest =>
    if bool_decide (curr > start + size)
    then (start, size) :: runs curr 1 rest
    else runs start (size + 1) rest
  end.

(** *** The scoring matrix of the specification *)

Module ScoringMatrix.

(** What step 3 of the triage sequence computes. *)
Record facts : Type := {
  bad_address : bool;      (* the faulting address is not readable *)
  code : Z;                (* the exception code *)
  instruction : string;
  pc_tainted : bool;
  stack_tainted : bool;
  is_ret : bool;
  is_direct : bool;
  is_indirect : bool;
  is_call : bool;
  mem_write : bool;
  mem_read : bool;
  tainted_src : bool;
  tainted_dst : bool
}.

Definition step3 (h : host) (st : tracer) (excpt : dr_exception_t) : facts :=
  let instr := decode h (ExceptionAddress excpt) in
  {| bad_address := IsBadReadPtr h (ExceptionAddress excpt);
     code := ExceptionCode excpt;
     instruction := instr_disassemble_to_buffer h instr;
     pc_tainted := bool_decide (DR_REG_NULL ∈ tainted_regs st);
     stack_tainted := bool_decide (DR_REG_RSP ∈ tainted_regs st);
     is_ret := instr_is_return instr;
     is_direct := instr_is_ubr instr || instr_is_cbr instr || instr_is_call_direct instr;
     is_indirect := instr_is_mbr instr;
     is_call := instr_is_call instr;
     mem_write := instr_writes_memory instr;
     mem_read := instr_reads_memory instr;
     tainted_src := existsb (is_tainted h st) (instr_srcs instr);
     tainted_dst := existsb (is_tainted h st) (instr_dsts instr) |}.

(** The rows of the table of section 4.7, in its order. *)
Inductive row : Set :=
| oob_execution_tainted_pc | oob_execution
| illegal_instruction_tainted_pc | illegal_instruction
| divide_by_zero | breakpoint
| branching_tainted_pc | branching
| return_with_taint | return_
| tainted_write | write
| tainted_read | read
| unknown.

Definition rows : list row :=
  [oob_execution_tainted_pc; oob_execution;
   illegal_instruction_tainted_pc; illegal_instruction;
   divide_by_zero; breakpoint;
   branching_tainted_pc; branching;
   return_with_taint; return_;
   tainted_write; write;
   tainted_read; read;
   unknown].

Definition condition (r : row) (f : facts) : bool :=
  match r with
  | oob_execution_tainted_pc => bad_address f && pc_tainted f
  | oob_execution => bad_address f
  | illegal_instruction_tainted_pc =>
    bool_decide (code f = EXCEPTION_ILLEGAL_INSTRUCTION) && pc_tainted f
  | illegal_instruction => bool_decide (code f = EXCEPTION_ILLEGAL_INSTRUCTION)
  | divide_by_zero => bool_decide (code f = EXCEPTION_INT_DIVIDE_BY_ZERO)
  | breakpoint => bool_decide (code f = EXCEPTION_BREAKPOINT)
  | branching_tainted_pc => (is_direct f || is_indirect f || is_call f) && pc_tainted f
  | branching => is_direct f || is_indirect f || is_call f
  | return_with_taint => is_ret f && (pc_tainted f || stack_tainted f)
  | return_ => is_ret f
  | tainted_write => mem_write f && (tainted_src f || tainted_dst f)
  | write => mem_write f
  | tainted_read => mem_read f && tainted_src f
  | read => mem_read f
  | unknown => true
  end.

Definition reason (r : row) : string :=
  match r with
  | oob_execution_tainted_pc => "oob execution tainted pc"
  | oob_execution => "oob execution"
  | illegal_instruction_tainted_pc => "illegal instruction tainted pc"
  | illegal_instruction => "illegal instruction"
  | divide_by_zero => "divide by zero"
  | breakpoint => "breakpoint"
  | branching_tainted_pc => "branching tainted pc"
  | branching => "branching"
  | return_with_taint => "return with taint"
  | return_ => "return"
  | tainted_write => "tainted write"
  | write => "write"
  | tainted_read => "tainted read"
  | read => "read"
  | unknown => "unknown"
  end.

Definition score (r : row) : Z :=
  match r with
  | oob_execution_tainted_pc => 100
  | oob_execution => 50
  | illegal_instruction_tainted_pc => 100
  | illegal_instruction => 50
  | divide_by_zero => 50
  | breakpoint => 25
  | branching_tainted_pc => 75
  | branching => 25
  | return_with_taint => 100
  | return_ => 75
  | tainted_write => 75
  | write => 50
  | tainted_read => 75
  | read => 25
  | unknown => 50
  end.

(** First matching row wins. *)
Definition first_match (f : facts) : option row :=
  List.find (λ r, condition r f) rows.

(** The report fields that step 3 determines, as the claim reads them off
    the facts. *)
Definition fields_of_step3 (f : facts) (j : crash_json) : Prop :=
  j_instruction j = instruction f
  ∧ j_is_ret j = is_ret f ∧ j_is_direct j = is_direct f
  ∧ j_is_indirect j = is_indirect f ∧ j_is_call j = is_call f
  ∧ j_mem_write j = mem_write f ∧ j_mem_read j = mem_read f
  ∧ j_tainted_src j = tainted_src f ∧ j_tainted_dst j = tainted_dst f.

(** The facts as the handler passes them on for a row: nothing of the
    instruction for the two oob rows, the disassembly alone for the two
    illegal-instruction rows, no operand survey for the rows up to the
    return rows, and all of step 3 from the write rows on. *)
Definition passed_on (r : row) (f : facts) : facts :=
  let cleared (text : string) :=
    {| bad_address := bad_address f; code := code f; instruction := text;
       pc_tainted := pc_tainted f; stack_tainted := stack_tainted f;
       is_ret := false; is_direct := false; is_indirect := false; is_call := false;
       mem_write := false; mem_read := false;
       tainted_src := false; tainted_dst := false |} in
  match r with
  | oob_execution_tainted_pc | oob_execution => cleared ""%string
  | illegal_instruction_tainted_pc | illegal_instruction => cleared (instruction f)
  | divide_by_zero | breakpoint | branching_tainted_pc | branching
  | return_with_taint | return_ =>
    {| bad_address := bad_address f; code := code f; instruction := instruction f;
       pc_tainted := pc_tainted f; stack_tainted := stack_tainted f;
       is_ret := is_ret f; is_direct := is_direct f; is_indirect := is_indirect f;
       is_call := is_call f; mem_write := mem_write f; mem_read := mem_read f;
       tainted_src := false; tainted_dst := false |}
  | tainted_write | write | tainted_read | read | unknown => f
  end.

End ScoringMatrix.

(** The report [dump_crash] builds when it is called for the row [r] with
    the facts [f]. *)
Definition report_of (h : host) (st : tracer) (excpt : dr_exception_t)
    (r : ScoringMatrix.row) (f : ScoringMatrix.facts) : crash_json :=
  dump_json h st (ScoringMatrix.score r) (ScoringMatrix.reason r) excpt
            (ScoringMatrix.instruction f)
            (ScoringMatrix.pc_tainted f) (ScoringMatrix.stack_tainted f)
            (ScoringMatrix.is_ret f) (ScoringMatrix.is_indirect f)
            (ScoringMatrix.is_direct f) (ScoringMatrix.is_call f)
            (ScoringMatrix.mem_write f) (ScoringMatrix.mem_read f)
            (ScoringMatrix.tainted_src f) (ScoringMatrix.tainted_dst f).

(** What [dump_crash] does after it has built the report [j], by the mode
    of the run and the results the host gives: the calls it makes, and how
    it ends the process. *)
Definition dump_crash_io (h : host) (is_replay : bool) (j : crash_json)
    : list event * termination :=
  if is_replay
  then
    if CreateFile_crash_path h
    then
      if WriteFile_crash_json h
      then
        ([EvRequestCrashPaths; EvCreateFile crash_path true; EvWriteFile j true;
          EvCloseHandle crash_path;
          EvCreateFile mem_dump_path (CreateFile_mem_dump_path h);
          EvMiniDumpWriteDump (CreateFile_mem_dump_path h)
                              (CreateFile_mem_dump_path h && MiniDumpWriteDump_result h);
          EvCloseHandle mem_dump_path],
         ExitProcess 1)
      else
        ([EvRequestCrashPaths; EvCreateFile crash_path true; EvWriteFile j false], Aborted)
    else ([EvRequestCrashPaths; EvCreateFile crash_path false], Aborted)
  else ([], ExitProcess 1).

(** *** Reading a trace *)

Definition is_dump_crash (e : event) : bool :=
  match e with EvDumpCrash _ => true | _ => false end.

(** A JSON record is produced by a write of the crash file that succeeds, a
    minidump by a dump that succeeds. *)
Definition is_json_record (e : event) : bool :=
  match e with EvWriteFile _ true => true | _ => false end.

Definition is_minidump (e : event) : bool :=
  match e with EvMiniDumpWriteDump _ true => true | _ => false end.

Definition is_replay_rpc (e : event) : bool :=
  match e with EvRequestReplay _ _ _ => true | _ => false end.

Definition is_mutex_event (e : event) : bool :=
  match e with EvMutexLock | EvMutexUnlock => true | _ => false end.

(** The calls of the [cleanup:] label: the hash of the record is freed when
    there is one, then the record. *)
Definition free_events (info : client_read_info) : list event :=
  (if argHash info then [EvThreadFreeArgHash] else []) ++ [EvThreadFreeInfo info].

Definition count_events (p : event → bool) (tr : list event) : nat :=
  length (filter (λ e, p e = true) tr).

(** *** Concrete hosts and instructions *)

Definition example_instr (opcode : opcode_t) (srcs dsts : list opnd_t) : instr_t :=
  {| instr_get_opcode := opcode; instr_srcs := srcs; instr_dsts := dsts;
     instr_get_target := OPND_NULL;
     instr_is_return := false; instr_is_ubr := false; instr_is_cbr := false;
     instr_is_call_direct := false; instr_is_mbr := false; instr_is_call := false;
     instr_writes_memory := false; instr_reads_memory := false |}.

(** An indirect call through the memory operand [target]. *)
Definition example_call (target : opnd_t) : instr_t :=
  {| instr_get_opcode := OP_other 0; instr_srcs := [target; OPND_REG DR_REG_RSP];
     instr_dsts := [OPND_REG DR_REG_RSP; OPND_BASE_DISP DR_REG_RSP DR_REG_NULL 0 (-8) 8];
     instr_get_target := target;
     instr_is_return := false; instr_is_ubr := false; instr_is_cbr := false;
     instr_is_call_direct := false; instr_is_mbr := true; instr_is_call := true;
     instr_writes_memory := true; instr_reads_memory := true |}.

(** A host that decodes every address to [instr], computes the address of a
    memory operand from the register values [regvals], reads a non-zero
    [int] as a register [DR_REG_OTHER], answers [IsBadReadPtr] by [bad], and
    whose file operations and policy give the results listed. *)
Definition example_host (instr : instr_t) (regvals : reg_id_t → Z)
    (bad : app_pc → bool) (open_crash write_crash open_dump write_dump : bool)
    (sane targeted : bool) : host :=
  {| decode := λ _, instr;
     instr_disassemble_to_buffer := λ _, "insn"%string;
     dr_get_mcontext := {| mc_reg := regvals |};
     opnd_compute_address := λ opnd mc,
       match opnd with
       | OPND_BASE_DISP base index scale disp _ =>
         (mc_reg mc base + mc_reg mc index * scale + disp) mod ptr_modulus
       | OPND_ABS_ADDR addr _ => addr
       | _ => 0
       end;
     reg_id_of_int := λ n, if bool_decide (n = 0) then DR_REG_NULL else DR_REG_OTHER (Z.to_N n);
     IsBadReadPtr := bad;
     exception_to_string := λ _, "EXCEPTION"%string;
     get_register_name := λ _, "reg"%string;
     reg_get_value := λ r mc, mc_reg mc r;
     CreateFile_crash_path := open_crash;
     WriteFile_crash_json := write_crash;
     CreateFile_mem_dump_path := open_dump;
     MiniDumpWriteDump_result := write_dump;
     is_sane_post_hook := λ _, sane;
     is_function_targeted := λ _, targeted |}.

Definition example_tracer (is_replay is_no_mutate : bool)
    (regs : gset reg_id_t) (mems : gset app_pc) (start stop : app_pc) : tracer :=
  {| replay := is_replay; no_mutate := is_no_mutate; crashed := false; mutate_count := 0;
     tainted_regs := regs; tainted_mems := mems;
     last_call_idx := 0; last_insn_idx := 0;
     last_calls := replicate (Z.to_nat LAST_COUNT) 0;
     last_insns := replicate (Z.to_nat LAST_COUNT) 0;
     module_start := start; module_end := stop |}.

Definition example_world (st : tracer) : world := {| globals := st; trace := [] |}.

(** ** More of the tracer *)

(** [reg_to_full_width32]: the 32-bit counterpart of [reg_to_full_width64];
    the source keeps it although the tracer runs on 64-bit applications. *)
Definition reg_to_full_width32 (reg : reg_id_t) : reg_id_t :=
  match reg with
  | DR_REG_AX | DR_REG_AH | DR_REG_AL => DR_REG_EAX
  | DR_REG_BX | DR_REG_BH | DR_REG_BL => DR_REG_EBX
  | DR_REG_CX | DR_REG_CH | DR_REG_CL => DR_REG_ECX
  | DR_REG_DX | DR_REG_DH | DR_REG_DL => DR_REG_EDX
  | DR_REG_SP => DR_REG_ESP
  | DR_REG_BP => DR_REG_EBP
  | DR_REG_SI => DR_REG_ESI
  | DR_REG_DI => DR_REG_EDI
  | _ => reg
  end.

(** What the platform tells [wrap_post_MapViewOfFile] after the call: the
    address of the view ([drwrap_get_retval]), the size of its region
    ([dr_virtual_query]) and whether the name of the mapped file could be
    resolved ([GetMappedFileName]). *)
Record mapped_view : Type := {
  drwrap_get_retval : app_pc;
  RegionSize : Z;
  GetMappedFileName : bool
}.

(** The [cleanup:] label of [wrap_post_MapViewOfFile], reached with [info]
    initialised; it frees the hash without a test. *)
Definition cleanup_MapViewOfFile (info : client_read_info) : proc unit :=
  emit EvThreadFreeArgHash;;
  emit (EvThreadFreeInfo info).

(** [wrap_post_MapViewOfFile]: replays the mutation and marks the bytes as
    tainted; the buffer is the value the call returned, and a length of zero
    stands for the whole region.  [client.hash_args] rewrites the hash
    behind [argHash] in place, which the record here does not show:
    [is_function_targeted] is the answer of the policy for the record as it
    is after that.  A hook that is not sane jumps to [cleanup:] over the
    initialisation of [info], as in [wrap_post_Generic]. *)
Definition wrap_post_MapViewOfFile (h : host) (view : mapped_view)
    (info : client_read_info) : proc unit :=
  if negb (is_sane_post_hook h info)
  then cleanup_uninitialized
  else
    let info := {| lpBuffer := drwrap_get_retval view;
                   nNumberOfBytesToRead := nNumberOfBytesToRead info;
                   argHash := argHash info; function := function info |} in
    let info :=
      if bool_decide (nNumberOfBytesToRead info = 0)
      then {| lpBuffer := lpBuffer info; nNumberOfBytesToRead := RegionSize view;
              argHash := argHash info; function := function info |}
      else info in
    let interesting_call := if negb (GetMappedFileName view) then false else true in
    let targeted := is_function_targeted h info in
    emit (EvIncrementCallCount (function info));;
    when targeted
      (modify_globals (taint_mem (lpBuffer info) (nNumberOfBytesToRead info)));;
    st ← get_globals;
    when (interesting_call && replay st && targeted) (
      emit EvMutexLock;;
      (if no_mutate st
       then mret ()
       else emit (EvRequestReplay (mutate_count st) (nNumberOfBytesToRead info)
                                  (lpBuffer info)));;
      modify_globals (λ st, set_mutate_count (uint32 (mutate_count st + 1)) st);;
      emit EvMutexUnlock);;
    cleanup_MapViewOfFile info.

(** The record as [wrap_post_MapViewOfFile] has it after it filled in the
    buffer and, for a length of zero, the size of the region. *)
Definition mapped_info (view : mapped_view) (info : client_read_info) : client_read_info :=
  {| lpBuffer := drwrap_get_retval view;
     nNumberOfBytesToRead :=
       if bool_decide (nNumberOfBytesToRead info = 0) then RegionSize view
       else nNumberOfBytesToRead info;
     argHash := argHash info; function := function info |}.

(** A target of the configuration, as [on_module_load] reads it. *)
Record targetFunction : Type := {
  selected : bool;
  functionName : string
}.

(** The loop of [on_module_load] that decides whether the entry point
    [function_name] gets hooked: [hook] starts out false and every target of
    the configuration may set or reset it. *)
Definition hook_decision (function_name : string) (parsedJson : list targetFunction) : bool :=
  foldl (λ hook t,
           if selected t && bool_decide (functionName t = function_name)
           then true
           else if selected t
                   && (bool_decide (function_name = "RegQueryValueExW"%string)
                       || bool_decide (function_name = "RegQueryValueExA"%string))
           then if negb (bool_decide (functionName t = "RegQueryValueEx"%string))
                then false
                else hook
           else hook)
        false parsedJson.

(** *** Notions for the statements about them *)

(** The part of [propagate_taint] after the two trace rings: the specific
    handlers, then the generic rule. *)
Definition propagate_tail (h : host) (instr : instr_t) (st : tracer) : tracer :=
  let '(handled, st) := handle_specific h instr st in
  if handled then st
  else
    let tainted := existsb (is_tainted h st) (instr_srcs instr) in
    if tainted
    then foldl (λ st opnd, taint h opnd st) st (instr_dsts instr)
    else foldl (λ st opnd, snd (untaint h opnd st)) st (instr_dsts instr).

(** The bytes [addr], ..., [addr + size - 1] of a memory operand. *)
Definition byte_range (addr : app_pc) (size : Z) : gset app_pc :=
  list_to_set (ptr_add addr <$> seqZ 0 size).

(** The canonical registers and the bytes among a list of operands. *)
Definition opnd_regs (opnds : list opnd_t) : gset reg_id_t :=
  list_to_set (omap (λ opnd, match opnd with
                             | OPND_REG reg => Some (reg_to_full_width64 reg)
                             | _ => None
                             end) opnds).

Definition opnd_bytes (h : host) (opnds : list opnd_t) : gset app_pc :=
  ⋃ ((λ opnd, if opnd_is_memory_reference opnd
              then byte_range (opnd_compute_address h opnd (dr_get_mcontext h))
                              (opnd_size_in_bytes opnd)
              else ∅) <$> opnds).

(** The operands [taint] acts on: a register, or a memory reference of at
    least one byte. *)
Definition opnd_is_reg_or_bytes (opnd : opnd_t) : bool :=
  match opnd with
  | OPND_REG _ => true
  | OPND_BASE_DISP _ _ _ _ size | OPND_ABS_ADDR _ size => bool_decide (0 < size)
  | _ => false
  end.

(** Some source operand is a register other than the stack pointer whose
    full width is tainted: what the loop of [handle_branches] for indirect
    branches looks for. *)
Definition reg_src_tainted (st : tracer) (srcs : list opnd_t) : bool :=
  existsb (λ opnd, match opnd with
                   | OPND_REG reg =>
                     bool_decide (reg_to_full_width64 reg ≠ DR_REG_RSP)
                     && bool_decide (reg_to_full_width64 reg ∈ tainted_regs st)
                   | _ => false
                   end) srcs.

(** An instruction that is none of the branch family. *)
Definition not_branch (instr : instr_t) : Prop :=
  instr_is_return instr = false ∧ instr_is_ubr instr = false
  ∧ instr_is_cbr instr = false ∧ instr_is_call_direct instr = false
  ∧ instr_is_mbr instr = false ∧ instr_is_call instr = false.

(** Both indices are inside their arrays, and the arrays have their length. *)
Definition rings_in_bounds (st : tracer) : Prop :=
  0 ≤ last_insn_idx st < LAST_COUNT ∧ 0 ≤ last_call_idx st < LAST_COUNT
  ∧ length (last_insns st) = Z.to_nat LAST_COUNT
  ∧ length (last_calls st) = Z.to_nat LAST_COUNT.

(** The callbacks that change the globals while the target runs: the clean
    call before each instruction and the two post-hooks.  A run of the
    target is a list of them, each with the host as it is at that point. *)
Inductive callback : Type :=
| CbPropagate (h : host) (pc : app_pc)
| CbPostGeneric (h : host) (info : client_read_info)
| CbPostMapViewOfFile (h : host) (view : mapped_view) (info : client_read_info).

(** The world as a piece of code leaves it, whether it returns or not; for
    an outcome that is not defined, the world up to that point. *)
Definition world_of {A} (o : outcome A) : world :=
  match o with
  | Returns _ w => w
  | Terminates _ w => w
  end.

Definition callback_step (w : world) (c : callback) : world :=
  match c with
  | CbPropagate h pc =>
    {| globals := propagate_taint h pc (globals w); trace := trace w |}
  | CbPostGeneric h info => world_of (wrap_post_Generic h info w)
  | CbPostMapViewOfFile h view info => world_of (wrap_post_MapViewOfFile h view info w)
  end.

Definition callbacks_run (cs : list callback) (w : world) : world :=
  foldl callback_step w cs.

(** The interceptions of a run that count for the replay: the post-hooks
    that are sane and targeted (and, for a mapped view, whose file name was
    resolved). *)
Definition counts_for_replay (c : callback) : bool :=
  match c with
  | CbPropagate _ _ => false
  | CbPostGeneric h info => is_sane_post_hook h info && is_function_targeted h info
  | CbPostMapViewOfFile h view info =>
    is_sane_post_hook h info && GetMappedFileName view
    && is_function_targeted h (mapped_info view info)
  end.

(** [is_direct] of [handle_branches]. *)
Definition direct_branch (instr : instr_t) : bool :=
  instr_is_ubr instr || instr_is_cbr instr || instr_is_call_direct instr.

(** An instruction [handle_branches] deals with. *)
Definition branch_family (instr : instr_t) : bool :=
  instr_is_return instr || direct_branch instr || instr_is_mbr instr || instr_is_call instr.

(** The destination the loop of [handle_branches] for calls stops at: the
    first one that is a memory reference, where the call saves the return
    address. *)
Definition saved_return_address (instr : instr_t) : list opnd_t :=
  match List.find opnd_is_memory_reference (instr_dsts instr) with
  | Some opnd => [opnd]
  | None => []
  end.

(** A direct jump, an indirect jump through the register [reg], and a
    return, as DynamoRIO classifies them. *)
Definition example_jmp : instr_t :=
  {| instr_get_opcode := OP_other 1; instr_srcs := [OPND_PC 4200]; instr_dsts := [];
     instr_get_target := OPND_PC 4200;
     instr_is_return := false; instr_is_ubr := true; instr_is_cbr := false;
     instr_is_call_direct := false; instr_is_mbr := false; instr_is_call := false;
     instr_writes_memory := false; instr_reads_memory := false |}.

Definition example_jmp_reg (reg : reg_id_t) : instr_t :=
  {| instr_get_opcode := OP_other 2; instr_srcs := [OPND_REG reg]; instr_dsts := [];
     instr_get_target := OPND_REG reg;
     instr_is_return := false; instr_is_ubr := false; instr_is_cbr := false;
     instr_is_call_direct := false; instr_is_mbr := true; instr_is_call := false;
     instr_writes_memory := false; instr_reads_memory := false |}.

Definition example_ret : instr_t :=
  {| instr_get_opcode := OP_other 3;
     instr_srcs := [OPND_REG DR_REG_RSP; OPND_BASE_DISP DR_REG_RSP DR_REG_NULL 0 0 8];
     instr_dsts := [OPND_REG DR_REG_RSP];
     instr_get_target := OPND_NULL;
     instr_is_return := true; instr_is_ubr := false; instr_is_cbr := false;
     instr_is_call_direct := false; instr_is_mbr := true; instr_is_call := false;
     instr_writes_memory := false; instr_reads_memory := true |}.

(** * Properties *)

(** ** The shadow-state operations leave the other globals alone *)

Lemma foldl_preserves {A B C : Type} (view : A → C) (f : A → B → A) (l : list B) (a : A) :
  (∀ a b, view (f a b) = view a) → view (foldl f a l) = view a.
Proof.
  intros Hf. revert a.
  induction l as [|b l IH]; intros a; simpl; [done|].
  by rewrite IH, Hf.
Qed.

Lemma frame_taint_mem addr size st : frame (taint_mem addr size st) = frame st.
Proof. unfold taint_mem. by apply foldl_preserves. Qed.

Lemma frame_untaint_mem addr size st : frame (untaint_mem addr size st).2 = frame st.
Proof.
  unfold untaint_mem.
  apply (foldl_preserves (λ p : bool * tracer, frame p.2)).
  by intros [u s] i.
Qed.

Lemma frame_taint h opnd st : frame (taint h opnd st) = frame st.
Proof. destruct opnd; simpl; try done; apply frame_taint_mem. Qed.

Lemma frame_untaint h opnd st : frame (untaint h opnd st).2 = frame st.
Proof. destruct opnd; simpl; try done; apply frame_untaint_mem. Qed.

Lemma frame_handle_xor instr st : frame (handle_xor instr st).2 = frame st.
Proof.
  unfold handle_xor.
  destruct (instr_srcs instr) as [|[] [|[] []]]; simpl; try done.
  by case_bool_decide.
Qed.

Lemma frame_handle_xchg instr st : frame (handle_xchg instr st).2 = frame st.
Proof.
  unfold handle_xchg.
  destruct (instr_srcs instr) as [|[] [|[] []]]; simpl; try done.
  repeat case_bool_decide; simpl; done.
Qed.

Lemma frame_handle_push_pop h instr st : frame (handle_push_pop h instr st) = frame st.
Proof.
  unfold handle_push_pop.
  destruct (existsb _ _); apply foldl_preserves; intros a b;
    destruct (is_rsp_opnd b); auto using frame_taint, frame_untaint.
Qed.

Lemma frame_set_tainted_regs f st : frame (set_tainted_regs f st) = frame st.
Proof. done. Qed.

Ltac frame_steps h :=
  repeat match goal with
  | |- frame ?st = frame ?st => reflexivity
  | |- frame (if ?c then _ else _) = _ => destruct c
  | |- frame (match ?x with Some _ => _ | None => _ end) = _ => destruct x
  | |- frame (set_tainted_regs _ _) = _ => etrans; [apply frame_set_tainted_regs|]
  | |- frame (taint _ _ _) = _ => etrans; [apply frame_taint|]
  | |- frame (handle_push_pop _ _ _) = _ => etrans; [apply frame_handle_push_pop|]
  | |- frame (foldl _ _ _) = _ =>
    etrans; [apply foldl_preserves; intros ? []; simpl; try done;
             repeat case_bool_decide; done|]
  end.

Lemma frame_handle_branches h instr st : frame (handle_branches h instr st).2 = frame st.
Proof.
  unfold handle_branches.
  destruct (negb (instr_is_return instr) && _ && _ && _); [done|].
  cbv zeta. simpl snd. frame_steps h.
Qed.

Lemma frame_handle_specific h instr st : frame (handle_specific h instr st).2 = frame st.
Proof.
  unfold handle_specific.
  pose proof (frame_handle_branches h instr st) as Hb.
  destruct (handle_branches h instr st) as [[] st']; simpl in *; [done|].
  destruct (instr_get_opcode instr); simpl; try done.
  - by rewrite frame_handle_push_pop.
  - by rewrite frame_handle_push_pop.
  - by rewrite frame_handle_xor.
  - by rewrite frame_handle_xchg.
Qed.

(** ** The trace rings *)

Lemma insn_view_of_frame st st' : frame st = frame st' → insn_view st = insn_view st'.
Proof. unfold frame, insn_view. intros [=]. congruence. Qed.

Lemma call_view_of_frame st st' : frame st = frame st' → call_view st = call_view st'.
Proof. unfold frame, call_view. intros [=]. congruence. Qed.

(** The generic rule and the specific handlers, everything of
    [propagate_taint] after the call ring, keep the rings. *)
Lemma frame_propagate_tail h instr st :
  frame (let '(handled, st) := handle_specific h instr st in
         if handled then st
         else
           let tainted := existsb (is_tainted h st) (instr_srcs instr) in
           if tainted
           then foldl (λ st opnd, taint h opnd st) st (instr_dsts instr)
           else foldl (λ st opnd, snd (untaint h opnd st)) st (instr_dsts instr))
  = frame st.
Proof.
  pose proof (frame_handle_specific h instr st) as Hs.
  destruct (handle_specific h instr st) as [[] st']; simpl in *; [done|].
  rewrite <- Hs.
  destruct (existsb _ _); apply foldl_preserves; auto using frame_taint, frame_untaint.
Qed.

Lemma in_module_spec st pc :
  in_module st pc = bool_decide (module_start st < pc < module_end st).
Proof.
  unfold in_module. repeat case_bool_decide; simpl; try done; lia.
Qed.

Lemma propagate_taint_insn_view h pc st :
  insn_view (propagate_taint h pc st)
  = insn_view (if in_module st pc
               then set_last_insns (Z.rem (last_insn_idx st + 1) LAST_COUNT)
                                   (<[Z.to_nat (last_insn_idx st) := pc]> (last_insns st)) st
               else st).
Proof.
  unfold propagate_taint, ring_store. cbv zeta.
  set (st1 := if in_module st pc then _ else st).
  destruct (_ && _); [done|].
  match goal with |- insn_view (let '(_, _) := handle_specific h ?i ?s in _) = _ =>
    pose proof (frame_propagate_tail h i s) as Ht; cbv zeta in Ht;
    rewrite (insn_view_of_frame _ _ Ht) end.
  repeat match goal with |- insn_view (if ?c then _ else _) = _ => destruct c end; done.
Qed.

Lemma ring_within_insert lo hi ring i pc :
  lo < pc < hi → ring_within lo hi ring → ring_within lo hi (<[i := pc]> ring).
Proof. intros Hpc Hr. apply Forall_insert; auto. Qed.

Lemma propagate_taint_ring_within h pc st :
  ring_within (module_start st) (module_end st) (last_insns st) →
  ring_within (module_start st) (module_end st) (last_insns (propagate_taint h pc st))
  ∧ module_start (propagate_taint h pc st) = module_start st
  ∧ module_end (propagate_taint h pc st) = module_end st.
Proof.
  intros Hr.
  pose proof (propagate_taint_insn_view h pc st) as Hv.
  rewrite in_module_spec in Hv. unfold insn_view in Hv.
  case_bool_decide; simpl in Hv; injection Hv as _ -> -> ->; auto.
  split; [|done]. by apply ring_within_insert.
Qed.

Lemma propagate_run_ring_within calls st :
  ring_within (module_start st) (module_end st) (last_insns st) →
  ring_within (module_start st) (module_end st) (last_insns (propagate_run calls st)).
Proof.
  unfold propagate_run. revert st.
  induction calls as [|[h pc] calls IH]; intros st Hr; simpl; [done|].
  destruct (propagate_taint_ring_within h pc st Hr) as (Hr' & Hs & He).
  rewrite <- Hs, <- He in *. by apply IH.
Qed.

(** C7, as the code has it: [propagate_taint] appends [pc] to the
    instruction ring exactly when [pc] lies strictly between [module_start]
    and [module_end] (the bound [module_start] itself is not admitted), and
    otherwise leaves the ring as it is; so a ring that holds only null slots
    and addresses strictly inside the module keeps doing so over every run. *)
Theorem propagate_taint_insn_ring (h : host) (pc : app_pc) (st : tracer) :
  (module_start st < pc < module_end st →
   insn_ring_appended pc st (propagate_taint h pc st))
  ∧ (¬ (module_start st < pc < module_end st) →
     insn_ring_unchanged st (propagate_taint h pc st))
  ∧ (∀ calls,
       ring_within (module_start st) (module_end st) (last_insns st) →
       ring_within (module_start st) (module_end st) (last_insns (propagate_run calls st))).
Proof.
  pose proof (propagate_taint_insn_view h pc st) as Hv.
  rewrite in_module_spec in Hv. unfold insn_view in Hv.
  split; [|split].
  - intros Hpc. rewrite bool_decide_eq_true_2 in Hv by done.
    simpl in Hv. injection Hv as Hi Hr _ _. by split.
  - intros Hpc. rewrite bool_decide_eq_false_2 in Hv by done.
    injection Hv as Hi Hr _ _. by split.
  - intros calls. apply propagate_run_ring_within.
Qed.

Lemma propagate_taint_insn_ring_witness :
  let h := example_host (example_instr (OP_other 0) [] []) (λ _, 0) (λ _, false)
                        true true true true true true in
  let st := example_tracer false false ∅ ∅ 4096 8192 in
  insn_ring_appended 4097 st (propagate_taint h 4097 st)
  ∧ insn_ring_unchanged st (propagate_taint h 4096 st)
  ∧ last_insns (propagate_run [(h, 4096); (h, 4097); (h, 8192); (h, 8191)] st)
    = [4097; 8191; 0; 0; 0]
  ∧ ring_within 4096 8192
      (last_insns (propagate_run [(h, 4096); (h, 4097); (h, 8192); (h, 8191)] st)).
Proof.
  intros h st.
  split; [|split; [|split]].
  - apply (propagate_taint_insn_ring h 4097 st). simpl. lia.
  - apply (propagate_taint_insn_ring h 4096 st). simpl. lia.
  - reflexivity.
  - apply (propagate_taint_insn_ring h 4096 st).
    repeat constructor; left; reflexivity.
Defined.

(** C7, as the claim states it, fails at the lower bound: with the module
    at [4096, 8192), [propagate_taint] called at [pc = 4096] does not append
    to the instruction ring although [pc] lies in the half-open interval. *)
Lemma propagate_taint_module_start_not_appended :
  let h := example_host (example_instr (OP_other 0) [] []) (λ _, 0) (λ _, false)
                        true true true true true true in
  let st := example_tracer false false ∅ ∅ 4096 8192 in
  let pc := 4096 in
  module_start st ≤ pc < module_end st
  ∧ ¬ insn_ring_appended pc st (propagate_taint h pc st).
Proof.
  intros h st pc. split; [simpl; lia|].
  intros [Hring _]. vm_compute in Hring. discriminate Hring.
Qed.

Lemma propagate_taint_call_view h pc st :
  call_view (propagate_taint h pc st)
  = call_view
      (if negb (bool_decide (size (tainted_mems st) = 0%nat)
                && bool_decide (size (tainted_regs st) = 0%nat))
          && instr_is_call (decode h pc)
          && opnd_is_memory_reference (instr_get_target (decode h pc))
          && in_module st pc
       then set_last_calls
              (Z.rem (last_call_idx st + 1) LAST_COUNT)
              (<[Z.to_nat (last_call_idx st) :=
                   opnd_compute_address h (instr_get_target (decode h pc)) (dr_get_mcontext h)]>
                 (last_calls st)) st
       else st).
Proof.
  unfold propagate_taint, ring_store. cbv zeta.
  assert (∀ st1 : tracer,
             call_view st1 = call_view st → tainted_mems st1 = tainted_mems st →
             tainted_regs st1 = tainted_regs st → in_module st1 pc = in_module st pc →
             call_view
               (if bool_decide (size (tainted_mems st1) = 0%nat)
                   && bool_decide (size (tainted_regs st1) = 0%nat)
                then st1
                else
                  let '(handled, st2) :=
                    handle_specific h (decode h pc)
                      (if instr_is_call (decode h pc)
                       then
                         if opnd_is_memory_reference (instr_get_target (decode h pc))
                         then
                           if in_module st1 pc
                           then set_last_calls
                                  (Z.rem (last_call_idx st1 + 1) LAST_COUNT)
                                  (<[Z.to_nat (last_call_idx st1) :=
                                       opnd_compute_address h (instr_get_target (decode h pc))
                                                            (dr_get_mcontext h)]>
                                     (last_calls st1)) st1
                           else st1
                         else st1
                       else st1) in
                  if handled then st2
                  else
                    if existsb (is_tainted h st2) (instr_srcs (decode h pc))
                    then foldl (λ st opnd, taint h opnd st) st2 (instr_dsts (decode h pc))
                    else foldl (λ st opnd, snd (untaint h opnd st)) st2
                               (instr_dsts (decode h pc)))
             = call_view
                 (if negb (bool_decide (size (tainted_mems st) = 0%nat)
                           && bool_decide (size (tainted_regs st) = 0%nat))
                     && instr_is_call (decode h pc)
                     && opnd_is_memory_reference (instr_get_target (decode h pc))
                     && in_module st pc
                  then set_last_calls
                         (Z.rem (last_call_idx st + 1) LAST_COUNT)
                         (<[Z.to_nat (last_call_idx st) :=
                              opnd_compute_address h (instr_get_target (decode h pc))
                                                   (dr_get_mcontext h)]>
                            (last_calls st)) st
                  else st)) as Hgen.
  { intros st1 Hc Hm Hr Hin. rewrite Hm, Hr, Hin.
    destruct (_ && _); simpl; [done|].
    match goal with |- call_view (let '(_, _) := handle_specific h ?i ?s in _) = _ =>
      pose proof (frame_propagate_tail h i s) as Ht; cbv zeta in Ht;
      rewrite (call_view_of_frame _ _ Ht) end.
    clear Ht. unfold call_view in *. injection Hc as Hi Hl.
    destruct (instr_is_call _), (opnd_is_memory_reference _), (in_module st pc);
      simpl; rewrite ?Hi, ?Hl; done. }
  destruct (in_module st pc) eqn:Hin; apply Hgen; try done.
Qed.

Lemma size_zero_empty `{Countable A} (s : gset A) :
  bool_decide (size s = 0%nat) = bool_decide (s = ∅).
Proof. apply bool_decide_ext. rewrite size_empty_iff. by unfold_leibniz. Qed.

(** C8, as the code has it: when the shadow state is not empty and the
    decoded instruction is a call whose target is a memory operand, the
    address computed for the target is appended to the call ring exactly
    when the [pc] of the call (not the target) lies strictly between
    [module_start] and [module_end]; in every other case the call ring is
    left as it is. *)
Theorem propagate_taint_call_ring (h : host) (pc : app_pc) (st : tracer) :
  let instr := decode h pc in
  let target := instr_get_target instr in
  let addr := opnd_compute_address h target (dr_get_mcontext h) in
  if negb (bool_decide (tainted_mems st = ∅) && bool_decide (tainted_regs st = ∅))
     && instr_is_call instr && opnd_is_memory_reference target
  then
    if bool_decide (module_start st < pc < module_end st)
    then call_ring_appended addr st (propagate_taint h pc st)
    else call_ring_unchanged st (propagate_taint h pc st)
  else call_ring_unchanged st (propagate_taint h pc st).
Proof.
  intros instr target addr.
  pose proof (propagate_taint_call_view h pc st) as Hv.
  rewrite in_module_spec, !size_zero_empty in Hv.
  fold instr target addr in Hv.
  unfold call_ring_appended, call_ring_unchanged, call_view in *.
  destruct (negb _ && _ && _); simpl in Hv.
  - destruct (bool_decide (module_start st < pc < module_end st));
      simpl in Hv; by injection Hv as -> ->.
  - by injection Hv as -> ->.
Qed.

(** C8, as the claim states it, fails in both directions: a call at a [pc]
    inside the module whose target resolves outside the module is appended
    to the call ring, and a call at a [pc] outside the module whose target
    resolves inside the module is not. *)
Lemma propagate_taint_call_ring_tests_pc :
  let inside := OPND_ABS_ADDR 5000 8 in
  let outside := OPND_ABS_ADDR 70000 8 in
  let host_of target :=
    example_host (example_call target) (λ _, 0) (λ _, false)
                 true true true true true true in
  let st := example_tracer false false {[DR_REG_RAX]} ∅ 4096 8192 in
  (¬ (module_start st ≤ 70000 < module_end st)
   ∧ call_ring_appended 70000 st (propagate_taint (host_of outside) 4200 st))
  ∧ (module_start st ≤ 5000 < module_end st
     ∧ ¬ call_ring_appended 5000 st (propagate_taint (host_of inside) 9000 st)).
Proof.
  intros inside outside host_of st. repeat split; simpl; try lia.
  intros [Hring _]. vm_compute in Hring. discriminate Hring.
Qed.

(** ** xor of a register with itself *)

(** C9: when the instruction at [pc] is an [xor] (so none of the branch
    predicates holds of it) whose two source operands are registers that
    both canonicalize to [R], and [R] is in the tainted register set, then
    [R] is not in the set after [propagate_taint], whatever the rest of the
    state. *)
Theorem propagate_taint_xor_self (h : host) (pc : app_pc) (st : tracer)
    (r0 r1 R : reg_id_t) :
  let instr := decode h pc in
  instr_get_opcode instr = OP_xor →
  instr_is_return instr = false → instr_is_ubr instr = false →
  instr_is_cbr instr = false → instr_is_call_direct instr = false →
  instr_is_mbr instr = false → instr_is_call instr = false →
  instr_srcs instr = [OPND_REG r0; OPND_REG r1] →
  reg_to_full_width64 r0 = R → reg_to_full_width64 r1 = R →
  R ∈ tainted_regs st →
  R ∉ tainted_regs (propagate_taint h pc st).
Proof.
  intros instr Hop Hret Hubr Hcbr Hcd Hmbr Hcall Hsrcs H0 H1 HR.
  unfold propagate_taint. cbv zeta. fold instr.
  set (st1 := if in_module st pc then _ else st).
  assert (tainted_regs st1 = tainted_regs st) as Hregs.
  { unfold st1. by destruct (in_module st pc). }
  assert (bool_decide (size (tainted_regs st1) = 0%nat) = false) as ->.
  { rewrite size_zero_empty, Hregs. apply bool_decide_eq_false_2.
    intros Hempty. rewrite Hempty in HR. by apply not_elem_of_empty in HR. }
  rewrite andb_false_r, Hcall.
  unfold handle_specific, handle_branches.
  rewrite Hret, Hubr, Hcbr, Hcd, Hmbr, Hcall, Hop. simpl.
  unfold handle_xor. rewrite Hsrcs, H0, H1.
  rewrite bool_decide_eq_true_2 by done. simpl.
  rewrite elem_of_difference, elem_of_singleton. by intros [_ ?].
Qed.

Lemma propagate_taint_xor_self_witness :
  let h := example_host
             (example_instr OP_xor [OPND_REG DR_REG_EAX; OPND_REG DR_REG_AX] [OPND_REG DR_REG_EAX])
             (λ _, 0) (λ _, false) true true true true true true in
  let st := example_tracer false false {[DR_REG_RAX; DR_REG_RBX]} {[4242]} 4096 8192 in
  DR_REG_RAX ∈ tainted_regs st
  ∧ DR_REG_RAX ∉ tainted_regs (propagate_taint h 4100 st).
Proof.
  intros h st.
  assert (DR_REG_RAX ∈ tainted_regs st) as Hin by (simpl; set_solver).
  split; [exact Hin|].
  apply (propagate_taint_xor_self h 4100 st DR_REG_EAX DR_REG_AX DR_REG_RAX);
    solve [reflexivity | exact Hin].
Defined.

(** ** Coalescing the tainted addresses *)

(** The iteration of the set visits its elements in strictly ascending
    order, each once. *)
Lemma set_iter_sorted (mems : gset app_pc) : StronglySorted Z.lt (set_iter mems).
Proof.
  unfold set_iter.
  assert (StronglySorted Z.le (merge_sort Z.le (elements mems))) as Hle
    by apply (StronglySorted_merge_sort _).
  assert (NoDup (merge_sort Z.le (elements mems))) as Hnd.
  { rewrite merge_sort_Permutation. apply NoDup_elements. }
  induction Hle as [|x l Hl IH Hx]; [constructor|].
  apply NoDup_cons in Hnd as [Hnotin Hnd].
  constructor; [by apply IH|].
  rewrite Forall_forall in Hx |- *. intros y Hy.
  specialize (Hx y Hy). assert (x ≠ y) by (intros ->; done). lia.
Qed.

Lemma elem_of_set_iter (mems : gset app_pc) a : a ∈ set_iter mems ↔ a ∈ mems.
Proof. unfold set_iter. by rewrite merge_sort_Permutation, elem_of_elements. Qed.

Lemma length_set_iter (mems : gset app_pc) : length (set_iter mems) = size mems.
Proof. unfold set_iter. by rewrite merge_sort_Permutation. Qed.

(** The loop computes [runs]: on 64-bit addresses in ascending order, fewer
    than [2^64] of them, no sum in it wraps around. *)
Lemma foldl_coalesce_step_runs rest : ∀ out start size,
  0 ≤ start → 0 < size →
  StronglySorted Z.lt ((start + size - 1) :: rest) →
  Forall (λ a, a < 2 ^ 64) rest →
  size + Z.of_nat (length rest) < 2 ^ 64 →
  let '(out', start', size') := foldl coalesce_step (out, start, size) rest in
  out' ++ [(start', size')] = out ++ runs start size rest.
Proof.
  induction rest as [|curr rest IH]; intros out start size Hs Hn Hsorted Hlt Hlen;
    simpl; [done|].
  apply StronglySorted_cons in Hsorted as [Hall Hsorted].
  apply Forall_cons in Hall as [Hcurr Hall].
  apply Forall_cons in Hlt as [Hcurr64 Hlt].
  simpl in Hlen.
  assert (uint64 (start + size) = start + size) as ->.
  { unfold uint64. apply Z.mod_small. lia. }
  case_bool_decide as Hgap.
  - assert (uint64 (0 + 1) = 1) as -> by done.
    specialize (IH (out ++ [(start, size)]) curr 1).
    destruct (foldl coalesce_step _ rest) as [[out' start'] size'].
    rewrite IH; [by rewrite <- (assoc_L (++)) | lia | lia | | done | lia].
    by replace (curr + 1 - 1) with curr by lia.
  - assert (uint64 (size + 1) = size + 1) as ->.
    { unfold uint64. apply Z.mod_small. lia. }
    specialize (IH out start (size + 1)).
    destruct (foldl coalesce_step _ rest) as [[out' start'] size'].
    apply IH; [lia | lia | | done | lia].
    by replace (start + (size + 1) - 1) with curr by lia.
Qed.

(** What [runs] returns: extents that are not empty, start no lower than
    [start], lie apart in ascending order, and cover the extent it was
    given together with the addresses still to come. *)
Lemma runs_spec rest : ∀ start size,
  0 < size →
  StronglySorted Z.lt ((start + size - 1) :: rest) →
  Forall (λ e, 0 < e.2 ∧ start ≤ e.1) (runs start size rest)
  ∧ StronglySorted extent_before (runs start size rest)
  ∧ (∀ a, (∃ e, e ∈ runs start size rest ∧ in_extent a e)
          ↔ (start ≤ a < start + size ∨ a ∈ rest)).
Proof.
  induction rest as [|curr rest IH]; intros start size Hn Hsorted; simpl.
  - split; [|split].
    + by repeat constructor.
    + repeat constructor.
    + intros a. unfold in_extent. split.
      * intros (e & ->%list_elem_of_singleton & He). by left.
      * intros [Ha|Ha%elem_of_nil]; [|done]. exists (start, size). split; [|done].
        by apply list_elem_of_singleton.
  - apply StronglySorted_cons in Hsorted as [Hall Hsorted].
    apply Forall_cons in Hall as [Hcurr Hall].
    case_bool_decide as Hgap.
    + destruct (IH curr 1) as (Hpos & Hsep & Hcover); [lia| |].
      { by replace (curr + 1 - 1) with curr by lia. }
      split; [|split].
      * constructor; [simpl; lia|].
        eapply Forall_impl; [exact Hpos|]. simpl. intros e [? ?]. lia.
      * constructor; [done|].
        eapply Forall_impl; [exact Hpos|]. unfold extent_before. simpl. intros e [? ?]. lia.
      * intros a. rewrite elem_of_cons. split.
        -- intros (e & [->|He]%elem_of_cons & Ha).
           ++ by left.
           ++ right. destruct (proj1 (Hcover a)) as [?|?]; [by exists e| |by right].
              left. lia.
        -- intros [Ha|[->|Ha]].
           ++ exists (start, size). split; [apply elem_of_cons; by left|done].
           ++ destruct (proj2 (Hcover curr)) as (e & He & Hin); [left; lia|].
              exists e. split; [apply elem_of_cons; by right|done].
           ++ destruct (proj2 (Hcover a)) as (e & He & Hin); [by right|].
              exists e. split; [apply elem_of_cons; by right|done].
    + destruct (IH start (size + 1)) as (Hpos & Hsep & Hcover); [lia| |].
      { by replace (start + (size + 1) - 1) with curr by lia. }
      split; [done|split; [done|]].
      intros a. rewrite Hcover, elem_of_cons. split.
      * intros [Ha|Ha]; [|by right; right].
        destruct (decide (a = curr)) as [->|]; [by right; left|left; lia].
      * intros [Ha|[->|Ha]]; [left; lia|left; lia|by right].
Qed.

(** The loop that coalesces, on a set of 64-bit addresses (not all [2^64]
    of them): its extents are not empty, they are in ascending order with a
    gap between any two, their union is the set, and an address starts an
    extent exactly when it is in the set and the address before it is
    not. *)
Lemma tainted_addrs_runs (mems : gset app_pc) :
  (∀ a, a ∈ mems → 0 ≤ a < 2 ^ 64) →
  Z.of_nat (size mems) < 2 ^ 64 →
  Forall (λ e, 0 < e.2) (tainted_addrs mems)
  ∧ StronglySorted extent_before (tainted_addrs mems)
  ∧ (∀ a, a ∈ mems ↔ ∃ e, e ∈ tainted_addrs mems ∧ in_extent a e)
  ∧ (∀ a, (∃ n, (a, n) ∈ tainted_addrs mems) ↔ a ∈ mems ∧ a - 1 ∉ mems).
Proof.
  intros Hrange Hsize.
  assert (Forall (λ e, 0 < e.2) (tainted_addrs mems)
          ∧ StronglySorted extent_before (tainted_addrs mems)
          ∧ (∀ a, a ∈ mems ↔ ∃ e, e ∈ tainted_addrs mems ∧ in_extent a e))
    as (Hpos & Hsep & Hcover).
  { unfold tainted_addrs.
    pose proof (set_iter_sorted mems) as Hsorted.
    pose proof (elem_of_set_iter mems) as Hin.
    pose proof (length_set_iter mems) as Hlen.
    destruct (set_iter mems) as [|first rest].
    - split; [constructor|split; [constructor|]].
      intros a. rewrite <- Hin. split; [by intros ?%elem_of_nil|].
      by intros (e & ?%elem_of_nil & _).
    - assert (Forall (λ a, 0 ≤ a < 2 ^ 64) (first :: rest)) as Hr.
      { apply Forall_forall. intros a Ha. apply Hrange, Hin, Ha. }
      apply Forall_cons in Hr as [Hfirst Hr].
      simpl in Hlen.
      pose proof (foldl_coalesce_step_runs rest [] first 1) as Hloop.
      unfold app_pc in *. revert Hloop.
      destruct (foldl coalesce_step ([], first, 1) rest) as [[out start] size'].
      intros Hloop.
      assert (out ++ [(start, size')] = runs first 1 rest) as ->.
      { apply Hloop; [lia | lia | | | lia].
        - by replace (first + 1 - 1) with first by lia.
        - eapply Forall_impl; [exact Hr|]. simpl. lia. }
      destruct (runs_spec rest first 1) as (Hp & Hs & Hc); [lia| |].
      { by replace (first + 1 - 1) with first by lia. }
      split; [|split; [done|]].
      + eapply Forall_impl; [exact Hp|]. by intros e [? ?].
      + intros a. rewrite Hc, <- Hin, elem_of_cons. split.
        * intros [->|?]; [left; lia|by right].
        * intros [?|?]; [left; lia|by right]. }
  split; [done|split; [done|split; [done|]]].
  intros a. split.
  - intros (n & Hn).
    assert (0 < n) as Hnpos.
    { rewrite Forall_forall in Hpos. apply (Hpos _ Hn). }
    split.
    + apply Hcover. exists (a, n). split; [done|]. unfold in_extent. simpl. lia.
    + intros (e & He & Hin)%Hcover.
      unfold in_extent in Hin.
      assert (e ≠ (a, n)) as Hne by (intros ->; simpl in Hin; lia).
      apply list_elem_of_split in Hn as (l1 & l2 & Heq).
      rewrite Heq in Hsep, He.
      apply StronglySorted_app in Hsep as (Hcross & _ & H2).
      apply StronglySorted_cons in H2 as [Hafter _].
      apply elem_of_app in He as [He|He].
      * specialize (Hcross e (a, n) He). unfold extent_before in Hcross. simpl in Hcross.
        assert ((a, n) ∈ (a, n) :: l2) as Hhd by (apply elem_of_cons; by left).
        specialize (Hcross Hhd). lia.
      * apply elem_of_cons in He as [->|He]; [done|].
        rewrite Forall_forall in Hafter. specialize (Hafter e He).
        unfold extent_before in Hafter. simpl in Hafter. lia.
  - intros [Ha Hprev].
    destruct (proj1 (Hcover a) Ha) as ([s n] & He & Hin).
    unfold in_extent in Hin. simpl in Hin.
    destruct (decide (s = a)) as [->|Hne]; [by exists n|].
    exfalso. apply Hprev, Hcover. exists (s, n). split; [done|].
    unfold in_extent. simpl. lia.
Qed.

(** ** Exception triage *)

(** [dump_crash] never returns: it enters, makes the calls of
    [dump_crash_io], and ends the process. *)
Lemma dump_crash_outcome h excpt reason score disassembly
    pc_tainted stack_tainted is_ret is_indirect is_direct is_call
    mem_write mem_read tainted_src tainted_dst w :
  let j := dump_json h (globals w) score reason excpt disassembly pc_tainted stack_tainted
                     is_ret is_indirect is_direct is_call mem_write mem_read
                     tainted_src tainted_dst in
  dump_crash h excpt reason score disassembly pc_tainted stack_tainted is_ret
             is_indirect is_direct is_call mem_write mem_read tainted_src tainted_dst w
  = Terminates (dump_crash_io h (replay (globals w)) j).2
               {| globals := globals w;
                  trace := trace w ++ EvDumpCrash j :: (dump_crash_io h (replay (globals w)) j).1 |}.
Proof.
  intros j. subst j. destruct w as [st tr].
  unfold dump_crash, dump_crash_io, mbind, proc_bind, get_globals, emit, when,
    dr_exit_process, dr_abort, mret, proc_ret.
  simpl.
  destruct (replay st), (CreateFile_crash_path h), (WriteFile_crash_json h),
    (CreateFile_mem_dump_path h);
    simpl; rewrite <- ?(assoc_L (++)); reflexivity.
Qed.

Lemma bind_dump_crash {A} (k : unit → proc A) h excpt reason score disassembly
    pc_tainted stack_tainted is_ret is_indirect is_direct is_call
    mem_write mem_read tainted_src tainted_dst w :
  let j := dump_json h (globals w) score reason excpt disassembly pc_tainted stack_tainted
                     is_ret is_indirect is_direct is_call mem_write mem_read
                     tainted_src tainted_dst in
  (dump_crash h excpt reason score disassembly pc_tainted stack_tainted is_ret
              is_indirect is_direct is_call mem_write mem_read tainted_src tainted_dst ≫= k) w
  = Terminates (dump_crash_io h (replay (globals w)) j).2
               {| globals := globals w;
                  trace := trace w ++ EvDumpCrash j :: (dump_crash_io h (replay (globals w)) j).1 |}.
Proof.
  intros j. unfold mbind, proc_bind. by rewrite dump_crash_outcome.
Qed.

Lemma foldl_orb_existsb {A} (p : A → bool) (l : list A) (acc : bool) :
  foldl (λ acc x, acc || p x) acc l = acc || existsb p l.
Proof.
  revert acc. induction l as [|x l IH]; intros acc; simpl.
  - by rewrite orb_false_r.
  - by rewrite IH, orb_assoc.
Qed.

Lemma existsb_is_tainted_set_crashed h b st (l : list opnd_t) :
  existsb (is_tainted h (set_crashed b st)) l = existsb (is_tainted h st) l.
Proof.
  induction l as [|opnd l IH]; simpl; [done|].
  rewrite IH. by destruct opnd.
Qed.

Section on_exception.
Import ScoringMatrix.

Local Opaque dump_crash dump_crash_io dump_json is_tainted.

(** A row of the ladder fires: the rest of the handler is never run. *)
Local Ltac fire :=
  cbn beta iota zeta delta [orb andb];
  rewrite dump_crash_outcome; eexists; split; [simpl; reflexivity|reflexivity].

(** A row does not fire: on to the next one. *)
Local Ltac next := cbn beta iota zeta delta [orb andb].

(** The handler is one call of [dump_crash], for the first row of the
    matrix that matches the facts of step 3, with the facts it passes on
    for that row. *)
Lemma on_exception_outcome h excpt w :
  let f := step3 h (globals w) excpt in
  let st1 := set_crashed true (globals w) in
  ∃ r, first_match f = Some r
       ∧ on_exception h excpt w
         = Terminates
             (dump_crash_io h (replay st1) (report_of h st1 excpt r (passed_on r f))).2
             {| globals := st1;
                trace := trace w
                         ++ EvDumpCrash (report_of h st1 excpt r (passed_on r f))
                         :: (dump_crash_io h (replay st1)
                                           (report_of h st1 excpt r (passed_on r f))).1 |}.
Proof.
  intros f st1. subst f st1.
  destruct w as [st tr].
  unfold first_match, rows, step3, on_exception, report_of.
  unfold mbind, proc_bind, mret, proc_ret, get_globals, modify_globals.
  cbn beta iota delta [globals trace].
  cbn [find condition bad_address code pc_tainted stack_tainted is_ret is_direct
       is_indirect is_call mem_write mem_read tainted_src tainted_dst].
  change (tainted_regs (set_crashed true st)) with (tainted_regs st).
  change (reg_to_full_width64 DR_REG_NULL) with DR_REG_NULL.
  change (reg_to_full_width64 DR_REG_ESP) with DR_REG_RSP.
  generalize (instr_disassemble_to_buffer h (decode h (ExceptionAddress excpt))).
  generalize (instr_is_return (decode h (ExceptionAddress excpt))).
  generalize (instr_is_ubr (decode h (ExceptionAddress excpt))
              || instr_is_cbr (decode h (ExceptionAddress excpt))
              || instr_is_call_direct (decode h (ExceptionAddress excpt))).
  generalize (instr_is_mbr (decode h (ExceptionAddress excpt))).
  generalize (instr_is_call (decode h (ExceptionAddress excpt))).
  generalize (instr_writes_memory (decode h (ExceptionAddress excpt))).
  generalize (instr_reads_memory (decode h (ExceptionAddress excpt))).
  generalize (bool_decide (DR_REG_NULL ∈ tainted_regs st)).
  generalize (bool_decide (DR_REG_RSP ∈ tainted_regs st)).
  generalize (IsBadReadPtr h (ExceptionAddress excpt)).
  generalize (bool_decide (ExceptionCode excpt = EXCEPTION_ILLEGAL_INSTRUCTION)).
  generalize (bool_decide (ExceptionCode excpt = EXCEPTION_INT_DIVIDE_BY_ZERO)).
  generalize (bool_decide (ExceptionCode excpt = EXCEPTION_BREAKPOINT)).
  intros bp div0 ill bad stack pc rd wr call mbr direct ret disas.
  destruct bad; [destruct pc; fire|next].
  destruct ill; [destruct pc; fire|next].
  destruct div0; [fire|next].
  destruct bp; [fire|next].
  destruct direct; [destruct pc; fire|next].
  destruct mbr; [destruct pc; fire|next].
  destruct call; [destruct pc; fire|next].
  destruct ret; [destruct pc, stack; fire|next].
  rewrite !foldl_orb_existsb. cbn [globals orb].
  rewrite !existsb_is_tainted_set_crashed.
  generalize (existsb (is_tainted h st) (instr_srcs (decode h (ExceptionAddress excpt)))).
  generalize (existsb (is_tainted h st) (instr_dsts (decode h (ExceptionAddress excpt)))).
  intros dst src.
  destruct wr; [destruct src, dst; fire|next].
  destruct rd; [destruct src; fire|next].
  fire.
Qed.
End on_exception.

Lemma dump_crash_io_no_dump_crash h is_replay j :
  count_events is_dump_crash (dump_crash_io h is_replay j).1 = 0%nat.
Proof.
  unfold dump_crash_io.
  by destruct is_replay, (CreateFile_crash_path h), (WriteFile_crash_json h).
Qed.

Lemma dump_crash_io_writes_report h is_replay j j' ok :
  EvWriteFile j' ok ∈ (dump_crash_io h is_replay j).1 → j' = j.
Proof.
  unfold dump_crash_io.
  destruct is_replay, (CreateFile_crash_path h), (WriteFile_crash_json h); simpl;
    intros Hin;
    repeat (apply elem_of_cons in Hin as [Hin|Hin];
            [first [discriminate Hin | by injection Hin]|]);
    by apply elem_of_nil in Hin.
Qed.

(** C1: the triage scoring is a function of the taint state, the exception
    record and the decoded instruction.  Whatever the host and the state,
    [on_exception] ends the process after exactly one entry into
    [dump_crash], and the reason and the score of the report built there
    are those of the first row of the matrix of section 4.7 whose condition
    holds of the facts of step 3. *)
Theorem on_exception_first_match (h : host) (excpt : dr_exception_t) (w : world) :
  ∃ r j io t,
    ScoringMatrix.first_match (ScoringMatrix.step3 h (globals w) excpt) = Some r
    ∧ on_exception h excpt w
      = Terminates t {| globals := set_crashed true (globals w);
                        trace := trace w ++ EvDumpCrash j :: io |}
    ∧ count_events is_dump_crash io = 0%nat
    ∧ j_reason j = ScoringMatrix.reason r
    ∧ j_score j = ScoringMatrix.score r.
Proof.
  destruct (on_exception_outcome h excpt w) as (r & Hrow & Hrun).
  eexists r, _, _, _. split; [exact Hrow|]. split; [exact Hrun|].
  split; [apply dump_crash_io_no_dump_crash|]. done.
Qed.

(** C2, as the code has it: [on_exception] never returns to the guest.  In
    a replay run in which the crash file is opened and written and the dump
    file is opened and written, it produces exactly one JSON record and one
    minidump and exits with code 1; in a run that is not a replay it
    requests no paths, writes neither, and exits with code 1. *)
Theorem on_exception_artifacts (h : host) (excpt : dr_exception_t) (w : world) :
  ∃ t io,
    on_exception h excpt w
    = Terminates t {| globals := set_crashed true (globals w); trace := trace w ++ io |}
    ∧ (replay (globals w) = true →
       CreateFile_crash_path h = true → WriteFile_crash_json h = true →
       CreateFile_mem_dump_path h = true → MiniDumpWriteDump_result h = true →
       count_events is_json_record io = 1%nat
       ∧ count_events is_minidump io = 1%nat
       ∧ t = ExitProcess 1)
    ∧ (replay (globals w) = false →
       (∃ j, io = [EvDumpCrash j])
       ∧ count_events is_json_record io = 0%nat
       ∧ count_events is_minidump io = 0%nat
       ∧ t = ExitProcess 1).
Proof.
  destruct (on_exception_outcome h excpt w) as (r & _ & Hrun).
  eexists _, _. split; [exact Hrun|].
  change (replay (set_crashed true (globals w))) with (replay (globals w)).
  unfold dump_crash_io. split.
  - by intros -> -> -> -> ->.
  - intros ->. split; [by eexists|done].
Qed.

Lemma on_exception_artifacts_witness :
  let h := example_host (example_instr (OP_other 0) [] []) (λ _, 0) (λ _, false)
                        true true true true true true in
  let excpt := {| ExceptionCode := EXCEPTION_BREAKPOINT; ExceptionAddress := 4100;
                  mcontext := {| mc_reg := λ _, 0 |} |} in
  (∃ t io,
     on_exception h excpt (example_world (example_tracer true false ∅ ∅ 4096 8192))
     = Terminates t {| globals := set_crashed true (example_tracer true false ∅ ∅ 4096 8192);
                       trace := io |}
     ∧ count_events is_json_record io = 1%nat
     ∧ count_events is_minidump io = 1%nat
     ∧ t = ExitProcess 1)
  ∧ (∃ t io,
       on_exception h excpt (example_world (example_tracer false false ∅ ∅ 4096 8192))
       = Terminates t {| globals := set_crashed true (example_tracer false false ∅ ∅ 4096 8192);
                         trace := io |}
       ∧ count_events is_json_record io = 0%nat
       ∧ count_events is_minidump io = 0%nat
       ∧ t = ExitProcess 1).
Proof.
  intros h excpt. split.
  - destruct (on_exception_artifacts
                h excpt (example_world (example_tracer true false ∅ ∅ 4096 8192)))
      as (t & io & Hrun & Hreplay & _).
    destruct (Hreplay eq_refl eq_refl eq_refl eq_refl eq_refl) as (Hj & Hm & Ht).
    exists t, io. split; [exact Hrun|]. split; [exact Hj|]. split; [exact Hm|exact Ht].
  - destruct (on_exception_artifacts
                h excpt (example_world (example_tracer false false ∅ ∅ 4096 8192)))
      as (t & io & Hrun & _ & Hplain).
    destruct (Hplain eq_refl) as (_ & Hj & Hm & Ht).
    exists t, io. split; [exact Hrun|]. split; [exact Hj|]. split; [exact Hm|exact Ht].
Defined.

(** C2, as the claim states it, fails for a run that is not a replay: on a
    breakpoint exception such a run ends with exit code 1 having produced no
    JSON record and no minidump. *)
Lemma on_exception_without_replay_writes_nothing :
  let h := example_host (example_instr (OP_other 0) [] []) (λ _, 0) (λ _, false)
                        true true true true true true in
  let excpt := {| ExceptionCode := EXCEPTION_BREAKPOINT; ExceptionAddress := 4100;
                  mcontext := {| mc_reg := λ _, 0 |} |} in
  let st := example_tracer false false ∅ ∅ 4096 8192 in
  ∃ w', on_exception h excpt (example_world st) = Terminates (ExitProcess 1) w'
        ∧ count_events is_json_record (trace w') = 0%nat
        ∧ count_events is_minidump (trace w') = 0%nat.
Proof.
  intros h excpt st.
  destruct (on_exception_outcome h excpt (example_world st)) as (r & Hrow & Hrun).
  vm_compute in Hrow. injection Hrow as <-.
  rewrite Hrun. eexists. split; [reflexivity|]. split; reflexivity.
Qed.

(** C3, as the code has it: the report reflects, of step 3, what the
    handler passes on for the row that fires.  For the write rows, the read
    rows and the fallback, all nine fields are those of step 3.  For the
    divide-by-zero, breakpoint, branching and return rows, the instruction
    and the six classification flags are those of step 3, and [tainted_src]
    and [tainted_dst] are false: the operands are surveyed only after the
    return rows.  For the illegal-instruction rows the instruction is the
    disassembly and the eight flags are false; for the oob rows the
    instruction is empty and the eight flags are false.  The crash file,
    when it is written, holds this report. *)
Theorem on_exception_report_fields (h : host) (excpt : dr_exception_t) (w : world) :
  let f := ScoringMatrix.step3 h (globals w) excpt in
  ∃ r j io t,
    ScoringMatrix.first_match f = Some r
    ∧ on_exception h excpt w
      = Terminates t {| globals := set_crashed true (globals w);
                        trace := trace w ++ EvDumpCrash j :: io |}
    ∧ (∀ j' ok, EvWriteFile j' ok ∈ io → j' = j)
    ∧ ScoringMatrix.fields_of_step3 (ScoringMatrix.passed_on r f) j.
Proof.
  intros f.
  destruct (on_exception_outcome h excpt w) as (r & Hrow & Hrun).
  eexists r, _, _, _. split; [exact Hrow|]. split; [exact Hrun|].
  split; [intros j' ok; apply dump_crash_io_writes_report|].
  by repeat split.
Qed.

Lemma on_exception_report_fields_witness :
  let ret := {| instr_get_opcode := OP_other 0;
                instr_srcs := [OPND_REG DR_REG_RSP; OPND_BASE_DISP DR_REG_RSP DR_REG_NULL 0 0 8];
                instr_dsts := [OPND_REG DR_REG_RSP];
                instr_get_target := OPND_NULL;
                instr_is_return := true; instr_is_ubr := false; instr_is_cbr := false;
                instr_is_call_direct := false; instr_is_mbr := true; instr_is_call := false;
                instr_writes_memory := false; instr_reads_memory := true |} in
  let h := example_host ret (λ _, 0) (λ _, false) true true true true true true in
  let excpt := {| ExceptionCode := 0xC0000005; ExceptionAddress := 4100;
                  mcontext := {| mc_reg := λ _, 0 |} |} in
  let w := example_world (example_tracer true false {[DR_REG_NULL]} ∅ 4096 8192) in
  let f := ScoringMatrix.step3 h (globals w) excpt in
  ∃ r j io t,
    ScoringMatrix.first_match f = Some r
    ∧ on_exception h excpt w
      = Terminates t {| globals := set_crashed true (globals w);
                        trace := trace w ++ EvDumpCrash j :: io |}
    ∧ (∀ j' ok, EvWriteFile j' ok ∈ io → j' = j)
    ∧ ScoringMatrix.fields_of_step3 (ScoringMatrix.passed_on r f) j.
Proof.
  intros ret h excpt w.
  exact (on_exception_report_fields h excpt w).
Defined.

(** C3, as the claim states it, fails on the divide-by-zero row: for a
    faulting [div rbx] with [rbx] tainted, in a replay run whose files are
    written, the crash file holds [tainted_src = false] although the survey
    of the source operands finds taint. *)
Lemma on_exception_divide_by_zero_omits_survey :
  let div_rbx := example_instr (OP_other 0)
                   [OPND_REG DR_REG_RBX; OPND_REG DR_REG_RAX; OPND_REG DR_REG_RDX]
                   [OPND_REG DR_REG_RAX; OPND_REG DR_REG_RDX] in
  let h := example_host div_rbx (λ _, 0) (λ _, false) true true true true true true in
  let excpt := {| ExceptionCode := EXCEPTION_INT_DIVIDE_BY_ZERO; ExceptionAddress := 4100;
                  mcontext := {| mc_reg := λ _, 0 |} |} in
  let st := example_tracer true false {[DR_REG_RBX]} ∅ 4096 8192 in
  ∃ t w' j,
    on_exception h excpt (example_world st) = Terminates t w'
    ∧ EvWriteFile j true ∈ trace w'
    ∧ ScoringMatrix.tainted_src (ScoringMatrix.step3 h st excpt) = true
    ∧ j_tainted_src j = false
    ∧ ¬ ScoringMatrix.fields_of_step3 (ScoringMatrix.step3 h st excpt) j.
Proof.
  intros div_rbx h excpt st.
  destruct (on_exception_outcome h excpt (example_world st)) as (r & Hrow & Hrun).
  vm_compute in Hrow. injection Hrow as <-.
  rewrite Hrun. eexists _, _, _. split; [reflexivity|].
  split; [cbn [trace]; rewrite elem_of_app; right; do 3 (apply elem_of_cons; right);
          apply elem_of_cons; left; reflexivity|].
  assert (ScoringMatrix.tainted_src (ScoringMatrix.step3 h st excpt) = true) as Hsurvey
    by (vm_compute; reflexivity).
  split; [exact Hsurvey|]. split; [reflexivity|].
  intros (_ & _ & _ & _ & _ & _ & _ & Hsrc & _).
  rewrite Hsurvey in Hsrc. discriminate Hsrc.
Qed.

(** C4 at the failing input: a replay run in which the crash file is opened
    and written but the dump file cannot be opened.  The handler logs and
    goes on: it calls [MiniDumpWriteDump] on the invalid handle and leaves
    with exit code 1, not by an abort, with the JSON record written and no
    minidump. *)
Lemma on_exception_dump_open_failure_does_not_abort :
  let h := example_host (example_instr (OP_other 0) [] []) (λ _, 0) (λ _, false)
                        true true false true true true in
  let excpt := {| ExceptionCode := EXCEPTION_BREAKPOINT; ExceptionAddress := 4100;
                  mcontext := {| mc_reg := λ _, 0 |} |} in
  let st := example_tracer true false ∅ ∅ 4096 8192 in
  ∃ w', on_exception h excpt (example_world st) = Terminates (ExitProcess 1) w'
        ∧ EvCreateFile mem_dump_path false ∈ trace w'
        ∧ EvMiniDumpWriteDump false false ∈ trace w'
        ∧ count_events is_json_record (trace w') = 1%nat
        ∧ count_events is_minidump (trace w') = 0%nat.
Proof.
  intros h excpt st.
  destruct (on_exception_outcome h excpt (example_world st)) as (r & Hrow & Hrun).
  vm_compute in Hrow. injection Hrow as <-.
  rewrite Hrun. eexists. split; [reflexivity|].
  cbn [trace]. split; [|split; [|split; reflexivity]].
  - rewrite elem_of_app; right. do 5 (apply elem_of_cons; right).
    apply elem_of_cons; left; reflexivity.
  - rewrite elem_of_app; right. do 6 (apply elem_of_cons; right).
    apply elem_of_cons; left; reflexivity.
Qed.

(** ** The tainted addresses in the report *)

(** C10: the [tainted_addrs] list of the JSON crash report is the
    run-length coalescing of the tainted memory set TM in ascending address
    order.  For a TM of 64-bit addresses (not all [2^64] of them) this holds
    of the report [dump_json] builds, whatever its other arguments, and so
    of the report of a crash: the one [on_exception] hands to [dump_crash],
    which is the only report that [dump_crash] writes to the crash file. *)
Theorem tainted_addrs_coalesces (h : host) (st : tracer) :
  (∀ a, a ∈ tainted_mems st → 0 ≤ a < 2 ^ 64) →
  Z.of_nat (size (tainted_mems st)) < 2 ^ 64 →
  (∀ score reason excpt disassembly pc_tainted stack_tainted is_ret is_indirect
     is_direct is_call mem_write mem_read tainted_src tainted_dst,
     run_length_coalescing (tainted_mems st)
       (j_tainted_addrs
          (dump_json h st score reason excpt disassembly pc_tainted stack_tainted
                     is_ret is_indirect is_direct is_call mem_write mem_read
                     tainted_src tainted_dst)))
  ∧ (∀ excpt tr,
       ∃ j t io,
         on_exception h excpt {| globals := st; trace := tr |}
         = Terminates t {| globals := set_crashed true st;
                           trace := tr ++ EvDumpCrash j :: io |}
         ∧ (∀ j' ok, EvWriteFile j' ok ∈ io → j' = j)
         ∧ run_length_coalescing (tainted_mems st) (j_tainted_addrs j)).
Proof.
  intros Hrange Hsize.
  pose proof (tainted_addrs_runs (tainted_mems st) Hrange Hsize) as Hruns.
  split; [intros; exact Hruns|].
  intros excpt tr.
  destruct (on_exception_outcome h excpt {| globals := st; trace := tr |})
    as (r & _ & Hrun).
  eexists _, _, _. split; [exact Hrun|]. split.
  - intros j' ok Hin. by apply dump_crash_io_writes_report in Hin.
  - exact Hruns.
Qed.

Lemma tainted_addrs_coalesces_witness :
  let h := example_host (example_instr (OP_other 0) [] []) (λ _, 0) (λ _, false)
                        true true true true true true in
  let st := example_tracer true false ∅ {[5; 6; 7; 10; 11; 20]} 4096 8192 in
  let excpt := {| ExceptionCode := EXCEPTION_BREAKPOINT; ExceptionAddress := 4100;
                  mcontext := {| mc_reg := λ _, 0 |} |} in
  let j := dump_json h st 25 "breakpoint" excpt "insn"
                     false false false false false false false false false false in
  j_tainted_addrs j = [(5, 3); (10, 2); (20, 1)]
  ∧ run_length_coalescing (tainted_mems st) (j_tainted_addrs j).
Proof.
  intros h st excpt j.
  assert (∀ a, a ∈ tainted_mems st → 0 ≤ a < 2 ^ 64) as Hrange.
  { intros a. simpl. rewrite !elem_of_union, !elem_of_singleton. lia. }
  assert (Z.of_nat (size (tainted_mems st)) < 2 ^ 64) as Hsize by (vm_compute; reflexivity).
  destruct (tainted_addrs_coalesces h st Hrange Hsize) as [Hjson _].
  split; [reflexivity|]. apply Hjson.
Defined.

(** ** The generic post-hook *)

(** The record is released on every path: its hash, when there is one, and
    then the record itself. *)
Lemma cleanup_Generic_outcome info w :
  cleanup_Generic info w
  = Returns () {| globals := globals w;
                  trace := trace w ++ free_events info |}.
Proof.
  unfold cleanup_Generic, free_events, when, mbind, proc_bind, emit, mret, proc_ret.
  destruct w as [st tr], (argHash info); simpl; by rewrite <- ?(assoc_L (++)).
Qed.

Lemma replay_taint_mem addr size st : replay (taint_mem addr size st) = replay st.
Proof.
  pose proof (frame_taint_mem addr size st) as Hf. unfold frame in Hf. congruence.
Qed.

Lemma no_mutate_taint_mem addr size st : no_mutate (taint_mem addr size st) = no_mutate st.
Proof.
  pose proof (frame_taint_mem addr size st) as Hf. unfold frame in Hf. congruence.
Qed.

Lemma mutate_count_taint_mem addr size st :
  mutate_count (taint_mem addr size st) = mutate_count st.
Proof.
  pose proof (frame_taint_mem addr size st) as Hf. unfold frame in Hf. congruence.
Qed.

(** The whole of the hook, by the answers of the host and the mode of the
    run; a hook that is not sane has no defined outcome. *)
Lemma wrap_post_Generic_outcome h info w :
  let st := globals w in
  let targeted := is_function_targeted h info in
  let tainted :=
    if targeted then taint_mem (lpBuffer info) (nNumberOfBytesToRead info) st else st in
  wrap_post_Generic h info w
  = if negb (is_sane_post_hook h info)
    then Terminates Undefined w
    else
      Returns ()
        {| globals :=
             if replay st && targeted
             then set_mutate_count (uint32 (mutate_count st + 1)) tainted
             else tainted;
           trace :=
             trace w
             ++ [EvIncrementCallCount (function info)]
             ++ (if replay st && targeted
                 then [EvMutexLock]
                      ++ (if no_mutate st then []
                          else [EvRequestReplay (mutate_count st)
                                                (nNumberOfBytesToRead info) (lpBuffer info)])
                      ++ [EvMutexUnlock]
                 else [])
             ++ free_events info |}.
Proof.
  intros st targeted tainted. subst st targeted tainted.
  destruct w as [st tr].
  unfold wrap_post_Generic.
  destruct (is_sane_post_hook h info); cbn [negb]; [|reflexivity].
  unfold when, mbind, proc_bind, emit, modify_globals, get_globals, mret, proc_ret.
  cbn [globals trace].
  destruct (is_function_targeted h info); cbn [globals trace].
  - rewrite replay_taint_mem, no_mutate_taint_mem, mutate_count_taint_mem.
    rewrite andb_true_r.
    destruct (replay st); cbn [globals trace].
    + destruct (no_mutate st); cbn [globals trace];
        rewrite cleanup_Generic_outcome; cbn [globals trace];
        rewrite ?mutate_count_taint_mem, <- ?(assoc_L (++)); reflexivity.
    + rewrite cleanup_Generic_outcome. cbn [globals trace].
      by rewrite <- ?(assoc_L (++)).
  - rewrite andb_false_r. cbn [globals trace].
    rewrite cleanup_Generic_outcome. cbn [globals trace].
    by rewrite <- ?(assoc_L (++)).
Qed.

(** C5, as the code has it: in the generic post-hook for a targeted call,
    the replay mutex is taken, [mutate_count] is incremented and the mutex
    is released exactly when the run is in replay mode, whether or not the
    user opted out of mutation; the server is asked for byte [mutate_count]
    into the buffer, under the mutex and before the increment, exactly when
    the run is in replay mode and the user did not opt out.  Under the
    no-mutate option there is no request to the server, but [mutate_count]
    is incremented all the same. *)
Theorem wrap_post_Generic_targeted (h : host) (info : client_read_info) (w : world) :
  is_sane_post_hook h info = true →
  is_function_targeted h info = true →
  let st := globals w in
  let tainted := taint_mem (lpBuffer info) (nNumberOfBytesToRead info) st in
  wrap_post_Generic h info w
  = Returns ()
      (if replay st
       then
         {| globals := set_mutate_count (uint32 (mutate_count st + 1)) tainted;
            trace := trace w
                     ++ [EvIncrementCallCount (function info); EvMutexLock]
                     ++ (if no_mutate st then []
                         else [EvRequestReplay (mutate_count st) (nNumberOfBytesToRead info)
                                               (lpBuffer info)])
                     ++ [EvMutexUnlock]
                     ++ free_events info |}
       else
         {| globals := tainted;
            trace := trace w ++ [EvIncrementCallCount (function info)]
                     ++ free_events info |}).
Proof.
  intros Hsane Htargeted st tainted. subst st tainted.
  rewrite wrap_post_Generic_outcome, Hsane, Htargeted.
  cbn [negb]. rewrite andb_true_r.
  by destruct (replay (globals w)), (no_mutate (globals w)).
Qed.

Lemma wrap_post_Generic_targeted_witness :
  let h := example_host (example_instr (OP_other 0) [] []) (λ _, 0) (λ _, false)
                        true true true true true true in
  let info := {| lpBuffer := 20480; nNumberOfBytesToRead := 4; argHash := true;
                 function := 7 |} in
  let w := example_world (example_tracer true false ∅ ∅ 4096 8192) in
  wrap_post_Generic h info w
  = Returns ()
      {| globals := set_mutate_count 1 (taint_mem 20480 4 (globals w));
         trace := [EvIncrementCallCount 7; EvMutexLock; EvRequestReplay 0 4 20480;
                   EvMutexUnlock; EvThreadFreeArgHash; EvThreadFreeInfo info] |}.
Proof.
  intros h info w.
  exact (wrap_post_Generic_targeted h info w eq_refl eq_refl).
Defined.

(** C5, as the claim states it, fails under the no-mutate option: for a
    targeted call in a replay run with no-mutate set, the hook makes no
    request to the server, yet it takes the mutex and [mutate_count] goes
    from 0 to 1. *)
Lemma wrap_post_Generic_no_mutate_still_counts :
  let h := example_host (example_instr (OP_other 0) [] []) (λ _, 0) (λ _, false)
                        true true true true true true in
  let info := {| lpBuffer := 20480; nNumberOfBytesToRead := 4; argHash := true;
                 function := 7 |} in
  let st := example_tracer true true ∅ ∅ 4096 8192 in
  ∃ w', wrap_post_Generic h info (example_world st) = Returns () w'
        ∧ no_mutate st = true
        ∧ count_events is_replay_rpc (trace w') = 0%nat
        ∧ EvMutexLock ∈ trace w'
        ∧ mutate_count st = 0
        ∧ mutate_count (globals w') = 1.
Proof.
  intros h info st.
  pose proof (wrap_post_Generic_outcome h info (example_world st)) as Hrun.
  eexists. split; [exact Hrun|].
  split; [reflexivity|]. split; [reflexivity|].
  split; [cbn; rewrite !elem_of_cons; auto|].
  split; reflexivity.
Qed.

(** C6: for an interception whose call the target-selection policy, asked
    by the hook, finds not targeted, the post-hook leaves the tainted memory
    set and [mutate_count] (indeed all the globals) as they are, makes no
    replay request to the server and does not touch the mutex, and the last
    thing it does before it returns is to free the client-read record.  (The
    policy is asked only about a call that [is_sane_post_hook] accepts.) *)
Theorem wrap_post_Generic_not_targeted (h : host) (info : client_read_info) (w : world) :
  is_sane_post_hook h info = true →
  is_function_targeted h info = false →
  ∃ w' io,
    wrap_post_Generic h info w = Returns () w'
    ∧ globals w' = globals w
    ∧ tainted_mems (globals w') = tainted_mems (globals w)
    ∧ mutate_count (globals w') = mutate_count (globals w)
    ∧ trace w' = trace w ++ io
    ∧ count_events is_replay_rpc io = 0%nat
    ∧ count_events is_mutex_event io = 0%nat
    ∧ last io = Some (EvThreadFreeInfo info).
Proof.
  intros Hsane Htargeted.
  pose proof (wrap_post_Generic_outcome h info w) as Hrun.
  cbv zeta in Hrun. rewrite Hsane, Htargeted, andb_false_r in Hrun.
  cbn [negb] in Hrun.
  eexists _, ([EvIncrementCallCount (function info)] ++ [] ++ free_events info).
  split; [exact Hrun|]. cbn [globals trace].
  unfold free_events. by destruct (argHash info).
Qed.

Lemma wrap_post_Generic_not_targeted_witness :
  let h := example_host (example_instr (OP_other 0) [] []) (λ _, 0) (λ _, false)
                        true true true true true false in
  let info := {| lpBuffer := 20480; nNumberOfBytesToRead := 4; argHash := true;
                 function := 7 |} in
  let w := example_world (example_tracer true false ∅ {[4242]} 4096 8192) in
  ∃ w' io,
    wrap_post_Generic h info w = Returns () w'
    ∧ globals w' = globals w
    ∧ tainted_mems (globals w') = tainted_mems (globals w)
    ∧ mutate_count (globals w') = mutate_count (globals w)
    ∧ trace w' = trace w ++ io
    ∧ count_events is_replay_rpc io = 0%nat
    ∧ count_events is_mutex_event io = 0%nat
    ∧ last io = Some (EvThreadFreeInfo info).
Proof.
  intros h info w.
  exact (wrap_post_Generic_not_targeted h info w eq_refl eq_refl).
Defined.

(** * Further properties of the code *)

Set Warnings "-clear-no-such-hyp".

(** ** Registers *)

(** X1: canonicalisation is idempotent, and a register it does change goes
    to one of the sixteen 64-bit registers that the crash report lists. *)
Theorem reg_to_full_width64_idempotent (reg : reg_id_t) :
  reg_to_full_width64 (reg_to_full_width64 reg) = reg_to_full_width64 reg
  ∧ (reg_to_full_width64 reg ≠ reg → reg_to_full_width64 reg ∈ regs).
Proof.
  split; [by destruct reg|].
  unfold regs. destruct reg; simpl; intros Hne; try done;
    rewrite !elem_of_cons; auto 20.
Qed.

Lemma reg_to_full_width64_idempotent_witness :
  reg_to_full_width64 (reg_to_full_width64 DR_REG_R9W) = reg_to_full_width64 DR_REG_R9W
  ∧ reg_to_full_width64 DR_REG_R9W ∈ regs.
Proof.
  split; [apply (reg_to_full_width64_idempotent DR_REG_R9W)|].
  apply (reg_to_full_width64_idempotent DR_REG_R9W). discriminate.
Defined.

(** X2: widening to 32 bits first changes nothing for the taint tracking:
    the full 64-bit width of the result is that of the register itself. *)
Theorem reg_to_full_width64_after_32 (reg : reg_id_t) :
  reg_to_full_width64 (reg_to_full_width32 reg) = reg_to_full_width64 reg
  ∧ reg_to_full_width32 (reg_to_full_width32 reg) = reg_to_full_width32 reg.
Proof. by destruct reg. Qed.

(** ** The shadow state *)

Lemma elem_of_byte_range a addr size :
  a ∈ byte_range addr size ↔ ∃ i, 0 ≤ i < size ∧ a = ptr_add addr i.
Proof.
  unfold byte_range. rewrite elem_of_list_to_set, list_elem_of_fmap.
  split.
  - intros (i & -> & Hi%elem_of_seqZ). exists i. split; [lia|done].
  - intros (i & Hi & ->). exists i. split; [done|]. apply elem_of_seqZ. lia.
Qed.

Lemma taint_mem_shadow addr size st :
  tainted_mems (taint_mem addr size st) = byte_range addr size ∪ tainted_mems st
  ∧ tainted_regs (taint_mem addr size st) = tainted_regs st.
Proof.
  unfold taint_mem, byte_range. generalize (seqZ 0 size). intros l. revert st.
  induction l as [|i l IH]; intros st; simpl.
  - split; [set_solver|done].
  - destruct (IH (set_tainted_mems (λ s, {[ptr_add addr i]} ∪ s) st)) as [-> ->].
    simpl. split; [set_solver|done].
Qed.

Lemma untaint_mem_shadow addr size st :
  tainted_mems (untaint_mem addr size st).2 = tainted_mems st ∖ byte_range addr size
  ∧ tainted_regs (untaint_mem addr size st).2 = tainted_regs st
  ∧ ((untaint_mem addr size st).1 = true
     ↔ ∃ a, a ∈ byte_range addr size ∧ a ∈ tainted_mems st).
Proof.
  unfold untaint_mem, byte_range.
  assert (∀ l u st,
    let r := foldl (λ '(untainted, st) i,
                      let n := bool_decide (ptr_add addr i ∈ tainted_mems st) in
                      (if n then true else untainted,
                       set_tainted_mems (λ s, s ∖ {[ptr_add addr i]}) st))
                   (u, st) l in
    tainted_mems r.2 = tainted_mems st ∖ list_to_set (ptr_add addr <$> l)
    ∧ tainted_regs r.2 = tainted_regs st
    ∧ (r.1 = true ↔ u = true ∨ ∃ a, a ∈ ptr_add addr <$> l ∧ a ∈ tainted_mems st)) as Hgen.
  { induction l as [|i l IH]; intros u s; simpl.
    - split; [set_solver|]. split; [done|]. set_solver.
    - specialize (IH (if bool_decide (ptr_add addr i ∈ tainted_mems s) then true else u)
                     (set_tainted_mems (λ m, m ∖ {[ptr_add addr i]}) s)).
      simpl in IH. destruct IH as (-> & -> & ->). simpl.
      split; [set_solver|]. split; [done|].
      case_bool_decide as Hin.
      + split; [|by left]. intros _. right. exists (ptr_add addr i). set_solver.
      + split.
        * intros [?|(a & Ha & Hm)]; [by left|]. right. exists a. set_solver.
        * intros [?|(a & Ha & Hm)]; [by left|]. right. exists a.
          split; [set_solver|]. apply elem_of_difference. split; [done|].
          apply elem_of_cons in Ha as [->|Ha]; [done|].
          intros ->%elem_of_singleton. done. }
  specialize (Hgen (seqZ 0 size) false st). simpl in Hgen.
  destruct Hgen as (H1 & H2 & H3). split; [done|]. split; [done|].
  rewrite H3. split.
  - intros [?|(a & Ha & Hm)]; [done|]. exists a. by rewrite elem_of_list_to_set.
  - intros (a & Ha & Hm). right. exists a. by rewrite elem_of_list_to_set in Ha.
Qed.

(** X3: [taint_mem] marks exactly the [size] bytes from [addr] on (with the
    wrap-around of the address): afterwards an address is tainted if and only
    if it was tainted before or is one of these bytes, and the tainted
    registers are the same. *)
Theorem taint_mem_marks_range (addr : app_pc) (size : Z) (st : tracer) (a : app_pc) :
  (a ∈ tainted_mems (taint_mem addr size st)
   ↔ a ∈ tainted_mems st ∨ ∃ i, 0 ≤ i < size ∧ a = ptr_add addr i)
  ∧ tainted_regs (taint_mem addr size st) = tainted_regs st.
Proof.
  destruct (taint_mem_shadow addr size st) as [-> ->]. split; [|done].
  rewrite elem_of_union, elem_of_byte_range. tauto.
Qed.

(** X4: [untaint_mem] unmarks exactly these bytes and leaves every other
    address and the registers as they are; its result is [true] if and only
    if one of the bytes was tainted. *)
Theorem untaint_mem_unmarks_range (addr : app_pc) (size : Z) (st : tracer) (a : app_pc) :
  (a ∈ tainted_mems (untaint_mem addr size st).2
   ↔ a ∈ tainted_mems st ∧ ¬ ∃ i, 0 ≤ i < size ∧ a = ptr_add addr i)
  ∧ tainted_regs (untaint_mem addr size st).2 = tainted_regs st
  ∧ ((untaint_mem addr size st).1 = true
     ↔ ∃ i, 0 ≤ i < size ∧ ptr_add addr i ∈ tainted_mems st).
Proof.
  destruct (untaint_mem_shadow addr size st) as (-> & -> & ->).
  split; [|split; [done|]].
  - rewrite elem_of_difference, elem_of_byte_range. tauto.
  - split.
    + intros (b & (i & Hi & ->)%elem_of_byte_range & Hb). eauto.
    + intros (i & Hi & Hb). exists (ptr_add addr i). split; [|done].
      apply elem_of_byte_range. eauto.
Qed.

Lemma taint_shadow h opnd st :
  tainted_regs (taint h opnd st) = opnd_regs [opnd] ∪ tainted_regs st
  ∧ tainted_mems (taint h opnd st) = opnd_bytes h [opnd] ∪ tainted_mems st.
Proof.
  unfold opnd_regs, opnd_bytes.
  destruct opnd; simpl; try (split; set_solver).
  - destruct (taint_mem_shadow
                (opnd_compute_address h (OPND_BASE_DISP base index scale disp size)
                                      (dr_get_mcontext h)) size st) as [-> ->].
    split; set_solver.
  - destruct (taint_mem_shadow
                (opnd_compute_address h (OPND_ABS_ADDR addr size) (dr_get_mcontext h))
                size st) as [-> ->].
    split; set_solver.
Qed.

Lemma untaint_shadow h opnd st :
  tainted_regs (untaint h opnd st).2 = tainted_regs st ∖ opnd_regs [opnd]
  ∧ tainted_mems (untaint h opnd st).2 = tainted_mems st ∖ opnd_bytes h [opnd].
Proof.
  unfold opnd_regs, opnd_bytes.
  destruct opnd; simpl; try (split; set_solver).
  - destruct (untaint_mem_shadow
                (opnd_compute_address h (OPND_BASE_DISP base index scale disp size)
                                      (dr_get_mcontext h)) size st) as (-> & -> & _).
    split; set_solver.
  - destruct (untaint_mem_shadow
                (opnd_compute_address h (OPND_ABS_ADDR addr size) (dr_get_mcontext h))
                size st) as (-> & -> & _).
    split; set_solver.
Qed.

Lemma opnd_regs_cons opnd opnds : opnd_regs (opnd :: opnds) = opnd_regs [opnd] ∪ opnd_regs opnds.
Proof. unfold opnd_regs. destruct opnd; simpl; set_solver. Qed.

Lemma opnd_bytes_cons h opnd opnds :
  opnd_bytes h (opnd :: opnds) = opnd_bytes h [opnd] ∪ opnd_bytes h opnds.
Proof. unfold opnd_bytes. simpl. set_solver. Qed.

Lemma foldl_taint_shadow h opnds st :
  tainted_regs (foldl (λ st opnd, taint h opnd st) st opnds) = opnd_regs opnds ∪ tainted_regs st
  ∧ tainted_mems (foldl (λ st opnd, taint h opnd st) st opnds)
    = opnd_bytes h opnds ∪ tainted_mems st.
Proof.
  revert st. induction opnds as [|opnd opnds IH]; intros st; simpl.
  - unfold opnd_regs, opnd_bytes. simpl. split; set_solver.
  - destruct (IH (taint h opnd st)) as [-> ->].
    destruct (taint_shadow h opnd st) as [-> ->].
    rewrite (opnd_regs_cons opnd opnds), (opnd_bytes_cons h opnd opnds).
    generalize (opnd_regs [opnd]) (opnd_regs opnds) (tainted_regs st)
               (opnd_bytes h [opnd]) (opnd_bytes h opnds) (tainted_mems st).
    clear IH. intros. split; set_solver.
Qed.

Lemma foldl_untaint_shadow h opnds st :
  tainted_regs (foldl (λ st opnd, (untaint h opnd st).2) st opnds)
  = tainted_regs st ∖ opnd_regs opnds
  ∧ tainted_mems (foldl (λ st opnd, (untaint h opnd st).2) st opnds)
    = tainted_mems st ∖ opnd_bytes h opnds.
Proof.
  revert st. induction opnds as [|opnd opnds IH]; intros st; simpl.
  - unfold opnd_regs, opnd_bytes. simpl. split; set_solver.
  - destruct (IH (untaint h opnd st).2) as [-> ->].
    destruct (untaint_shadow h opnd st) as [-> ->].
    rewrite (opnd_regs_cons opnd opnds), (opnd_bytes_cons h opnd opnds).
    generalize (opnd_regs [opnd]) (opnd_regs opnds) (tainted_regs st)
               (opnd_bytes h [opnd]) (opnd_bytes h opnds) (tainted_mems st).
    clear IH. intros. split; set_solver.
Qed.

(** [is_tainted] reads the two sets only, and grows with them. *)
Lemma is_tainted_mono h st st' opnd :
  tainted_regs st ⊆ tainted_regs st' → tainted_mems st ⊆ tainted_mems st' →
  is_tainted h st opnd = true → is_tainted h st' opnd = true.
Proof.
  intros Hr Hm. unfold is_tainted.
  destruct opnd; try done.
  - rewrite !bool_decide_eq_true. apply Hr.
  - simpl.
    destruct (existsb _ _) eqn:Hex.
    + intros _. apply existsb_exists in Hex as (i & Hi & Hin%bool_decide_eq_true).
      assert (existsb (λ i, bool_decide
                (ptr_add (opnd_compute_address h (OPND_BASE_DISP base index scale disp size)
                                               (dr_get_mcontext h)) i ∈ tainted_mems st'))
                (seqZ 0 size) = true) as ->; [|done].
      apply existsb_exists. exists i. split; [done|]. apply bool_decide_eq_true. by apply Hm.
    + assert (∀ r, bool_decide (r ∈ tainted_regs st) = true →
                   bool_decide (r ∈ tainted_regs st') = true) as Hd.
      { intros r Hin%bool_decide_eq_true. apply bool_decide_eq_true. by apply Hr. }
      destruct (bool_decide (base ≠ DR_REG_NULL)),
        (bool_decide (reg_id_of_int h disp ≠ DR_REG_NULL)),
        (bool_decide (index ≠ DR_REG_NULL)); simpl;
        repeat match goal with
        | |- context [bool_decide (?r ∈ tainted_regs st)] =>
          let H := fresh in
          destruct (bool_decide (r ∈ tainted_regs st)) eqn:H;
            [rewrite (Hd _ H)|]
        end; simpl; try done;
        repeat (destruct (bool_decide _); simpl; try done);
        intros _; clear Hex;
        match goal with |- (if ?e then true else true) = true => by destruct e end.
  - simpl.
    destruct (existsb _ _) eqn:Hex; [|done].
    intros _. apply existsb_exists in Hex as (i & Hi & Hin%bool_decide_eq_true).
    assert (existsb (λ i, bool_decide
              (ptr_add (opnd_compute_address h (OPND_ABS_ADDR addr size)
                                             (dr_get_mcontext h)) i ∈ tainted_mems st'))
              (seqZ 0 size) = true) as ->; [|done].
    apply existsb_exists. exists i. split; [done|]. apply bool_decide_eq_true. by apply Hm.
Qed.

Lemma is_tainted_ext h st st' opnd :
  tainted_regs st = tainted_regs st' → tainted_mems st = tainted_mems st' →
  is_tainted h st opnd = is_tainted h st' opnd.
Proof.
  intros Hr Hm.
  destruct (is_tainted h st opnd) eqn:H1, (is_tainted h st' opnd) eqn:H2; try done.
  - eapply is_tainted_mono in H1; [by rewrite H1 in H2|by rewrite Hr|by rewrite Hm].
  - eapply is_tainted_mono in H2; [by rewrite H2 in H1|by rewrite Hr|by rewrite Hm].
Qed.

Lemma existsb_is_tainted_ext h st st' (opnds : list opnd_t) :
  tainted_regs st = tainted_regs st' → tainted_mems st = tainted_mems st' →
  existsb (is_tainted h st) opnds = existsb (is_tainted h st') opnds.
Proof.
  intros Hr Hm. induction opnds as [|opnd opnds IH]; simpl; [done|].
  by rewrite IH, (is_tainted_ext h st st' opnd Hr Hm).
Qed.

(** X5: what [taint] marks, [is_tainted] finds: a register operand, or a
    memory operand of at least one byte, is tainted once [taint] has been
    applied to it, whatever the state was.  (An operand of another kind, or
    a memory operand of no bytes, is left alone by [taint].) *)
Theorem taint_then_is_tainted (h : host) (opnd : opnd_t) (st : tracer) :
  opnd_is_reg_or_bytes opnd = true →
  is_tainted h (taint h opnd st) opnd = true.
Proof.
  unfold opnd_is_reg_or_bytes.
  destruct opnd; try done; intros Hsize.
  - simpl. apply bool_decide_eq_true. set_solver.
  - apply bool_decide_eq_true in Hsize.
    unfold is_tainted.
    assert (existsb (λ i, bool_decide
              (ptr_add (opnd_compute_address h (OPND_BASE_DISP base index scale disp size)
                                             (dr_get_mcontext h)) i
               ∈ tainted_mems (taint h (OPND_BASE_DISP base index scale disp size) st)))
              (seqZ 0 (opnd_size_in_bytes (OPND_BASE_DISP base index scale disp size))) = true)
      as ->; [|done].
    apply existsb_exists. exists 0. split; [apply list_elem_of_In, elem_of_seqZ; simpl in *; lia|].
    apply bool_decide_eq_true.
    destruct (taint_shadow h (OPND_BASE_DISP base index scale disp size) st) as [_ ->].
    apply elem_of_union. left. unfold opnd_bytes. simpl.
    rewrite union_empty_r_L. apply elem_of_byte_range. exists 0. simpl in *. split; [lia|done].
  - apply bool_decide_eq_true in Hsize.
    unfold is_tainted.
    assert (existsb (λ i, bool_decide
              (ptr_add (opnd_compute_address h (OPND_ABS_ADDR addr size) (dr_get_mcontext h)) i
               ∈ tainted_mems (taint h (OPND_ABS_ADDR addr size) st)))
              (seqZ 0 (opnd_size_in_bytes (OPND_ABS_ADDR addr size))) = true)
      as ->; [|done].
    apply existsb_exists. exists 0. split; [apply list_elem_of_In, elem_of_seqZ; simpl in *; lia|].
    apply bool_decide_eq_true.
    destruct (taint_shadow h (OPND_ABS_ADDR addr size) st) as [_ ->].
    apply elem_of_union. left. unfold opnd_bytes. simpl.
    rewrite union_empty_r_L. apply elem_of_byte_range. exists 0. simpl in *. split; [lia|done].
Qed.

Lemma taint_then_is_tainted_witness :
  let h := example_host (example_instr (OP_other 0) [] []) (λ _, 4000) (λ _, false)
                        true true true true true true in
  let st := example_tracer false false ∅ ∅ 4096 8192 in
  let slot := OPND_BASE_DISP DR_REG_RSP DR_REG_NULL 0 (-8) 8 in
  is_tainted h st slot = false ∧ is_tainted h (taint h slot st) slot = true.
Proof.
  intros h st slot. split; [reflexivity|].
  apply (taint_then_is_tainted h slot st). reflexivity.
Defined.

(** X6: after [untaint], a register operand is not tainted any more and no
    byte of a memory operand is left in the tainted memory set; the result
    of [untaint] is [true] if and only if it removed something. *)
Theorem untaint_then_not_tainted (h : host) (opnd : opnd_t) (st : tracer) :
  (∀ reg, opnd = OPND_REG reg → is_tainted h (untaint h opnd st).2 opnd = false)
  ∧ (∀ a, a ∈ opnd_bytes h [opnd] → a ∉ tainted_mems (untaint h opnd st).2)
  ∧ ((untaint h opnd st).1 = true
     ↔ (∃ r, r ∈ opnd_regs [opnd] ∧ r ∈ tainted_regs st)
       ∨ (∃ a, a ∈ opnd_bytes h [opnd] ∧ a ∈ tainted_mems st)).
Proof.
  split; [|split].
  - intros reg ->. simpl. apply bool_decide_eq_false. set_solver.
  - intros a Ha. destruct (untaint_shadow h opnd st) as [_ ->]. set_solver.
  - unfold opnd_regs, opnd_bytes. destruct opnd; simpl.
    + rewrite bool_decide_eq_true. split.
      * intros Hin. left. exists (reg_to_full_width64 reg). set_solver.
      * intros [(r & Hr & Hin)|(a & Ha & _)]; set_solver.
    + destruct (untaint_mem_shadow
                  (opnd_compute_address h (OPND_BASE_DISP base index scale disp size)
                                        (dr_get_mcontext h)) size st) as (_ & _ & ->).
      rewrite union_empty_r_L. split; [by right|].
      intros [(r & Hr & _)|?]; [set_solver|done].
    + destruct (untaint_mem_shadow
                  (opnd_compute_address h (OPND_ABS_ADDR addr size) (dr_get_mcontext h))
                  size st) as (_ & _ & ->).
      rewrite union_empty_r_L. split; [by right|].
      intros [(r & Hr & _)|?]; [set_solver|done].
    + split; [done|]. intros [(r & Hr & _)|(a & Ha & _)]; set_solver.
    + split; [done|]. intros [(r & Hr & _)|(a & Ha & _)]; set_solver.
    + split; [done|]. intros [(r & Hr & _)|(a & Ha & _)]; set_solver.
Qed.

Lemma untaint_then_not_tainted_witness :
  let h := example_host (example_instr (OP_other 0) [] []) (λ _, 4000) (λ _, false)
                        true true true true true true in
  let st := example_tracer false false {[DR_REG_RAX]} {[3992; 3993]} 4096 8192 in
  let slot := OPND_BASE_DISP DR_REG_RSP DR_REG_NULL 0 (-8) 8 in
  is_tainted h (untaint h (OPND_REG DR_REG_EAX) st).2 (OPND_REG DR_REG_EAX) = false
  ∧ 3992 ∉ tainted_mems (untaint h slot st).2.
Proof.
  intros h st slot. split.
  - by apply (untaint_then_not_tainted h (OPND_REG DR_REG_EAX) st) with DR_REG_EAX.
  - apply (untaint_then_not_tainted h slot st).
    unfold opnd_bytes, slot. simpl. rewrite union_empty_r_L.
    apply elem_of_byte_range. exists 0. split; [lia|reflexivity].
Defined.

(** ** How the shadow state changes *)

(** Every change that [propagate_taint] makes to the two sets is one of
    four: a canonical register or the program counter token goes in, a
    register goes out, a byte address (reduced to 64 bits) goes in, a byte
    address goes out.  So whatever these four keep, [propagate_taint]
    keeps. *)
Section shadow_invariant.
Variable P : gset reg_id_t → gset app_pc → Prop.
Hypothesis P_reg_in : ∀ R M reg, P R M → P ({[reg_to_full_width64 reg]} ∪ R) M.
Hypothesis P_reg_out : ∀ R M reg, P R M → P (R ∖ {[reg]}) M.
Hypothesis P_mem_in : ∀ R M addr i, P R M → P R ({[ptr_add addr i]} ∪ M).
Hypothesis P_mem_out : ∀ R M a, P R M → P R (M ∖ {[a]}).

Let holds (st : tracer) : Prop := P (tainted_regs st) (tainted_mems st).

Lemma foldl_holds {B} (f : tracer → B → tracer) (l : list B) st :
  (∀ st b, holds st → holds (f st b)) → holds st → holds (foldl f st l).
Proof.
  intros Hf. revert st. induction l as [|b l IH]; intros st Hst; simpl; auto.
Qed.

Lemma taint_mem_holds addr size st : holds st → holds (taint_mem addr size st).
Proof.
  unfold taint_mem. apply foldl_holds. intros s i Hs. by apply P_mem_in.
Qed.

Lemma untaint_mem_holds addr size st : holds st → holds (untaint_mem addr size st).2.
Proof.
  unfold untaint_mem. generalize false. generalize (seqZ 0 size). intros l. revert st.
  induction l as [|i l IH]; intros st u Hst; simpl; [done|].
  apply IH. by apply P_mem_out.
Qed.

Lemma taint_holds h opnd st : holds st → holds (taint h opnd st).
Proof.
  destruct opnd; simpl; try done.
  - intros Hst. by apply P_reg_in.
  - apply taint_mem_holds.
  - apply taint_mem_holds.
Qed.

Lemma untaint_holds h opnd st : holds st → holds (untaint h opnd st).2.
Proof.
  destruct opnd; simpl; try done.
  - intros Hst. by apply P_reg_out.
  - apply untaint_mem_holds.
  - apply untaint_mem_holds.
Qed.

Lemma handle_xor_holds instr st : holds st → holds (handle_xor instr st).2.
Proof.
  unfold handle_xor. intros Hst.
  destruct (instr_srcs instr) as [|[] [|[] []]]; simpl; try done.
  case_bool_decide; simpl; [by apply P_reg_out|done].
Qed.

Lemma handle_xchg_holds instr st : holds st → holds (handle_xchg instr st).2.
Proof.
  unfold handle_xchg. intros Hst.
  destruct (instr_srcs instr) as [|[] [|[] []]]; simpl; try done.
  destruct (_ && _); simpl; [by apply P_reg_in, P_reg_out|].
  destruct (_ && _); simpl; [by apply P_reg_in, P_reg_out|done].
Qed.

Lemma handle_push_pop_holds h instr st : holds st → holds (handle_push_pop h instr st).
Proof.
  unfold handle_push_pop. intros Hst.
  destruct (existsb _ _); apply foldl_holds; try done; intros s opnd Hs;
    destruct (is_rsp_opnd opnd); auto using taint_holds, untaint_holds.
Qed.

Lemma handle_branches_holds h instr st : holds st → holds (handle_branches h instr st).2.
Proof.
  unfold handle_branches. intros Hst.
  destruct (negb (instr_is_return instr) && _ && _ && _); [done|].
  cbv zeta. simpl snd.
  set (st1 := if instr_is_call instr && _ then _ else st).
  assert (holds st1) as H1.
  { unfold st1. destruct (_ && _); [|done]. destruct (find _ _); [|done].
    by apply taint_holds. }
  clearbody st1.
  set (st2 := if _ && _ then _ else st1).
  assert (holds st2) as H2.
  { unfold st2. destruct (_ && _); [|done]. by apply (P_reg_out _ _ DR_REG_NULL). }
  clearbody st2.
  set (st3 := if instr_is_mbr instr then _ else st2).
  assert (holds st3) as H3.
  { unfold st3. destruct (instr_is_mbr instr); [|done].
    apply foldl_holds; [|done]. intros s opnd Hs. destruct opnd; try done.
    destruct (_ && _); [|done]. by apply (P_reg_in _ _ DR_REG_NULL). }
  clearbody st3.
  destruct (instr_is_return instr); [|done].
  destruct (existsb _ _).
  - by apply (P_reg_in _ _ DR_REG_NULL).
  - by apply (P_reg_out _ _ DR_REG_NULL).
Qed.

Lemma handle_specific_holds h instr st : holds st → holds (handle_specific h instr st).2.
Proof.
  unfold handle_specific. intros Hst.
  pose proof (handle_branches_holds h instr st Hst) as Hb.
  destruct (handle_branches h instr st) as [[] st']; simpl in *; [done|].
  destruct (instr_get_opcode instr); simpl; try done.
  - by apply handle_push_pop_holds.
  - by apply handle_push_pop_holds.
  - by apply handle_xor_holds.
  - by apply handle_xchg_holds.
Qed.

Lemma propagate_tail_holds h instr st : holds st → holds (propagate_tail h instr st).
Proof.
  unfold propagate_tail. intros Hst.
  pose proof (handle_specific_holds h instr st Hst) as Hs.
  destruct (handle_specific h instr st) as [[] st']; simpl in *; [done|].
  destruct (existsb _ _); apply foldl_holds; auto using taint_holds, untaint_holds.
Qed.

End shadow_invariant.

(** [propagate_taint] is the two ring updates, which leave the two sets
    alone, and then, unless both sets are empty, the handlers and the
    generic rule. *)
Lemma propagate_taint_decompose h pc st :
  ∃ st2,
    tainted_regs st2 = tainted_regs st ∧ tainted_mems st2 = tainted_mems st
    ∧ propagate_taint h pc st
      = if bool_decide (tainted_mems st = ∅) && bool_decide (tainted_regs st = ∅)
        then st2
        else propagate_tail h (decode h pc) st2.
Proof.
  unfold propagate_taint, propagate_tail, ring_store. cbv zeta.
  set (st1 := if in_module st pc then _ else st).
  assert (tainted_regs st1 = tainted_regs st ∧ tainted_mems st1 = tainted_mems st) as [Hr Hm].
  { unfold st1. by destruct (in_module st pc). }
  rewrite !size_zero_empty, Hr, Hm.
  destruct (_ && _).
  - by exists st1.
  - match goal with |- context [handle_specific h _ ?s] => exists s end.
    split; [|split; [|reflexivity]].
    + by destruct (instr_is_call (decode h pc)),
        (opnd_is_memory_reference (instr_get_target (decode h pc))), (in_module st1 pc).
    + by destruct (instr_is_call (decode h pc)),
        (opnd_is_memory_reference (instr_get_target (decode h pc))), (in_module st1 pc).
Qed.

Lemma propagate_taint_holds (P : gset reg_id_t → gset app_pc → Prop) h pc st :
  (∀ R M reg, P R M → P ({[reg_to_full_width64 reg]} ∪ R) M) →
  (∀ R M reg, P R M → P (R ∖ {[reg]}) M) →
  (∀ R M addr i, P R M → P R ({[ptr_add addr i]} ∪ M)) →
  (∀ R M a, P R M → P R (M ∖ {[a]})) →
  P (tainted_regs st) (tainted_mems st) →
  P (tainted_regs (propagate_taint h pc st)) (tainted_mems (propagate_taint h pc st)).
Proof.
  intros H1 H2 H3 H4 Hst.
  destruct (propagate_taint_decompose h pc st) as (st2 & Hr & Hm & ->).
  destruct (_ && _); [by rewrite Hr, Hm|].
  apply propagate_tail_holds; try done. by rewrite Hr, Hm.
Qed.

(** The whole of [wrap_post_MapViewOfFile], by the answers of the host. *)
Lemma wrap_post_MapViewOfFile_outcome h view info w :
  let st := globals w in
  let info' := mapped_info view info in
  let targeted := is_function_targeted h info' in
  let tainted :=
    if targeted then taint_mem (lpBuffer info') (nNumberOfBytesToRead info') st else st in
  let replayed := GetMappedFileName view && replay st && targeted in
  wrap_post_MapViewOfFile h view info w
  = if negb (is_sane_post_hook h info)
    then Terminates Undefined w
    else
      Returns ()
        {| globals :=
             if replayed
             then set_mutate_count (uint32 (mutate_count st + 1)) tainted
             else tainted;
           trace :=
             trace w
             ++ [EvIncrementCallCount (function info)]
             ++ (if replayed
                 then [EvMutexLock]
                      ++ (if no_mutate st then []
                          else [EvRequestReplay (mutate_count st)
                                                (nNumberOfBytesToRead info') (lpBuffer info')])
                      ++ [EvMutexUnlock]
                 else [])
             ++ [EvThreadFreeArgHash; EvThreadFreeInfo info'] |}.
Proof.
  intros st info' targeted tainted replayed. subst st info' targeted tainted replayed.
  destruct w as [st tr].
  unfold wrap_post_MapViewOfFile, cleanup_MapViewOfFile.
  unfold when, mbind, proc_bind, emit, modify_globals, get_globals, mret, proc_ret.
  destruct (is_sane_post_hook h info); cbn [negb globals trace].
  2: { by rewrite <- ?(assoc_L (++)). }
  assert ((if bool_decide (nNumberOfBytesToRead info = 0)
           then {| lpBuffer := drwrap_get_retval view; nNumberOfBytesToRead := RegionSize view;
                   argHash := argHash info; function := function info |}
           else {| lpBuffer := drwrap_get_retval view;
                   nNumberOfBytesToRead := nNumberOfBytesToRead info;
                   argHash := argHash info; function := function info |})
          = mapped_info view info) as Hinfo.
  { unfold mapped_info. by case_bool_decide. }
  cbn [lpBuffer nNumberOfBytesToRead argHash function]. rewrite Hinfo.
  replace (function info) with (function (mapped_info view info)) by done.
  generalize (mapped_info view info). intros info'.
  destruct (is_function_targeted h info'); cbn [globals trace].
  - rewrite replay_taint_mem, no_mutate_taint_mem, mutate_count_taint_mem.
    destruct (GetMappedFileName view), (replay st); cbn [negb andb globals trace];
      try (destruct (no_mutate st)); cbn [globals trace];
      rewrite ?mutate_count_taint_mem, <- ?(assoc_L (++)); reflexivity.
  - rewrite !andb_false_r. cbn [globals trace].
    by rewrite <- ?(assoc_L (++)).
Qed.

(** Over a run, what the four primitive changes keep is kept. *)
Lemma callbacks_run_holds (P : gset reg_id_t → gset app_pc → Prop) cs w :
  (∀ R M reg, P R M → P ({[reg_to_full_width64 reg]} ∪ R) M) →
  (∀ R M reg, P R M → P (R ∖ {[reg]}) M) →
  (∀ R M addr i, P R M → P R ({[ptr_add addr i]} ∪ M)) →
  (∀ R M a, P R M → P R (M ∖ {[a]})) →
  P (tainted_regs (globals w)) (tainted_mems (globals w)) →
  P (tainted_regs (globals (callbacks_run cs w)))
    (tainted_mems (globals (callbacks_run cs w))).
Proof.
  intros H1 H2 H3 H4. unfold callbacks_run. revert w.
  induction cs as [|c cs IH]; intros w Hw; simpl; [done|].
  apply IH. destruct c as [h pc|h info|h view info]; simpl.
  - by apply propagate_taint_holds.
  - rewrite wrap_post_Generic_outcome. simpl.
    destruct (negb _); simpl; [done|].
    assert (P (tainted_regs (if is_function_targeted h info
                             then taint_mem (lpBuffer info) (nNumberOfBytesToRead info)
                                            (globals w)
                             else globals w))
              (tainted_mems (if is_function_targeted h info
                             then taint_mem (lpBuffer info) (nNumberOfBytesToRead info)
                                            (globals w)
                             else globals w))) as Ht.
    { destruct (is_function_targeted h info); [|done]. by apply taint_mem_holds. }
    by destruct (_ && _).
  - rewrite wrap_post_MapViewOfFile_outcome. simpl.
    destruct (negb _); simpl; [done|].
    set (info' := mapped_info view info).
    assert (P (tainted_regs (if is_function_targeted h info'
                             then taint_mem (lpBuffer info') (nNumberOfBytesToRead info')
                                            (globals w)
                             else globals w))
              (tainted_mems (if is_function_targeted h info'
                             then taint_mem (lpBuffer info') (nNumberOfBytesToRead info')
                                            (globals w)
                             else globals w))) as Ht.
    { destruct (is_function_targeted h info'); [|done]. by apply taint_mem_holds. }
    by destruct (_ && _ && _).
Qed.

(** X7: a register that [reg_to_full_width64] rewrites ([eax], [ax], [al],
    [r8d], ...) never enters the tainted register set.  If every tainted
    register is one that [reg_to_full_width64] leaves as it is before a run
    of callbacks (clean calls of [propagate_taint] and post-hooks, in any
    order and with any host), this is so after the run.  (A register the
    switch has no case for, such as [sil], is left as it is and is stored
    under its own name.) *)
Theorem callbacks_run_regs_canonical (cs : list callback) (w : world) :
  (∀ r, r ∈ tainted_regs (globals w) → reg_to_full_width64 r = r) →
  ∀ r, r ∈ tainted_regs (globals (callbacks_run cs w)) → reg_to_full_width64 r = r.
Proof.
  intros Hw.
  apply (callbacks_run_holds (λ R _, ∀ r, r ∈ R → reg_to_full_width64 r = r)); try done.
  - intros R _ reg HR r [->%elem_of_singleton|Hr]%elem_of_union; [|by apply HR].
    by destruct reg.
  - intros R _ reg HR r [Hr _]%elem_of_difference. by apply HR.
Qed.

Lemma callbacks_run_regs_canonical_witness :
  let h := example_host (example_instr (OP_other 0) [OPND_REG DR_REG_AX] [OPND_REG DR_REG_BL])
                        (λ _, 0) (λ _, false) true true true true true true in
  let w := example_world (example_tracer false false {[DR_REG_RAX]} ∅ 4096 8192) in
  tainted_regs (globals (callbacks_run [CbPropagate h 4100] w)) = {[DR_REG_RAX; DR_REG_RBX]}
  ∧ ∀ r, r ∈ tainted_regs (globals (callbacks_run [CbPropagate h 4100] w)) →
         reg_to_full_width64 r = r.
Proof.
  intros h w. split; [by vm_compute|].
  apply (callbacks_run_regs_canonical [CbPropagate h 4100] w).
  intros r Hr. simpl in Hr. apply elem_of_singleton in Hr as ->. reflexivity.
Defined.

(** ** The fast path and the trace rings *)

Lemma is_tainted_clean h st opnd :
  tainted_regs st = ∅ → tainted_mems st = ∅ → is_tainted h st opnd = false.
Proof.
  intros Hr Hm. unfold is_tainted. rewrite Hr, Hm.
  destruct opnd; try done.
  - simpl. destruct (existsb _ _) eqn:Hex.
    + apply existsb_exists in Hex as (i & _ & Hin%bool_decide_eq_true). set_solver.
    + rewrite !(bool_decide_eq_false_2 (_ ∈ ∅)) by set_solver.
      by rewrite !andb_false_r.
  - simpl. destruct (existsb _ _) eqn:Hex; [|done].
    apply existsb_exists in Hex as (i & _ & Hin%bool_decide_eq_true). set_solver.
Qed.

(** X9: taint never comes out of nothing.  While no register and no byte is
    tainted, a run of [propagate_taint] leaves both sets empty, and it
    records no call either: the call ring stays as it is, since the call is
    looked at only after the early return. *)
Theorem propagate_run_clean (calls : list (host * app_pc)) (st : tracer) :
  tainted_regs st = ∅ → tainted_mems st = ∅ →
  tainted_regs (propagate_run calls st) = ∅
  ∧ tainted_mems (propagate_run calls st) = ∅
  ∧ call_ring_unchanged st (propagate_run calls st).
Proof.
  unfold propagate_run, call_ring_unchanged. revert st.
  induction calls as [|[h pc] calls IH]; intros st Hr Hm; simpl; [done|].
  destruct (propagate_taint_decompose h pc st) as (st2 & Hr2 & Hm2 & Hrun).
  rewrite Hr, Hm, !bool_decide_eq_true_2 in Hrun by done. simpl in Hrun.
  pose proof (propagate_taint_call_view h pc st) as Hv.
  rewrite !size_zero_empty, Hr, Hm, !bool_decide_eq_true_2 in Hv by done.
  simpl in Hv. unfold call_view in Hv. injection Hv as Hi Hl.
  destruct (IH (propagate_taint h pc st)) as (-> & -> & -> & ->);
    [rewrite Hrun; congruence | rewrite Hrun; congruence|].
  by rewrite Hi, Hl.
Qed.

Lemma propagate_run_clean_witness :
  let h := example_host (example_call (OPND_ABS_ADDR 5000 8)) (λ _, 0) (λ _, false)
                        true true true true true true in
  let st := example_tracer false false ∅ ∅ 4096 8192 in
  last_calls (propagate_run [(h, 4100); (h, 4200)] st) = [0; 0; 0; 0; 0]
  ∧ last_insns (propagate_run [(h, 4100); (h, 4200)] st) = [4100; 4200; 0; 0; 0].
Proof.
  intros h st. split; [|reflexivity].
  destruct (propagate_run_clean [(h, 4100); (h, 4200)] st eq_refl eq_refl)
    as (_ & _ & Hring & _).
  exact Hring.
Defined.

Lemma hook_globals_rings st (b : bool) n addr size :
  insn_view (if b then set_mutate_count n (taint_mem addr size st) else taint_mem addr size st)
  = insn_view st
  ∧ call_view (if b then set_mutate_count n (taint_mem addr size st)
               else taint_mem addr size st)
    = call_view st.
Proof.
  pose proof (frame_taint_mem addr size st) as Hf.
  pose proof (insn_view_of_frame _ _ Hf) as Hi.
  pose proof (call_view_of_frame _ _ Hf) as Hc.
  by destruct b.
Qed.

Lemma callback_step_rings w c :
  rings_in_bounds (globals w) → rings_in_bounds (globals (callback_step w c)).
Proof.
  unfold rings_in_bounds, LAST_COUNT. intros (Hi & Hc & Hli & Hlc).
  destruct c as [h pc|h info|h view info]; simpl.
  - pose proof (propagate_taint_insn_view h pc (globals w)) as Hvi.
    pose proof (propagate_taint_call_view h pc (globals w)) as Hvc.
    unfold insn_view, call_view, LAST_COUNT in *.
    destruct (in_module (globals w) pc); simpl in Hvi;
      injection Hvi as -> -> _ _;
      destruct (negb _ && _ && _ && _); simpl in Hvc; injection Hvc as -> ->;
      rewrite ?length_insert;
      repeat split; try done; try lia;
      try (apply Z.rem_nonneg; lia); try (apply Z.rem_bound_pos; lia).
  - rewrite wrap_post_Generic_outcome. simpl.
    destruct (negb _); simpl; [done|].
    destruct (is_function_targeted h info).
    + destruct (hook_globals_rings (globals w) (replay (globals w) && true)
                  (uint32 (mutate_count (globals w) + 1))
                  (lpBuffer info) (nNumberOfBytesToRead info)) as [Hvi Hvc].
      unfold insn_view, call_view in *.
      injection Hvi as -> -> _ _. injection Hvc as -> ->. done.
    + by rewrite andb_false_r.
  - rewrite wrap_post_MapViewOfFile_outcome. simpl.
    destruct (negb _); simpl; [done|].
    destruct (is_function_targeted h (mapped_info view info)).
    + destruct (hook_globals_rings (globals w)
                  (GetMappedFileName view && replay (globals w) && true)
                  (uint32 (mutate_count (globals w) + 1))
                  (lpBuffer (mapped_info view info))
                  (nNumberOfBytesToRead (mapped_info view info))) as [Hvi Hvc].
      unfold insn_view, call_view in *.
      injection Hvi as -> -> _ _. injection Hvc as -> ->. done.
    + by rewrite andb_false_r.
Qed.

(** X10: the ring stores never leave the arrays.  If both write indices are
    in [0, LAST_COUNT) and both arrays have LAST_COUNT slots, as at start-up,
    this is still so after any run of callbacks. *)
Theorem callbacks_run_rings_in_bounds (cs : list callback) (w : world) :
  rings_in_bounds (globals w) → rings_in_bounds (globals (callbacks_run cs w)).
Proof.
  unfold callbacks_run. revert w.
  induction cs as [|c cs IH]; intros w Hw; simpl; [done|].
  by apply IH, callback_step_rings.
Qed.

Lemma callbacks_run_rings_in_bounds_witness :
  let h := example_host (example_call (OPND_ABS_ADDR 5000 8)) (λ _, 0) (λ _, false)
                        true true true true true true in
  let w := example_world (example_tracer false false {[DR_REG_RAX]} ∅ 4096 8192) in
  let cs := replicate 7 (CbPropagate h 4100) in
  rings_in_bounds (globals w) ∧ rings_in_bounds (globals (callbacks_run cs w)).
Proof.
  intros h w cs.
  assert (rings_in_bounds (globals w)) as Hw.
  { unfold rings_in_bounds, LAST_COUNT. simpl. repeat split; lia. }
  split; [exact Hw|]. exact (callbacks_run_rings_in_bounds cs w Hw).
Defined.

(** X11: the report reads a ring oldest entry first.  For an index inside
    an array of LAST_COUNT slots, storing a value and then reading the ring
    from the new index gives the previous reading without its first entry,
    followed by the value stored. *)
Theorem ring_read_after_store (idx : Z) (ring : list app_pc) (value : app_pc) :
  0 ≤ idx < LAST_COUNT → length ring = Z.to_nat LAST_COUNT →
  ring_read (ring_store idx ring value).1 (ring_store idx ring value).2
  = drop 1 (ring_read idx ring) ++ [value].
Proof.
  unfold LAST_COUNT. intros Hidx Hlen.
  destruct ring as [|a [|b [|c [|d [|e [|? ?]]]]]]; try done.
  assert (idx = 0 ∨ idx = 1 ∨ idx = 2 ∨ idx = 3 ∨ idx = 4) as Hcases by lia.
  destruct Hcases as [->|[->|[->|[->| ->]]]]; reflexivity.
Qed.

Lemma ring_read_after_store_witness :
  ring_read (ring_store 4 [10; 20; 30; 40; 50] 60).1 (ring_store 4 [10; 20; 30; 40; 50] 60).2
  = [10; 20; 30; 40; 60].
Proof.
  rewrite (ring_read_after_store 4 [10; 20; 30; 40; 50] 60); [reflexivity| |reflexivity].
  unfold LAST_COUNT. lia.
Defined.

(** ** The propagation rules *)

Lemma handle_branches_not_branch h instr st :
  not_branch instr → handle_branches h instr st = (false, st).
Proof.
  intros (Hret & Hubr & Hcbr & Hcd & Hmbr & Hcall).
  unfold handle_branches. by rewrite Hret, Hubr, Hcbr, Hcd, Hmbr, Hcall.
Qed.

(** The loop for indirect branches puts the program counter token in, or
    does nothing. *)
Lemma indirect_loop_shadow st srcs :
  let st' :=
    foldl (λ st opnd,
             match opnd with
             | OPND_REG r =>
               if bool_decide (reg_to_full_width64 r ≠ DR_REG_RSP)
                  && bool_decide (reg_to_full_width64 r ∈ tainted_regs st)
               then set_tainted_regs (λ s, {[DR_REG_NULL]} ∪ s) st
               else st
             | _ => st
             end) st srcs in
  tainted_regs st'
  = (if reg_src_tainted st srcs then {[DR_REG_NULL]} ∪ tainted_regs st else tainted_regs st)
  ∧ tainted_mems st' = tainted_mems st.
Proof.
  unfold reg_src_tainted. revert st.
  induction srcs as [|opnd srcs IH]; intros st; cbn [foldl existsb]; [done|].
  destruct opnd; cbn [orb]; try apply IH.
  destruct (bool_decide (reg_to_full_width64 reg ≠ DR_REG_RSP)
            && bool_decide (reg_to_full_width64 reg ∈ tainted_regs st)); cbn [orb]; [|apply IH].
  destruct (IH (set_tainted_regs (λ s, {[DR_REG_NULL]} ∪ s) st)) as [-> ->].
  change (tainted_regs (set_tainted_regs (λ s, {[DR_REG_NULL]} ∪ s) st))
    with ({[DR_REG_NULL]} ∪ tainted_regs st).
  split; [|done]. destruct (existsb _ _); set_solver.
Qed.

(** X12: an [xchg] of two registers of which exactly one is tainted swaps
    the taint: afterwards the other one is tainted and the first is not, and
    every other register and all of memory are as before. *)
Theorem propagate_taint_xchg_swaps (h : host) (pc : app_pc) (st : tracer) (r0 r1 : reg_id_t) :
  let instr := decode h pc in
  let a := reg_to_full_width64 r0 in
  let b := reg_to_full_width64 r1 in
  not_branch instr →
  instr_get_opcode instr = OP_xchg →
  instr_srcs instr = [OPND_REG r0; OPND_REG r1] →
  (a ∈ tainted_regs st ↔ b ∉ tainted_regs st) →
  let st' := propagate_taint h pc st in
  (a ∈ tainted_regs st' ↔ b ∈ tainted_regs st)
  ∧ (b ∈ tainted_regs st' ↔ a ∈ tainted_regs st)
  ∧ (∀ r, r ≠ a → r ≠ b → (r ∈ tainted_regs st' ↔ r ∈ tainted_regs st))
  ∧ tainted_mems st' = tainted_mems st.
Proof.
  intros instr a b Hnb Hop Hsrcs Hone st'. subst st'.
  destruct (propagate_taint_decompose h pc st) as (st2 & Hr & Hm & ->).
  assert (bool_decide (tainted_regs st = ∅) = false) as ->.
  { apply bool_decide_eq_false_2. intros Hempty. rewrite Hempty in Hone.
    destruct Hone as [_ Hone]. apply (not_elem_of_empty (C:=gset reg_id_t) a), Hone.
    apply not_elem_of_empty. }
  rewrite andb_false_r.
  unfold propagate_tail, handle_specific. fold instr.
  rewrite (handle_branches_not_branch h instr st2 Hnb), Hop. simpl.
  unfold handle_xchg. rewrite Hsrcs, Hr. fold a b.
  destruct (decide (a ∈ tainted_regs st)) as [Ha|Ha].
  - assert (b ∉ tainted_regs st) as Hb by tauto.
    rewrite (bool_decide_eq_true_2 _ Ha), (bool_decide_eq_false_2 _ Hb). simpl.
    rewrite ?Hr, ?Hm. clear Hone Hop Hsrcs Hnb. clearbody a b. clear instr.
    repeat split; set_solver.
  - assert (b ∈ tainted_regs st) as Hb.
    { destruct (decide (b ∈ tainted_regs st)); [done|]. tauto. }
    rewrite (bool_decide_eq_false_2 _ Ha), (bool_decide_eq_true_2 _ Hb). simpl.
    rewrite ?Hr, ?Hm. clear Hone Hop Hsrcs Hnb. clearbody a b. clear instr.
    repeat split; set_solver.
Qed.

Lemma propagate_taint_xchg_swaps_witness :
  let h := example_host
             (example_instr OP_xchg [OPND_REG DR_REG_EAX; OPND_REG DR_REG_BX]
                            [OPND_REG DR_REG_EAX; OPND_REG DR_REG_BX])
             (λ _, 0) (λ _, false) true true true true true true in
  let st := example_tracer false false {[DR_REG_RAX; DR_REG_RCX]} ∅ 4096 8192 in
  DR_REG_RBX ∈ tainted_regs (propagate_taint h 4100 st)
  ∧ DR_REG_RAX ∉ tainted_regs (propagate_taint h 4100 st).
Proof.
  intros h st.
  assert (DR_REG_RAX ∈ tainted_regs st) as Ha by (simpl; set_solver).
  assert (DR_REG_RBX ∉ tainted_regs st) as Hb by (simpl; set_solver).
  assert (DR_REG_RAX ∈ tainted_regs st ↔ DR_REG_RBX ∉ tainted_regs st) as Hone by tauto.
  destruct (propagate_taint_xchg_swaps h 4100 st DR_REG_EAX DR_REG_BX)
    as (Hswap_a & Hswap_b & _);
    [by repeat split | reflexivity | reflexivity | exact Hone |].
  split; [by apply Hswap_b|]. intros Hin. by apply Hb, Hswap_a.
Defined.

(** The two destination loops of [handle_push_pop] are the loops of the
    generic rule over the destinations that are not [rsp]. *)
Lemma foldl_skip_rsp (f : tracer → opnd_t → tracer) st (dsts : list opnd_t) :
  foldl (λ st opnd, if is_rsp_opnd opnd then st else f st opnd) st dsts
  = foldl f st (filter (λ opnd, is_rsp_opnd opnd = false) dsts).
Proof.
  revert st. induction dsts as [|opnd dsts IH]; intros st; [done|].
  destruct (is_rsp_opnd opnd) eqn:Hrsp.
  - rewrite filter_cons_False by (rewrite Hrsp; done). simpl. rewrite Hrsp. apply IH.
  - rewrite filter_cons_True by done. simpl. rewrite Hrsp. apply IH.
Qed.

Lemma opnd_regs_skip_rsp (dsts : list opnd_t) :
  opnd_regs (filter (λ opnd, is_rsp_opnd opnd = false) dsts)
  = opnd_regs dsts ∖ {[DR_REG_RSP]}.
Proof.
  induction dsts as [|opnd dsts IH]; [done|].
  rewrite filter_cons, (opnd_regs_cons opnd dsts).
  destruct (is_rsp_opnd opnd) eqn:Hrsp.
  - rewrite decide_False by done. rewrite IH.
    destruct opnd; try done. simpl in Hrsp. apply bool_decide_eq_true in Hrsp.
    unfold opnd_regs at 2. simpl. rewrite Hrsp.
    generalize (opnd_regs dsts). intros. set_solver.
  - rewrite decide_True by done. rewrite (opnd_regs_cons opnd _), IH.
    assert (DR_REG_RSP ∉ opnd_regs [opnd]) as Hnot.
    { destruct opnd; unfold opnd_regs; simpl; try set_solver.
      simpl in Hrsp. apply bool_decide_eq_false in Hrsp. set_solver. }
    generalize dependent (opnd_regs [opnd]). generalize (opnd_regs dsts).
    intros. set_solver.
Qed.

Lemma opnd_bytes_skip_rsp h (dsts : list opnd_t) :
  opnd_bytes h (filter (λ opnd, is_rsp_opnd opnd = false) dsts) = opnd_bytes h dsts.
Proof.
  induction dsts as [|opnd dsts IH]; [done|].
  rewrite filter_cons, (opnd_bytes_cons h opnd dsts).
  destruct (is_rsp_opnd opnd) eqn:Hrsp.
  - rewrite decide_False by done. rewrite IH.
    destruct opnd; try done. unfold opnd_bytes at 2. simpl. set_solver.
  - rewrite decide_True by done. by rewrite (opnd_bytes_cons h opnd _), IH.
Qed.

(** X13: [push] and [pop] follow the generic rule on every destination but
    the stack pointer: with a tainted source the other destination registers
    and all destination bytes become tainted, without one they become
    untainted; whether [rsp] is tainted never changes. *)
Theorem propagate_taint_push_pop (h : host) (pc : app_pc) (st : tracer) :
  let instr := decode h pc in
  not_branch instr →
  instr_get_opcode instr = OP_push ∨ instr_get_opcode instr = OP_pop →
  let st' := propagate_taint h pc st in
  (if existsb (is_tainted h st) (instr_srcs instr)
   then tainted_regs st' = (opnd_regs (instr_dsts instr) ∖ {[DR_REG_RSP]}) ∪ tainted_regs st
        ∧ tainted_mems st' = opnd_bytes h (instr_dsts instr) ∪ tainted_mems st
   else tainted_regs st' = tainted_regs st ∖ (opnd_regs (instr_dsts instr) ∖ {[DR_REG_RSP]})
        ∧ tainted_mems st' = tainted_mems st ∖ opnd_bytes h (instr_dsts instr))
  ∧ (DR_REG_RSP ∈ tainted_regs st' ↔ DR_REG_RSP ∈ tainted_regs st).
Proof.
  intros instr Hnb Hop st'. subst st'.
  destruct (propagate_taint_decompose h pc st) as (st2 & Hr & Hm & ->).
  fold instr.
  assert (if existsb (is_tainted h st) (instr_srcs instr)
          then tainted_regs (propagate_tail h instr st2)
               = (opnd_regs (instr_dsts instr) ∖ {[DR_REG_RSP]}) ∪ tainted_regs st
               ∧ tainted_mems (propagate_tail h instr st2)
                 = opnd_bytes h (instr_dsts instr) ∪ tainted_mems st
          else tainted_regs (propagate_tail h instr st2)
               = tainted_regs st ∖ (opnd_regs (instr_dsts instr) ∖ {[DR_REG_RSP]})
               ∧ tainted_mems (propagate_tail h instr st2)
                 = tainted_mems st ∖ opnd_bytes h (instr_dsts instr)) as Htail.
  { assert (propagate_tail h instr st2 = handle_push_pop h instr st2) as ->.
    { unfold propagate_tail, handle_specific.
      rewrite (handle_branches_not_branch h instr st2 Hnb). by destruct Hop as [-> | ->]. }
    unfold handle_push_pop.
    rewrite (existsb_is_tainted_ext h st2 st) by done.
    destruct (existsb _ _); rewrite foldl_skip_rsp.
    - destruct (foldl_taint_shadow h (filter (λ o, is_rsp_opnd o = false) (instr_dsts instr))
                                   st2) as [-> ->].
      by rewrite opnd_regs_skip_rsp, opnd_bytes_skip_rsp, Hr, Hm.
    - destruct (foldl_untaint_shadow h (filter (λ o, is_rsp_opnd o = false) (instr_dsts instr))
                                     st2) as [-> ->].
      by rewrite opnd_regs_skip_rsp, opnd_bytes_skip_rsp, Hr, Hm. }
  destruct (bool_decide (tainted_mems st = ∅) && bool_decide (tainted_regs st = ∅)) eqn:Hclean.
  - apply andb_true_iff in Hclean as [Hm0%bool_decide_eq_true Hr0%bool_decide_eq_true].
    assert (existsb (is_tainted h st) (instr_srcs instr) = false) as ->.
    { apply not_true_is_false. intros (o & _ & Ho)%existsb_exists.
      by rewrite is_tainted_clean in Ho. }
    rewrite Hr, Hm, Hr0, Hm0. split; [split; set_solver|done].
  - split; [exact Htail|].
    destruct (existsb _ _); destruct Htail as [-> _]; set_solver.
Qed.

Lemma propagate_taint_push_pop_witness :
  let push_rax := example_instr OP_push [OPND_REG DR_REG_RAX; OPND_REG DR_REG_RSP]
                    [OPND_REG DR_REG_RSP; OPND_BASE_DISP DR_REG_RSP DR_REG_NULL 0 (-8) 8] in
  let h := example_host push_rax (λ _, 4000) (λ _, false) true true true true true true in
  let st := example_tracer false false {[DR_REG_RAX]} ∅ 4096 8192 in
  (DR_REG_RSP ∉ tainted_regs (propagate_taint h 4100 st))
  ∧ (3992 ∈ tainted_mems (propagate_taint h 4100 st)).
Proof.
  intros push_rax h st.
  destruct (propagate_taint_push_pop h 4100 st) as [Hrule Hrsp].
  - by repeat split.
  - by left.
  - split.
    + intros Hin. apply Hrsp in Hin. simpl in Hin. set_solver.
    + by vm_compute.
Defined.

(** ** The branch family *)

Lemma reg_src_tainted_ext st st' srcs :
  tainted_regs st = tainted_regs st' → reg_src_tainted st srcs = reg_src_tainted st' srcs.
Proof. unfold reg_src_tainted. by intros ->. Qed.

Lemma reg_src_tainted_is_tainted h st srcs :
  reg_src_tainted st srcs = true → existsb (is_tainted h st) srcs = true.
Proof.
  unfold reg_src_tainted. intros (opnd & Hin & Hop)%existsb_exists.
  apply existsb_exists. exists opnd. split; [done|].
  destruct opnd; try done. by apply andb_true_iff in Hop as [_ Hop].
Qed.

Lemma opnd_regs_memory_reference opnd :
  opnd_is_memory_reference opnd = true → opnd_regs [opnd] = ∅.
Proof. by destruct opnd. Qed.

(** The four stages of [handle_branches], one after the other: the call,
    the direct branch, the indirect branch, the return. *)
Lemma handle_branches_shadow h instr st :
  branch_family instr = true →
  let pc_tainted := bool_decide (DR_REG_NULL ∈ tainted_regs st) in
  ∃ st1 st2 st3,
    (handle_branches h instr st).1 = true
    ∧ tainted_regs st1 = tainted_regs st
    ∧ tainted_mems st1
      = (if instr_is_call instr && pc_tainted
         then opnd_bytes h (saved_return_address instr) ∪ tainted_mems st
         else tainted_mems st)
    ∧ tainted_regs st2
      = (if direct_branch instr && pc_tainted
         then tainted_regs st1 ∖ {[DR_REG_NULL]} else tainted_regs st1)
    ∧ tainted_mems st2 = tainted_mems st1
    ∧ tainted_regs st3
      = (if instr_is_mbr instr && reg_src_tainted st2 (instr_srcs instr)
         then {[DR_REG_NULL]} ∪ tainted_regs st2 else tainted_regs st2)
    ∧ tainted_mems st3 = tainted_mems st2
    ∧ tainted_regs (handle_branches h instr st).2
      = (if instr_is_return instr
         then if existsb (is_tainted h st3) (instr_srcs instr)
              then {[DR_REG_NULL]} ∪ tainted_regs st3
              else tainted_regs st3 ∖ {[DR_REG_NULL]}
         else tainted_regs st3)
    ∧ tainted_mems (handle_branches h instr st).2 = tainted_mems st3.
Proof.
  intros Hfam pc_tainted. subst pc_tainted.
  unfold handle_branches. fold (direct_branch instr).
  assert (negb (instr_is_return instr) && negb (direct_branch instr)
          && negb (instr_is_mbr instr) && negb (instr_is_call instr) = false) as ->.
  { unfold branch_family in Hfam.
    by destruct (instr_is_return instr), (direct_branch instr), (instr_is_mbr instr),
      (instr_is_call instr). }
  cbv zeta.
  change (reg_to_full_width64 DR_REG_NULL) with DR_REG_NULL.
  change (reg_to_full_width64 DR_REG_ESP) with DR_REG_RSP.
  set (pc_tainted := bool_decide (DR_REG_NULL ∈ tainted_regs st)).
  set (st1 := if instr_is_call instr && pc_tainted then _ else st).
  set (st2 := if direct_branch instr && pc_tainted then _ else st1).
  set (st3 := if instr_is_mbr instr then _ else st2).
  exists st1, st2, st3. cbn [fst snd].
  assert (tainted_regs st1 = tainted_regs st
          ∧ tainted_mems st1
            = (if instr_is_call instr && pc_tainted
               then opnd_bytes h (saved_return_address instr) ∪ tainted_mems st
               else tainted_mems st)) as [Hr1 Hm1].
  { unfold st1, saved_return_address.
    destruct (instr_is_call instr && pc_tainted); [|done].
    destruct (find opnd_is_memory_reference (instr_dsts instr)) as [opnd|] eqn:Hfind.
    - destruct (taint_shadow h opnd st) as [-> ->].
      apply find_some in Hfind as [_ Hmem].
      rewrite (opnd_regs_memory_reference opnd Hmem). split; [set_solver|done].
    - unfold opnd_bytes. simpl. split; [done|set_solver]. }
  assert (tainted_regs st2
          = (if direct_branch instr && pc_tainted
             then tainted_regs st1 ∖ {[DR_REG_NULL]} else tainted_regs st1)
          ∧ tainted_mems st2 = tainted_mems st1) as [Hr2 Hm2].
  { unfold st2. by destruct (direct_branch instr && pc_tainted). }
  assert (tainted_regs st3
          = (if instr_is_mbr instr && reg_src_tainted st2 (instr_srcs instr)
             then {[DR_REG_NULL]} ∪ tainted_regs st2 else tainted_regs st2)
          ∧ tainted_mems st3 = tainted_mems st2) as [Hr3 Hm3].
  { unfold st3. destruct (instr_is_mbr instr); [|done].
    destruct (indirect_loop_shadow st2 (instr_srcs instr)) as [Hr Hm].
    cbv zeta in Hr, Hm. by rewrite Hr, Hm. }
  repeat split; try done.
  - by destruct (instr_is_return instr), (existsb (is_tainted h st3) (instr_srcs instr)).
  - by destruct (instr_is_return instr), (existsb (is_tainted h st3) (instr_srcs instr)).
Qed.

Lemma propagate_tail_branch h instr st :
  branch_family instr = true → propagate_tail h instr st = (handle_branches h instr st).2.
Proof.
  intros Hfam. unfold propagate_tail, handle_specific.
  destruct (handle_branches_shadow h instr st Hfam) as (_ & _ & _ & Hb & _).
  destruct (handle_branches h instr st) as [b st']. simpl in Hb. by rewrite Hb.
Qed.

(** With nothing tainted the fast path is taken; otherwise a branch is
    left to [handle_branches]. *)
Lemma propagate_taint_branch h pc st :
  branch_family (decode h pc) = true →
  ∃ st2,
    tainted_regs st2 = tainted_regs st ∧ tainted_mems st2 = tainted_mems st
    ∧ ((tainted_regs st = ∅ ∧ tainted_mems st = ∅ ∧ propagate_taint h pc st = st2)
       ∨ propagate_taint h pc st = (handle_branches h (decode h pc) st2).2).
Proof.
  intros Hfam.
  destruct (propagate_taint_decompose h pc st) as (st2 & Hr & Hm & ->).
  exists st2. split; [done|]. split; [done|].
  destruct (bool_decide (tainted_mems st = ∅) && bool_decide (tainted_regs st = ∅)) eqn:Hclean.
  - apply andb_true_iff in Hclean as [Hm0%bool_decide_eq_true Hr0%bool_decide_eq_true].
    by left.
  - right. by apply propagate_tail_branch.
Qed.

(** X14: a direct branch or direct call leaves the program counter
    untainted, whatever it was, and changes no other register. *)
Theorem propagate_taint_direct_branch (h : host) (pc : app_pc) (st : tracer) :
  let instr := decode h pc in
  direct_branch instr = true →
  instr_is_mbr instr = false →
  instr_is_return instr = false →
  tainted_regs (propagate_taint h pc st) = tainted_regs st ∖ {[DR_REG_NULL]}.
Proof.
  intros instr Hdirect Hmbr Hret.
  assert (branch_family instr = true) as Hfam.
  { unfold branch_family. by rewrite Hdirect, orb_true_r. }
  destruct (propagate_taint_branch h pc st Hfam)
    as (st2 & Hr & Hm & [(Hr0 & Hm0 & ->) | ->]).
  { rewrite Hr, Hr0. set_solver. }
  fold instr.
  destruct (handle_branches_shadow h instr st2 Hfam)
    as (st1 & st2' & st3 & _ & Hr1 & _ & Hr2 & _ & Hr3 & _ & Hr4 & _).
  rewrite Hr4, Hret, Hr3, Hmbr, Hr2, Hdirect, Hr1, Hr. cbn [andb].
  generalize (tainted_regs st). clear. intros R.
  case_bool_decide; set_solver.
Qed.

Lemma propagate_taint_direct_branch_witness :
  let h := example_host example_jmp (λ _, 0) (λ _, false) true true true true true true in
  let st := example_tracer false false {[DR_REG_NULL; DR_REG_RAX]} ∅ 4096 8192 in
  tainted_regs (propagate_taint h 4100 st) = {[DR_REG_RAX]}.
Proof.
  intros h st.
  rewrite (propagate_taint_direct_branch h 4100 st) by reflexivity.
  simpl. set_solver.
Defined.

(** X15: an indirect branch or indirect call taints the program counter
    when one of its register sources other than the stack pointer is
    tainted, and never untaints it; a tainted memory operand or a tainted
    stack pointer does not count. *)
Theorem propagate_taint_indirect_branch (h : host) (pc : app_pc) (st : tracer) :
  let instr := decode h pc in
  instr_is_mbr instr = true →
  direct_branch instr = false →
  instr_is_return instr = false →
  tainted_regs (propagate_taint h pc st)
  = (if reg_src_tainted st (instr_srcs instr)
     then {[DR_REG_NULL]} ∪ tainted_regs st else tainted_regs st).
Proof.
  intros instr Hmbr Hdirect Hret.
  assert (branch_family instr = true) as Hfam.
  { unfold branch_family. by rewrite Hmbr, orb_true_r. }
  destruct (propagate_taint_branch h pc st Hfam)
    as (st2 & Hr & Hm & [(Hr0 & Hm0 & ->) | ->]).
  { rewrite Hr. destruct (reg_src_tainted st (instr_srcs instr)) eqn:Hsrc; [|done].
    apply (reg_src_tainted_is_tainted h) in Hsrc.
    apply existsb_exists in Hsrc as (opnd & _ & Hop).
    by rewrite is_tainted_clean in Hop. }
  fold instr.
  destruct (handle_branches_shadow h instr st2 Hfam)
    as (st1 & st2' & st3 & _ & Hr1 & _ & Hr2 & _ & Hr3 & _ & Hr4 & _).
  rewrite Hr4, Hret, Hr3, Hmbr. cbn [andb].
  rewrite Hdirect in Hr2. cbn [andb] in Hr2.
  rewrite (reg_src_tainted_ext st2' st) by congruence.
  by rewrite Hr2, Hr1, Hr.
Qed.

Lemma propagate_taint_indirect_branch_witness :
  let h := example_host (example_jmp_reg DR_REG_EAX) (λ _, 0) (λ _, false)
                        true true true true true true in
  let st := example_tracer false false {[DR_REG_RAX]} ∅ 4096 8192 in
  DR_REG_NULL ∈ tainted_regs (propagate_taint h 4100 st).
Proof.
  intros h st.
  rewrite (propagate_taint_indirect_branch h 4100 st) by reflexivity.
  assert (reg_src_tainted st (instr_srcs (decode h 4100)) = true) as ->.
  { simpl. rewrite orb_false_r. apply bool_decide_eq_true. set_solver. }
  set_solver.
Defined.

(** X16: a return taints the program counter when one of its sources is
    tainted and untaints it otherwise; memory and the other registers are
    as before. *)
Theorem propagate_taint_ret (h : host) (pc : app_pc) (st : tracer) :
  let instr := decode h pc in
  instr_is_return instr = true →
  direct_branch instr = false →
  instr_is_call instr = false →
  let st' := propagate_taint h pc st in
  tainted_regs st'
  = (if existsb (is_tainted h st) (instr_srcs instr)
     then {[DR_REG_NULL]} ∪ tainted_regs st else tainted_regs st ∖ {[DR_REG_NULL]})
  ∧ tainted_mems st' = tainted_mems st.
Proof.
  intros instr Hret Hdirect Hcall st'. subst st'.
  assert (branch_family instr = true) as Hfam.
  { unfold branch_family. by rewrite Hret. }
  destruct (propagate_taint_branch h pc st Hfam)
    as (st2 & Hr & Hm & [(Hr0 & Hm0 & ->) | ->]).
  { assert (existsb (is_tainted h st) (instr_srcs instr) = false) as ->.
    { apply not_true_is_false. intros (o & _ & Ho)%existsb_exists.
      by rewrite is_tainted_clean in Ho. }
    rewrite Hr, Hm, Hr0. split; [set_solver|done]. }
  fold instr.
  destruct (handle_branches_shadow h instr st2 Hfam)
    as (st1 & st2' & st3 & _ & Hr1 & Hm1 & Hr2 & Hm2 & Hr3 & Hm3 & Hr4 & Hm4).
  rewrite Hcall in Hm1. rewrite Hdirect in Hr2. cbn [andb] in Hm1, Hr2.
  assert (tainted_regs st2' = tainted_regs st) as Hr2' by congruence.
  assert (tainted_mems st3 = tainted_mems st) as Hm3' by congruence.
  rewrite (reg_src_tainted_ext st2' st) in Hr3 by done.
  rewrite Hr2' in Hr3.
  split; [|congruence].
  rewrite Hr4, Hret.
  destruct (instr_is_mbr instr && reg_src_tainted st (instr_srcs instr)) eqn:Hloop.
  - apply andb_true_iff in Hloop as [_ Hsrc].
    apply (reg_src_tainted_is_tainted h) in Hsrc.
    assert (existsb (is_tainted h st3) (instr_srcs instr) = true) as ->.
    { apply existsb_exists in Hsrc as (o & Hin & Ho).
      apply existsb_exists. exists o. split; [done|].
      apply (is_tainted_mono h st st3 o); [rewrite Hr3; set_solver|by rewrite Hm3'|done]. }
    rewrite Hsrc, Hr3. set_solver.
  - rewrite (existsb_is_tainted_ext h st3 st) by done. by rewrite Hr3.
Qed.

Lemma propagate_taint_ret_witness :
  let h := example_host example_ret (λ _, 4000) (λ _, false) true true true true true true in
  let st := example_tracer false false ∅ {[4003]} 4096 8192 in
  DR_REG_NULL ∈ tainted_regs (propagate_taint h 4100 st)
  ∧ tainted_mems (propagate_taint h 4100 st) = {[4003]}.
Proof.
  intros h st.
  destruct (propagate_taint_ret h 4100 st) as [Hr Hm]; [reflexivity..|].
  assert (existsb (is_tainted h st) (instr_srcs (decode h 4100)) = true) as Hsrc
    by (vm_compute; reflexivity).
  rewrite Hsrc in Hr. rewrite Hr, Hm. split; [set_solver|done].
Defined.

(** X17: among the branch family only a call touches tainted memory, and
    only to add to it: when the program counter is tainted, the slot where
    the call saves the return address becomes tainted; no branch ever
    untaints a byte. *)
Theorem propagate_taint_branch_memory (h : host) (pc : app_pc) (st : tracer) :
  let instr := decode h pc in
  branch_family instr = true →
  tainted_mems (propagate_taint h pc st)
  = (if instr_is_call instr && bool_decide (DR_REG_NULL ∈ tainted_regs st)
     then opnd_bytes h (saved_return_address instr) ∪ tainted_mems st
     else tainted_mems st).
Proof.
  intros instr Hfam.
  destruct (propagate_taint_branch h pc st Hfam)
    as (st2 & Hr & Hm & [(Hr0 & Hm0 & ->) | ->]).
  { rewrite Hm, Hr0. rewrite (bool_decide_eq_false_2 (_ ∈ ∅)) by set_solver.
    by rewrite andb_false_r. }
  fold instr.
  destruct (handle_branches_shadow h instr st2 Hfam)
    as (st1 & st2' & st3 & _ & Hr1 & Hm1 & Hr2 & Hm2 & Hr3 & Hm3 & Hr4 & Hm4).
  rewrite Hm4, Hm3, Hm2, Hm1. by rewrite Hr, Hm.
Qed.

Lemma propagate_taint_branch_memory_witness :
  let h := example_host (example_call (OPND_BASE_DISP DR_REG_RAX DR_REG_NULL 0 0 8))
                        (λ _, 4000) (λ _, false) true true true true true true in
  let st := example_tracer false false {[DR_REG_NULL]} ∅ 4096 8192 in
  (3992 ∈ tainted_mems (propagate_taint h 4100 st))
  ∧ (4000 ∉ tainted_mems (propagate_taint h 4100 st)).
Proof.
  intros h st.
  rewrite (propagate_taint_branch_memory h 4100 st) by reflexivity.
  assert (bool_decide (DR_REG_NULL ∈ tainted_regs st) = true) as ->
    by (apply bool_decide_eq_true; simpl; set_solver).
  change (instr_is_call (decode h 4100) && true) with true. cbv iota.
  change (tainted_mems st) with (∅ : gset app_pc).
  change (opnd_bytes h (saved_return_address (decode h 4100)))
    with (byte_range 3992 8 ∪ (∅ : gset app_pc)).
  rewrite !elem_of_union, !elem_of_byte_range.
  split.
  - left. left. exists 0. split; [lia|done].
  - intros [[(i & Hi & Heq)|Hin]|Hin]; [|set_solver..]. revert Heq.
    unfold ptr_add, ptr_modulus. rewrite Z.mod_small by lia. lia.
Defined.

(** X18: every other instruction that no handler takes follows the generic
    rule: with a tainted source all destinations become tainted, without
    one all destinations become untainted. *)
Theorem propagate_taint_generic (h : host) (pc : app_pc) (st : tracer) (n : N) :
  let instr := decode h pc in
  not_branch instr →
  instr_get_opcode instr = OP_other n →
  let st' := propagate_taint h pc st in
  if existsb (is_tainted h st) (instr_srcs instr)
  then tainted_regs st' = opnd_regs (instr_dsts instr) ∪ tainted_regs st
       ∧ tainted_mems st' = opnd_bytes h (instr_dsts instr) ∪ tainted_mems st
  else tainted_regs st' = tainted_regs st ∖ opnd_regs (instr_dsts instr)
       ∧ tainted_mems st' = tainted_mems st ∖ opnd_bytes h (instr_dsts instr).
Proof.
  intros instr Hnb Hop st'. subst st'.
  destruct (propagate_taint_decompose h pc st) as (st2 & Hr & Hm & ->).
  fold instr.
  destruct (bool_decide (tainted_mems st = ∅) && bool_decide (tainted_regs st = ∅)) eqn:Hclean.
  - apply andb_true_iff in Hclean as [Hm0%bool_decide_eq_true Hr0%bool_decide_eq_true].
    assert (existsb (is_tainted h st) (instr_srcs instr) = false) as ->.
    { apply not_true_is_false. intros (o & _ & Ho)%existsb_exists.
      by rewrite is_tainted_clean in Ho. }
    rewrite Hr, Hm, Hr0, Hm0. split; set_solver.
  - unfold propagate_tail, handle_specific.
    rewrite (handle_branches_not_branch h instr st2 Hnb), Hop. cbn [fst snd].
    rewrite (existsb_is_tainted_ext h st2 st) by done.
    destruct (existsb _ _).
    + destruct (foldl_taint_shadow h (instr_dsts instr) st2) as [-> ->]. by rewrite Hr, Hm.
    + destruct (foldl_untaint_shadow h (instr_dsts instr) st2) as [-> ->]. by rewrite Hr, Hm.
Qed.

Lemma propagate_taint_generic_witness :
  let h := example_host (example_instr (OP_other 0) [OPND_REG DR_REG_EAX] [OPND_REG DR_REG_BX])
                        (λ _, 0) (λ _, false) true true true true true true in
  let st := example_tracer false false {[DR_REG_RAX]} ∅ 4096 8192 in
  tainted_regs (propagate_taint h 4100 st) = {[DR_REG_RBX; DR_REG_RAX]}.
Proof.
  intros h st.
  pose proof (propagate_taint_generic h 4100 st 0) as Hrule.
  cbv zeta in Hrule.
  assert (existsb (is_tainted h st) (instr_srcs (decode h 4100)) = true) as Hsrc.
  { simpl. rewrite orb_false_r. apply bool_decide_eq_true. set_solver. }
  rewrite Hsrc in Hrule.
  destruct Hrule as [-> _]; [by repeat split|reflexivity|].
  unfold opnd_regs. simpl. set_solver.
Defined.

(** ** Triage: the score and the crash file *)

(** X19: the handler scores a crash 25, 50, 75 or 100, and 100 only when
    the program counter or the stack pointer is tainted. *)
Theorem on_exception_score_100 (h : host) (excpt : dr_exception_t) (w : world) :
  ∃ j t io,
    on_exception h excpt w
    = Terminates t {| globals := set_crashed true (globals w);
                      trace := trace w ++ EvDumpCrash j :: io |}
    ∧ (j_score j = 25 ∨ j_score j = 50 ∨ j_score j = 75 ∨ j_score j = 100)
    ∧ (j_score j = 100 →
       DR_REG_NULL ∈ tainted_regs (globals w) ∨ DR_REG_RSP ∈ tainted_regs (globals w)).
Proof.
  destruct (on_exception_outcome h excpt w) as (r & Hrow & Hrun).
  eexists _, _, _. split; [exact Hrun|].
  change (j_score (report_of h (set_crashed true (globals w)) excpt r
                             (ScoringMatrix.passed_on r
                                (ScoringMatrix.step3 h (globals w) excpt))))
    with (ScoringMatrix.score r).
  split.
  - destruct r; simpl; auto.
  - intros Hscore.
    apply find_some in Hrow as [_ Hcond].
    destruct r; try discriminate Hscore; simpl in Hcond.
    + apply andb_true_iff in Hcond as [_ Hpc%bool_decide_eq_true]. by left.
    + apply andb_true_iff in Hcond as [_ Hpc%bool_decide_eq_true]. by left.
    + apply andb_true_iff in Hcond as [_ [Hpc%bool_decide_eq_true|Hsp%bool_decide_eq_true]%orb_true_iff];
        [by left|by right].
Qed.

(** X20: in a replay run, when the crash file cannot be opened or cannot be
    written, the handler aborts: the process does not exit with code 1, no
    JSON record is produced, and the dump file is never opened, so that
    there is no minidump either. *)
Theorem on_exception_crash_file_failure (h : host) (excpt : dr_exception_t) (w : world) :
  replay (globals w) = true →
  CreateFile_crash_path h = false ∨ WriteFile_crash_json h = false →
  ∃ io,
    on_exception h excpt w
    = Terminates Aborted {| globals := set_crashed true (globals w); trace := trace w ++ io |}
    ∧ count_events is_json_record io = 0%nat
    ∧ count_events is_minidump io = 0%nat
    ∧ (∀ ok, EvCreateFile mem_dump_path ok ∉ io).
Proof.
  intros Hreplay Hfail.
  destruct (on_exception_outcome h excpt w) as (r & _ & Hrun).
  cbv zeta in Hrun.
  change (replay (set_crashed true (globals w))) with (replay (globals w)) in Hrun.
  rewrite Hreplay in Hrun.
  set (j := report_of h (set_crashed true (globals w)) excpt r
              (ScoringMatrix.passed_on r (ScoringMatrix.step3 h (globals w) excpt))) in *.
  clearbody j.
  unfold dump_crash_io in Hrun.
  destruct (CreateFile_crash_path h) eqn:Hopen.
  - destruct Hfail as [Hfail|Hfail]; [discriminate Hfail|].
    rewrite Hfail in Hrun. eexists. split; [exact Hrun|].
    repeat split; try done.
    intros ok Hin.
    repeat (apply elem_of_cons in Hin as [Hin|Hin]; [discriminate Hin|]).
    by apply elem_of_nil in Hin.
  - eexists. split; [exact Hrun|].
    repeat split; try done.
    intros ok Hin.
    repeat (apply elem_of_cons in Hin as [Hin|Hin]; [discriminate Hin|]).
    by apply elem_of_nil in Hin.
Qed.

Lemma on_exception_crash_file_failure_witness :
  let h := example_host (example_instr (OP_other 0) [] []) (λ _, 0) (λ _, false)
                        true false true true true true in
  let excpt := {| ExceptionCode := EXCEPTION_BREAKPOINT; ExceptionAddress := 4100;
                  mcontext := {| mc_reg := λ _, 0 |} |} in
  let w := example_world (example_tracer true false ∅ ∅ 4096 8192) in
  ∃ w', on_exception h excpt w = Terminates Aborted w'.
Proof.
  intros h excpt w.
  destruct (on_exception_crash_file_failure h excpt w) as (io & Hrun & _);
    [reflexivity|by right|].
  eexists. exact Hrun.
Defined.

(** ** The hooks *)

(** X21: a mapped view whose file name cannot be resolved is never
    replayed: even in replay mode and for a targeted call no mutex is taken,
    the server is not asked and [mutate_count] stays; the view is tainted
    all the same when the call is targeted. *)
Theorem wrap_post_MapViewOfFile_unnamed (h : host) (view : mapped_view)
    (info : client_read_info) (w : world) :
  is_sane_post_hook h info = true →
  GetMappedFileName view = false →
  let info' := mapped_info view info in
  ∃ w' io,
    wrap_post_MapViewOfFile h view info w = Returns () w'
    ∧ trace w' = trace w ++ io
    ∧ count_events is_replay_rpc io = 0%nat
    ∧ count_events is_mutex_event io = 0%nat
    ∧ mutate_count (globals w') = mutate_count (globals w)
    ∧ tainted_mems (globals w')
      = (if is_function_targeted h info'
         then byte_range (lpBuffer info') (nNumberOfBytesToRead info')
              ∪ tainted_mems (globals w)
         else tainted_mems (globals w)).
Proof.
  intros Hsane Hname info'.
  pose proof (wrap_post_MapViewOfFile_outcome h view info w) as Hrun.
  cbv zeta in Hrun. rewrite Hsane, Hname in Hrun. cbn [negb andb] in Hrun.
  fold info' in Hrun.
  eexists _, _. split; [exact Hrun|]. cbn [globals trace].
  split; [reflexivity|]. split; [done|]. split; [done|].
  destruct (is_function_targeted h info'); [|done].
  rewrite mutate_count_taint_mem.
  by destruct (taint_mem_shadow (lpBuffer info') (nNumberOfBytesToRead info') (globals w))
    as [-> _].
Qed.

Lemma wrap_post_MapViewOfFile_unnamed_witness :
  let h := example_host (example_instr (OP_other 0) [] []) (λ _, 0) (λ _, false)
                        true true true true true true in
  let view := {| drwrap_get_retval := 4000; RegionSize := 4096; GetMappedFileName := false |} in
  let info := {| lpBuffer := 0; nNumberOfBytesToRead := 2; argHash := true; function := 7 |} in
  let w := example_world (example_tracer true false ∅ ∅ 4096 8192) in
  ∃ w', wrap_post_MapViewOfFile h view info w = Returns () w'
        ∧ mutate_count (globals w') = 0
        ∧ 4001 ∈ tainted_mems (globals w').
Proof.
  intros h view info w.
  destruct (wrap_post_MapViewOfFile_unnamed h view info w)
    as (w' & io & Hrun & _ & _ & _ & Hcount & Hmems); [reflexivity..|].
  exists w'. split; [exact Hrun|]. split; [exact Hcount|].
  rewrite Hmems. simpl.
  apply elem_of_union. left. apply elem_of_byte_range. exists 1. split; [lia|done].
Defined.

(** X22: what [wrap_post_MapViewOfFile] taints for a targeted call is the
    view itself: the bytes from the address the call returned, as many as
    the caller asked for or, when the caller asked for zero, as many as the
    region has; the buffer the record held before plays no part. *)
Theorem wrap_post_MapViewOfFile_taints_view (h : host) (view : mapped_view)
    (info : client_read_info) (w : world) :
  is_sane_post_hook h info = true →
  is_function_targeted h (mapped_info view info) = true →
  let w' := world_of (wrap_post_MapViewOfFile h view info w) in
  tainted_mems (globals w')
  = byte_range (drwrap_get_retval view)
               (if bool_decide (nNumberOfBytesToRead info = 0)
                then RegionSize view else nNumberOfBytesToRead info)
    ∪ tainted_mems (globals w)
  ∧ tainted_regs (globals w') = tainted_regs (globals w).
Proof.
  intros Hsane Htargeted w'. subst w'.
  rewrite wrap_post_MapViewOfFile_outcome, Hsane, Htargeted. cbn [negb world_of globals].
  destruct (taint_mem_shadow (lpBuffer (mapped_info view info))
              (nNumberOfBytesToRead (mapped_info view info)) (globals w)) as [Hm Hr].
  by destruct (_ && _ && _).
Qed.

Lemma wrap_post_MapViewOfFile_taints_view_witness :
  let h := example_host (example_instr (OP_other 0) [] []) (λ _, 0) (λ _, false)
                        true true true true true true in
  let view := {| drwrap_get_retval := 4000; RegionSize := 4096; GetMappedFileName := true |} in
  let info := {| lpBuffer := 0; nNumberOfBytesToRead := 0; argHash := true; function := 7 |} in
  let w := example_world (example_tracer false false ∅ ∅ 4096 8192) in
  8095 ∈ tainted_mems (globals (world_of (wrap_post_MapViewOfFile h view info w))).
Proof.
  intros h view info w.
  destruct (wrap_post_MapViewOfFile_taints_view h view info w) as [-> _]; [reflexivity..|].
  apply elem_of_union. left. apply elem_of_byte_range. exists 4095. split; [simpl; lia|done].
Defined.

(** [propagate_taint] leaves the mode of the run and the replay counter
    alone. *)
Lemma propagate_taint_mode h pc st :
  replay (propagate_taint h pc st) = replay st
  ∧ mutate_count (propagate_taint h pc st) = mutate_count st.
Proof.
  unfold propagate_taint, ring_store. cbv zeta.
  set (st1 := if in_module st pc then _ else st).
  assert (replay st1 = replay st ∧ mutate_count st1 = mutate_count st) as [Hr Hc].
  { unfold st1. by destruct (in_module st pc). }
  destruct (_ && _); [done|].
  match goal with |- replay (let '(_, _) := handle_specific h ?i ?s in _) = _ ∧ _ =>
    pose proof (frame_propagate_tail h i s) as Ht; cbv zeta in Ht;
    assert (replay s = replay st ∧ mutate_count s = mutate_count st) as [Hr' Hc']
  end.
  { by destruct (instr_is_call (decode h pc)),
      (opnd_is_memory_reference (instr_get_target (decode h pc))), (in_module st1 pc). }
  unfold frame in Ht. injection Ht as -> _ _ -> _ _ _ _ _ _. done.
Qed.

Lemma callback_step_mutate_count w c :
  replay (globals (callback_step w c)) = replay (globals w)
  ∧ mutate_count (globals (callback_step w c))
    = (if replay (globals w) && counts_for_replay c
       then uint32 (mutate_count (globals w) + 1) else mutate_count (globals w)).
Proof.
  destruct c as [h pc|h info|h view info]; simpl.
  - rewrite andb_false_r. apply propagate_taint_mode.
  - rewrite wrap_post_Generic_outcome. simpl.
    destruct (is_sane_post_hook h info); simpl; [|by rewrite andb_false_r].
    destruct (is_function_targeted h info); simpl; [|by rewrite !andb_false_r].
    rewrite !andb_true_r.
    destruct (replay (globals w)) eqn:Hreplay; simpl;
      by rewrite ?replay_taint_mem, ?mutate_count_taint_mem.
  - rewrite wrap_post_MapViewOfFile_outcome. simpl.
    destruct (is_sane_post_hook h info); simpl; [|by rewrite andb_false_r].
    destruct (is_function_targeted h (mapped_info view info)); simpl;
      [|by rewrite !andb_false_r].
    rewrite !andb_true_r.
    destruct (GetMappedFileName view), (replay (globals w)) eqn:Hreplay; simpl;
      by rewrite ?replay_taint_mem, ?mutate_count_taint_mem.
Qed.

(** X23: [mutate_count] counts the interceptions that were replayed.  Over
    any run of callbacks it advances, modulo 2^32, by the number of
    post-hooks of the run that were sane and targeted (for a mapped view:
    and whose file name was resolved) when the run is a replay, and it does
    not move when the run is not; the mode itself never changes. *)
Theorem callbacks_run_mutate_count (cs : list callback) (w : world) :
  0 ≤ mutate_count (globals w) < 2 ^ 32 →
  let n := Z.of_nat (length (filter (λ c, counts_for_replay c = true) cs)) in
  replay (globals (callbacks_run cs w)) = replay (globals w)
  ∧ mutate_count (globals (callbacks_run cs w))
    = (if replay (globals w) then uint32 (mutate_count (globals w) + n)
       else mutate_count (globals w)).
Proof.
  unfold callbacks_run. revert w.
  induction cs as [|c cs IH]; intros w Hrange; cbv zeta in *.
  - simpl. split; [done|]. destruct (replay (globals w)); [|done].
    unfold uint32. rewrite Z.add_0_r, Z.mod_small; [done|lia].
  - cbn [foldl].
    destruct (callback_step_mutate_count w c) as [Hreplay Hcount].
    assert (0 ≤ mutate_count (globals (callback_step w c)) < 2 ^ 32) as Hrange'.
    { rewrite Hcount. destruct (_ && _); [|done]. unfold uint32. apply Z.mod_pos_bound. lia. }
    destruct (IH (callback_step w c) Hrange') as [-> ->].
    rewrite Hreplay, Hcount. split; [done|].
    destruct (replay (globals w)); [|done]. cbn [andb].
    rewrite filter_cons.
    destruct (counts_for_replay c) eqn:Hc.
    + rewrite decide_True by done. cbn [length].
      unfold uint32. rewrite Zplus_mod_idemp_l. f_equal. lia.
    + rewrite decide_False by (by intros ?). done.
Qed.

Lemma callbacks_run_mutate_count_witness :
  let h := example_host (example_instr (OP_other 0) [] []) (λ _, 0) (λ _, false)
                        true true true true true true in
  let view := {| drwrap_get_retval := 4000; RegionSize := 16; GetMappedFileName := false |} in
  let info := {| lpBuffer := 4000; nNumberOfBytesToRead := 2; argHash := true; function := 7 |} in
  let w := example_world (example_tracer true true ∅ ∅ 4096 8192) in
  mutate_count (globals (callbacks_run [CbPostGeneric h info; CbPropagate h 4100;
                                        CbPostMapViewOfFile h view info;
                                        CbPostGeneric h info] w)) = 2.
Proof.
  intros h view info w.
  destruct (callbacks_run_mutate_count
              [CbPostGeneric h info; CbPropagate h 4100;
               CbPostMapViewOfFile h view info; CbPostGeneric h info] w) as [_ ->];
    [simpl; lia|].
  reflexivity.
Defined.

(** ** Choosing the functions to hook *)

Lemma hook_decision_app function_name ts1 ts2 :
  hook_decision function_name (ts1 ++ ts2)
  = foldl (λ hook t,
             if selected t && bool_decide (functionName t = function_name)
             then true
             else if selected t
                     && (bool_decide (function_name = "RegQueryValueExW"%string)
                         || bool_decide (function_name = "RegQueryValueExA"%string))
             then if negb (bool_decide (functionName t = "RegQueryValueEx"%string))
                  then false
                  else hook
             else hook)
          (hook_decision function_name ts1) ts2.
Proof. unfold hook_decision. by rewrite foldl_app. Qed.

(** X24: for an entry point other than the two [RegQueryValueEx] variants,
    the loop over the targets leaves [hook] set exactly when the
    configuration has a selected target of exactly its name.  (An entry
    point for which [hook] is not set is passed over.) *)
Theorem hook_decision_by_name (function_name : string) (parsedJson : list targetFunction) :
  function_name ≠ "RegQueryValueExW"%string →
  function_name ≠ "RegQueryValueExA"%string →
  hook_decision function_name parsedJson
  = existsb (λ t, selected t && bool_decide (functionName t = function_name)) parsedJson.
Proof.
  intros HW HA.
  induction parsedJson as [|t ts IH] using rev_ind; [done|].
  rewrite hook_decision_app, existsb_app, IH. cbn [foldl existsb].
  rewrite (bool_decide_eq_false_2 _ HW), (bool_decide_eq_false_2 _ HA).
  rewrite orb_false_r, andb_false_r.
  by destruct (selected t && bool_decide (functionName t = function_name)), (existsb _ ts).
Qed.

Lemma hook_decision_by_name_witness :
  hook_decision "ReadFile" [ {| selected := false; functionName := "ReadFile" |};
                             {| selected := true; functionName := "fread" |};
                             {| selected := true; functionName := "ReadFile" |} ] = true.
Proof. by rewrite hook_decision_by_name. Defined.

(** X25: for [RegQueryValueExW] and [RegQueryValueExA] the last word
    counts.  A selected target of any name other than the entry point's own
    and [RegQueryValueEx] withdraws the hook again, so that the entry point
    is left unhooked whenever such a target comes last in the
    configuration, whatever stands before it. *)
Theorem hook_decision_registry_withdrawn (function_name : string)
    (parsedJson : list targetFunction) (t : targetFunction) :
  function_name = "RegQueryValueExW"%string ∨ function_name = "RegQueryValueExA"%string →
  selected t = true →
  functionName t ≠ function_name →
  functionName t ≠ "RegQueryValueEx"%string →
  hook_decision function_name (parsedJson ++ [t]) = false.
Proof.
  intros Hreg Hsel Hname Hbase.
  rewrite hook_decision_app. cbn [foldl]. rewrite Hsel. cbn [andb].
  rewrite (bool_decide_eq_false_2 _ Hname), (bool_decide_eq_false_2 _ Hbase).
  assert (bool_decide (function_name = "RegQueryValueExW"%string)
          || bool_decide (function_name = "RegQueryValueExA"%string) = true) as ->; [|done].
  destruct Hreg as [-> | ->]; [done|]. by rewrite orb_true_r.
Qed.

Lemma hook_decision_registry_withdrawn_witness :
  hook_decision "RegQueryValueExW"
                ([ {| selected := true; functionName := "RegQueryValueExW" |} ]
                 ++ [ {| selected := true; functionName := "ReadFile" |} ]) = false.
Proof. apply hook_decision_registry_withdrawn; [by left|done..]. Defined.
